(** * The wallet engine of hundredeyes: [src/wallet/database.ts]

    A shallow embedding of the [Database] class: the Dexie tables are finite
    maps keyed by their primary key, every [async] method is a computation in
    a state-and-exception monad over the whole database, and everything the
    class reaches outside itself (the settlement server, the bitcoin receive
    lookup, the random source, the clock) is an oracle that sees the history
    of external interactions made so far.

    Conventions of the embedding.
    - [Uint8Array] buffers, hashes, keys and signatures are byte strings; a
      value of [hookedin-lib] and its POD (JSON) form are identified, so a
      document is stored in parsed form and [util.notError (X.fromPOD doc)]
      on a stored document is the identity.
    - JavaScript numbers that hold amounts and derivation indices are [Z];
      magnitudes (exponents of two) are [nat].
    - The fee rate of [sendToBitcoinAddress] is integral, so that the
      [Math.ceil] around its product with the template weight is the
      identity.
    - [toArray ()] lists the rows of a table; Dexie orders them by the
      primary key, the embedding leaves that order to [map_to_list].
    - An exception carries the database as it is when thrown: writes made
      before a [throw] outside a Dexie transaction stay. *)

From Stdlib Require Import ZArith Lia.
From stdpp Require Import base option list gmap strings pretty fin_maps sorting.

Abbreviation Bytes := string (only parsing).
Abbreviation Hash := string (only parsing).
Abbreviation PublicKey := string (only parsing).
Abbreviation PrivateKey := string (only parsing).
Abbreviation Signature := string (only parsing).
Abbreviation Address := string (only parsing).
Abbreviation Date := nat (only parsing).

(** ** Values of hookedin-lib *)

Module hi.

Record Coin := mkCoin {
  owner : PublicKey;
  magnitude : nat;
  existenceProof : Signature }.

Record Bounty := mkBounty {
  bounty_amount : Z;
  bounty_claimant : PublicKey;
  bounty_nonce : Bytes }.

Record Hookin := mkHookin {
  hookin_txid : Bytes;
  hookin_vout : Z;
  hookin_amount : Z;
  hookin_creditTo : PublicKey }.

Record Hookout := mkHookout {
  hookout_amount : Z;
  hookout_bitcoinAddress : Address;
  hookout_immediate : bool;
  hookout_nonce : Bytes }.

(** [hi.FullTransfer (inputs, bounties, hookout, authorization)]. *)
Record FullTransfer := mkFullTransfer {
  ft_inputs : list Coin;
  ft_bounties : list Bounty;
  ft_hookout : option Hookout;
  ft_authorization : Signature }.

(** [hi.Transfer], what [FullTransfer.prune ()] returns: outputs by hash. *)
Record Transfer := mkTransfer {
  tr_inputs : list Coin;
  tr_bountyHashes : list Hash;
  tr_hookoutHash : option Hash;
  tr_authorization : Signature }.

(** What [lookupTransfer] returns: a transfer with the server's
    acknowledgement. *)
Record AcknowledgedTransfer := mkAcknowledgedTransfer {
  at_contents : Transfer;
  at_acknowledgement : Signature }.

Record CoinClaim := mkCoinClaim {
  cc_blindingNonce : PublicKey;
  cc_blindedOwner : Bytes;
  cc_magnitude : nat }.

Record ClaimRequest := mkClaimRequest {
  cr_claim : Hash;
  cr_coins : list CoinClaim;
  cr_authorization : Signature }.

Record ClaimResponse := mkClaimResponse {
  claimRequest : ClaimRequest;
  blindedReceipts : list Bytes }.

Record AcknowledgedClaimResponse := mkAcknowledgedClaimResponse {
  acr_contents : ClaimResponse;
  acr_acknowledgement : Signature }.

End hi.

(** The two things [makeClaim] is called on. *)
Inductive Claimable :=
| ClaimBounty (b : hi.Bounty)
| ClaimHookin (h : hi.Hookin).

(** [RequestError] of [requests/make-request.ts]. *)
Record RequestError := mkRequestError {
  re_message : string;
  re_statusCode : Z }.

(** [BitcoinReceiveInfo] of [requests/bitcoin-receives]. *)
Record BitcoinReceiveInfo := mkBitcoinReceiveInfo {
  ri_txid : Bytes;
  ri_vout : Z;
  ri_amount : Z }.

(** ** Documents ([Docs.*]), as [database.ts] builds and reads them *)

Inductive TransferStatus :=
| PENDING
| ACKNOWLEDGED (acknowledgement : Signature)
| CONFLICTED.

(** [status.kind]. *)
Definition kind (s : TransferStatus) : string :=
  match s with
  | PENDING => "PENDING"
  | ACKNOWLEDGED _ => "ACKNOWLEDGED"
  | CONFLICTED => "CONFLICTED"
  end.

Module Docs.

Record Bounty := mkBounty {
  b_hash : Hash;
  b_amount : Z;
  b_claimant : PublicKey;
  b_nonce : Bytes }.

Record Coin := mkCoin {
  c_hash : Hash;
  c_claimHash : Hash;
  c_blindingNonce : PublicKey;
  c_owner : PublicKey;
  c_magnitude : nat;
  c_existenceProof : Signature }.

Record Hookin := mkHookin {
  h_hash : Hash;
  h_bitcoinAddress : Address;
  h_created : Date;
  h_txid : Bytes;
  h_vout : Z;
  h_amount : Z;
  h_creditTo : PublicKey }.

Record Hookout := mkHookout {
  o_hash : Hash;
  o_amount : Z;
  o_bitcoinAddress : Address;
  o_immediate : bool;
  o_nonce : Bytes }.

Record BitcoinAddress := mkBitcoinAddress {
  ba_address : Address;
  ba_claimant : PublicKey;
  ba_index : Z }.

Record DirectAddress := mkDirectAddress {
  da_claimant : PublicKey;
  da_index : Z;
  da_isInternal : bool }.

Record Transfer := mkTransfer {
  t_hash : Hash;
  t_created : Date;
  t_status : TransferStatus;
  t_coinHashes : list Hash;
  t_inputs : list hi.Coin;
  t_bountyHashes : list Hash;
  t_hookoutHash : option Hash;
  t_authorization : Signature }.

End Docs.

(** ** The interface of hookedin-lib

    The cryptographic library is outside the repository: its functions are
    the fields of a class, and nothing is assumed of them. *)

Class HiLib := {
  (** [hi.Hash.fromMessage (prefix, ...parts)]: domain-separated hash. *)
  Hash_fromMessage : string → list Bytes → Hash;
  (** [hi.PrivateKey.fromBytes]: an [Error] when the bytes are no scalar. *)
  PrivateKey_fromBytes : Bytes → option PrivateKey;
  PrivateKey_toPublicKey : PrivateKey → PublicKey;
  PrivateKey_derive : PrivateKey → Bytes → PrivateKey;
  PublicKey_tweak : PublicKey → PublicKey → PublicKey;
  PublicKey_toBitcoinAddress : PublicKey → Address;
  Buffutils_fromUint8 : Z → Bytes;
  Buffutils_fromVarInt : Z → Bytes;
  Coin_hash : hi.Coin → Hash;
  Bounty_hash : hi.Bounty → Hash;
  Hookin_hash : hi.Hookin → Hash;
  Hookout_hash : hi.Hookout → Hash;
  Transfer_hashOf : list Hash → list Hash → option Hash → Hash;
  FullTransfer_isValid : hi.FullTransfer → bool;
  Signature_computeMu : Bytes → list PrivateKey → Signature;
  Signature_verify : Signature → Bytes → PublicKey → bool;
  (** [hi.blindMessage (secret, nonce, signer, message)] gives the
      unblinder and the blinded message. *)
  blindMessage : Bytes → PublicKey → PublicKey → Bytes → Bytes * Bytes;
  unblind : Bytes → Bytes → Signature;
  Params_blindingCoinPublicKeys : nat → PublicKey;
  Params_fundingPublicKey : PublicKey;
  Params_transactionConsolidationFee : Z;
  Params_basicTransferFee : Z;
  Params_templateTransactionWeight : Z }.

(** ** The world outside the wallet

    Every external interaction is recorded; an oracle answers from the
    history of the interactions made before it, so a server may change its
    mind between two identical requests. *)

Inductive Event :=
| EvMakeClaim (claimant : PrivateKey) (c : Claimable) (magnitudes : list nat)
| EvSubmitTransfer (t : hi.FullTransfer)
| EvLookupCoin (owner : PublicKey)
| EvLookupTransfer (h : Hash)
| EvFetchBitcoinReceives (a : Address)
| EvRandom (n : nat)
| EvDate.

Class World := {
  (** [makeClaim]: the claim round trip, given the seed its two derivation
      callbacks read; it throws when the server refuses. *)
  makeClaim : list Event → option Bytes → PrivateKey → Claimable → list nat →
              RequestError + hi.AcknowledgedClaimResponse;
  (** [submitTransfer]: the acknowledgement or a [RequestError] value. *)
  submitTransfer : list Event → hi.FullTransfer → RequestError + Signature;
  lookupCoin : list Event → PublicKey → option Hash;
  lookupTransfer : list Event → Hash → option hi.AcknowledgedTransfer;
  fetchBitcoinReceives : list Event → Address → list BitcoinReceiveInfo;
  (** [hi.random (n)]. *)
  random : list Event → nat → Bytes;
  (** [new Date ()]. *)
  now : list Event → Date }.

(** ** The database *)

Record Config := mkConfig {
  cfg_mnemonic : string;
  cfg_gapLimit : Z }.

Record Database := mkDatabase {
  bounties : gmap string Docs.Bounty;
  config : option Config;
  claims : gmap string hi.AcknowledgedClaimResponse;
  coins : gmap string Docs.Coin;
  hookins : gmap string Docs.Hookin;
  bitcoinAddresses : gmap string Docs.BitcoinAddress;
  directAddresses : gmap string Docs.DirectAddress;
  hookouts : gmap string Docs.Hookout;
  transfers : gmap string Docs.Transfer;
  (** [seed]: [None] when the wallet is locked. *)
  seed : option Bytes;
  (** The external interactions made so far, oldest first. *)
  history : list Event }.

Definition set_bounties f (d : Database) : Database :=
  mkDatabase (f (bounties d)) (config d) (claims d) (coins d) (hookins d)
    (bitcoinAddresses d) (directAddresses d) (hookouts d) (transfers d)
    (seed d) (history d).
Definition set_claims f (d : Database) : Database :=
  mkDatabase (bounties d) (config d) (f (claims d)) (coins d) (hookins d)
    (bitcoinAddresses d) (directAddresses d) (hookouts d) (transfers d)
    (seed d) (history d).
Definition set_coins f (d : Database) : Database :=
  mkDatabase (bounties d) (config d) (claims d) (f (coins d)) (hookins d)
    (bitcoinAddresses d) (directAddresses d) (hookouts d) (transfers d)
    (seed d) (history d).
Definition set_hookins f (d : Database) : Database :=
  mkDatabase (bounties d) (config d) (claims d) (coins d) (f (hookins d))
    (bitcoinAddresses d) (directAddresses d) (hookouts d) (transfers d)
    (seed d) (history d).
Definition set_bitcoinAddresses f (d : Database) : Database :=
  mkDatabase (bounties d) (config d) (claims d) (coins d) (hookins d)
    (f (bitcoinAddresses d)) (directAddresses d) (hookouts d) (transfers d)
    (seed d) (history d).
Definition set_directAddresses f (d : Database) : Database :=
  mkDatabase (bounties d) (config d) (claims d) (coins d) (hookins d)
    (bitcoinAddresses d) (f (directAddresses d)) (hookouts d) (transfers d)
    (seed d) (history d).
Definition set_hookouts f (d : Database) : Database :=
  mkDatabase (bounties d) (config d) (claims d) (coins d) (hookins d)
    (bitcoinAddresses d) (directAddresses d) (f (hookouts d)) (transfers d)
    (seed d) (history d).
Definition set_transfers f (d : Database) : Database :=
  mkDatabase (bounties d) (config d) (claims d) (coins d) (hookins d)
    (bitcoinAddresses d) (directAddresses d) (hookouts d) (f (transfers d))
    (seed d) (history d).
Definition set_history f (d : Database) : Database :=
  mkDatabase (bounties d) (config d) (claims d) (coins d) (hookins d)
    (bitcoinAddresses d) (directAddresses d) (hookouts d) (transfers d)
    (seed d) (f (history d)).

(** What a Dexie transaction rolls back to: the tables of [d0], with the
    history of [d], the world having gone on. *)
Definition rollback (d0 d : Database) : Database :=
  set_history (λ _, history d) d0.

(** ** Exceptions and the monad of the methods *)

Inductive Exn :=
| WalletLocked           (* new Error ('wallet is locked') *)
| TransferMustBePending  (* new Error ('transfer must be pending') *)
| InvalidTransfer        (* new Error ('just created transfer is not valid') *)
| MustExist              (* util.mustExist on undefined *)
| MustEqual              (* util.mustEqual on different values *)
| NotError               (* util.notError on an Error *)
| ConstraintError        (* Dexie: add on a taken key, or a unique index *)
| Thrown (e : RequestError).

Definition M (A : Type) : Type := Database → (Exn + A) * Database.

Definition ret {A} (a : A) : M A := λ d, (inr a, d).
Definition throw {A} (e : Exn) : M A := λ d, (inl e, d).
Definition bind {A B} (m : M A) (k : A → M B) : M B :=
  λ d, match m d with
       | (inr a, d') => k a d'
       | (inl e, d') => (inl e, d')
       end.

#[global] Instance M_ret : MRet M := @ret.
#[global] Instance M_bind : MBind M := λ A B k m, bind m k.

Definition get : M Database := λ d, (inr d, d).
Definition modify (f : Database → Database) : M unit := λ d, (inr tt, f d).

(** [util.mustExist], [util.mustEqual], [util.notError]. *)
Definition mustExist {A} (o : option A) : M A :=
  match o with Some a => ret a | None => throw MustExist end.
Definition mustEqual {A} `{EqDecision A} (a b : A) : M unit :=
  if decide (a = b) then ret tt else throw MustEqual.
Definition notError {A} (o : option A) : M A :=
  match o with Some a => ret a | None => throw NotError end.

(** [db.transaction ('rw', ..., body)]: all of the body or none of it. *)
Definition transaction {A} (body : M A) : M A :=
  λ d, match body d with
       | (inr a, d') => (inr a, d')
       | (inl e, d') => (inl e, rollback d d')
       end.

(** A promise nobody awaits: its rejection reaches no caller. *)
Definition unawaited {A} (m : M A) : M unit :=
  λ d, match m d with (_, d') => (inr tt, d') end.

(** One external interaction: ask the oracle with the history so far, then
    record the event. *)
Definition interact {A} (ev : Event) (answer : list Event → A) : M A :=
  λ d, (inr (answer (history d)), set_history (λ h, h ++ [ev]) d).

(** [for (const x of xs) body (x)]. *)
Fixpoint forEach {A} (xs : list A) (body : A → M unit) : M unit :=
  match xs with
  | [] => ret tt
  | x :: xs' => body x;; forEach xs' body
  end.

(** [xs.map (f)] for an effectful [f], left to right. *)
Fixpoint forM {A B} (xs : list A) (f : A → M B) : M (list B) :=
  match xs with
  | [] => ret []
  | x :: xs' => y ← f x; ys ← forM xs' f; ret (y :: ys)
  end.

(** [table.orderBy (key).toArray ()]. *)
Definition key_le {V} (key : V → Z) : relation V := λ a b, (key a ≤ key b)%Z.

#[global] Instance key_le_dec {V} (key : V → Z) a b : Decision (key_le key a b).
Proof. unfold key_le. apply _. Defined.

Definition orderBy {V} (key : V → Z) (tbl : gmap string V) : list V :=
  merge_sort (key_le key) (map_to_list tbl).*2.

(** [table.add]: a [ConstraintError] when the key is taken. *)
Definition add {V} (tbl : gmap string V) (k : string) (v : V) : M (gmap string V) :=
  match tbl !! k with
  | Some _ => throw ConstraintError
  | None => ret (<[k := v]> tbl)
  end.

(** [table.put] on a table with a unique secondary index ([&index]): a
    [ConstraintError] when another row holds the same index. *)
Definition index_taken {V} (idx : V → Z) (tbl : gmap string V) (k : string) (i : Z) : bool :=
  existsb (λ kv, negb (bool_decide (kv.1 = k)) && bool_decide (idx kv.2 = i))
          (map_to_list tbl).

Definition put_unique {V} (idx : V → Z) (tbl : gmap string V) (k : string) (v : V)
  : M (gmap string V) :=
  if index_taken idx tbl k (idx v) then throw ConstraintError
  else ret (<[k := v]> tbl).

Section Wallet.

Context {lib : HiLib} {world : World}.

(** ** Key derivation (database.ts, lines 717-786) *)

Definition seedToBitcoinAddressGenerator (seed : Bytes) : M PrivateKey :=
  let hash := Hash_fromMessage "bitcoinAddressGenerator" [seed] in
  notError (PrivateKey_fromBytes hash).

Definition seedToDirectAddressGenerator (seed : Bytes) : M PrivateKey :=
  let hash := Hash_fromMessage "directAddressGenerator" [seed] in
  notError (PrivateKey_fromBytes hash).

Definition seedToInternalAddressGenerator (seed : Bytes) : M PrivateKey :=
  let hash := Hash_fromMessage "internalAddressGenerator" [seed] in
  notError (PrivateKey_fromBytes hash).

(** [if (this.seed === undefined) throw new Error ('wallet is locked')]. *)
Definition loadedSeed : M Bytes :=
  d ← get;
  match seed d with
  | None => throw WalletLocked
  | Some s => ret s
  end.

Definition deriveBitcoinAddress (n : Bytes) : M (PrivateKey * Address) :=
  s ← loadedSeed;
  generator ← seedToBitcoinAddressGenerator s;
  let claimant := PrivateKey_derive generator n in
  let claimantPub := PrivateKey_toPublicKey claimant in
  let tweakBytes := Hash_fromMessage "tweak" [claimantPub] in
  tweak ← notError (PrivateKey_fromBytes tweakBytes);
  let tweakPubkey := PrivateKey_toPublicKey tweak in
  let pubkey := PublicKey_tweak Params_fundingPublicKey tweakPubkey in
  ret (claimant, PublicKey_toBitcoinAddress pubkey).

Definition deriveBitcoinAddressIndex (i : Z) : M (PrivateKey * Address) :=
  deriveBitcoinAddress (Buffutils_fromUint8 i).

Definition deriveClaimant (n : Bytes) (isInternal : bool) : M PrivateKey :=
  s ← loadedSeed;
  addressGenerator ←
    (if isInternal then seedToDirectAddressGenerator s
     else seedToInternalAddressGenerator s);
  ret (PrivateKey_derive addressGenerator n).

Definition deriveClaimantIndex (index : Z) (isInternal : bool) : M PrivateKey :=
  deriveClaimant (Buffutils_fromVarInt index) isInternal.

Definition deriveOwner (claimHash : Hash) (blindingNonce : PublicKey) : M PrivateKey :=
  s ← loadedSeed;
  let hash := Hash_fromMessage "HIChain.deriveOwner" [s; claimHash; blindingNonce] in
  notError (PrivateKey_fromBytes hash).

Definition deriveBlindingSecret (claimHash : Hash) (blindingNonce : PublicKey) : M Bytes :=
  s ← loadedSeed;
  let hash := Hash_fromMessage "HIChain.deriveBlindingSecret" [s; claimHash; blindingNonce] in
  ret hash.

(** ** Amounts and magnitudes *)

Fixpoint pos_magnitudes (p : positive) (n : nat) : list nat :=
  match p with
  | xH => [n]
  | xO p' => pos_magnitudes p' (S n)
  | xI p' => n :: pos_magnitudes p' (S n)
  end.

(** Modelled from the spec: [hi.amountToMagnitudes] belongs to hookedin-lib,
    which is not among the sources. Section 4.3, step 2: the canonical
    power-of-two decomposition of the amount, one magnitude per set bit
    (lowest first); nothing for an amount that is not positive. *)
Definition amountToMagnitudes (amount : Z) : list nat :=
  match amount with
  | Zpos p => pos_magnitudes p 0
  | _ => []
  end.

(** The value of a list of magnitudes, [sum += 2 ** magnitude]. *)
Definition valueOf (magnitudes : list nat) : Z :=
  foldr (λ m acc, 2 ^ Z.of_nat m + acc)%Z 0%Z magnitudes.

(** ** The claim orchestrator (database.ts, lines 168-255) *)

Definition callMakeClaim (claimant : PrivateKey) (c : Claimable) (magnitudes : list nat)
  : M hi.AcknowledgedClaimResponse :=
  d ← get;
  r ← interact (EvMakeClaim claimant c magnitudes)
               (λ h, makeClaim h (seed d) claimant c magnitudes);
  match r with
  | inl e => throw (Thrown e)
  | inr response => ret response
  end.

(** The body of the loop of [processClaimResponse]. *)
Definition claimCoin (claimHash : Hash) (coinClaim : hi.CoinClaim)
    (blindedExistenceProof : Bytes) : M unit :=
  let nonce := hi.cc_blindingNonce coinClaim in
  blindingSecret ← deriveBlindingSecret claimHash nonce;
  ownerKey ← deriveOwner claimHash nonce;
  let newOwner := PrivateKey_toPublicKey ownerKey in
  let signer := Params_blindingCoinPublicKeys (hi.cc_magnitude coinClaim) in
  let '(unblinder, blindedOwner) := blindMessage blindingSecret nonce signer newOwner in
  mustEqual blindedOwner (hi.cc_blindedOwner coinClaim);;
  let existenceProof := unblind unblinder blindedExistenceProof in
  mustEqual (Signature_verify existenceProof newOwner signer) true;;
  let coin := hi.mkCoin newOwner (hi.cc_magnitude coinClaim) existenceProof in
  modify (set_coins (insert (Coin_hash coin)
    (Docs.mkCoin (Coin_hash coin) claimHash nonce
       (hi.owner coin) (hi.magnitude coin) (hi.existenceProof coin)))).

(** [processClaimResponse]: the coins and the claim in one transaction. The
    promise of the transaction is not awaited by the method, so a failed
    check aborts the transaction and reaches nobody. IndexedDB runs
    transactions on the same tables in the order of their creation: the
    writes are in place before the next read of [coins] or [claims]. *)
Definition processClaimResponse (acknowledgedClaimResponse : hi.AcknowledgedClaimResponse)
  : M unit :=
  unawaited (transaction (
    let claimResponse := hi.acr_contents acknowledgedClaimResponse in
    let claimRequest := hi.claimRequest claimResponse in
    let blindedReceipts := hi.blindedReceipts claimResponse in
    let claimHash := hi.cr_claim claimRequest in
    mustEqual (length (hi.cr_coins claimRequest)) (length blindedReceipts);;
    forEach (zip (hi.cr_coins claimRequest) blindedReceipts)
            (λ cp, claimCoin claimHash cp.1 cp.2);;
    modify (set_claims (insert claimHash acknowledgedClaimResponse)))).

Definition Bounty_fromPOD (doc : Docs.Bounty) : hi.Bounty :=
  hi.mkBounty (Docs.b_amount doc) (Docs.b_claimant doc) (Docs.b_nonce doc).

Definition Hookin_fromPOD (doc : Docs.Hookin) : hi.Hookin :=
  hi.mkHookin (Docs.h_txid doc) (Docs.h_vout doc) (Docs.h_amount doc) (Docs.h_creditTo doc).

Definition Hookout_fromPOD (doc : Docs.Hookout) : hi.Hookout :=
  hi.mkHookout (Docs.o_amount doc) (Docs.o_bitcoinAddress doc)
               (Docs.o_immediate doc) (Docs.o_nonce doc).

Definition Coin_fromPOD (doc : Docs.Coin) : hi.Coin :=
  hi.mkCoin (Docs.c_owner doc) (Docs.c_magnitude doc) (Docs.c_existenceProof doc).

Definition claimBountyWithAddress (bountyDoc : Docs.Bounty) (address : Docs.DirectAddress)
  : M unit :=
  d ← get;
  match claims d !! Docs.b_hash bountyDoc with
  | Some claim => ret tt
  | None =>
      claimant ← deriveClaimantIndex (Docs.da_index address) (Docs.da_isInternal address);
      let bounty := Bounty_fromPOD bountyDoc in
      let magnitudes := amountToMagnitudes (hi.bounty_amount bounty) in
      claimResponse ← callMakeClaim claimant (ClaimBounty bounty) magnitudes;
      processClaimResponse claimResponse
  end.

Definition claimBounty (bountyDoc : Docs.Bounty) : M unit :=
  d ← get;
  address ← mustExist (directAddresses d !! Docs.b_claimant bountyDoc);
  claimBountyWithAddress bountyDoc address.

Definition claimHookin (hookinDoc : Docs.Hookin) : M unit :=
  d ← get;
  match claims d !! Docs.h_hash hookinDoc with
  | Some claim => ret tt
  | None =>
      bitcoinAddressDoc ← mustExist (bitcoinAddresses d !! Docs.h_bitcoinAddress hookinDoc);
      info ← deriveBitcoinAddressIndex (Docs.ba_index bitcoinAddressDoc);
      let claimant := info.1 in
      let hookin := Hookin_fromPOD hookinDoc in
      let magnitudes :=
        amountToMagnitudes (hi.hookin_amount hookin - Params_transactionConsolidationFee) in
      claimResponse ← callMakeClaim claimant (ClaimHookin hookin) magnitudes;
      processClaimResponse claimResponse
  end.

(** ** Unspent coins and the balance (database.ts, lines 268-294) *)

Definition listUnspent : M (list Docs.Coin) :=
  d ← get;
  let spentTransfers :=
    filter (λ t, kind (Docs.t_status t) ≠ "CONFLICTED") (map_to_list (transfers d)).*2 in
  let spentCoinHashes : gset string :=
    foldl (λ acc transfer, foldl (λ acc hash, acc ∪ {[hash]}) acc (Docs.t_coinHashes transfer))
          ∅ spentTransfers in
  ret (filter (λ coin, Docs.c_hash coin ∉ spentCoinHashes) (map_to_list (coins d)).*2).

Definition getBalance : M Z :=
  coins ← listUnspent;
  ret (foldl (λ sum coin, sum + 2 ^ Z.of_nat (Docs.c_magnitude coin))%Z 0%Z coins).

(** ** Address discovery (database.ts, lines 296-331, 385-409, 471-488) *)

Definition getConfig : M Config :=
  d ← get;
  mustExist (config d).

Definition addBitcoinAddress (index : Z) : M Docs.BitcoinAddress :=
  hookinInfo ← deriveBitcoinAddressIndex index;
  let claimant := PrivateKey_toPublicKey hookinInfo.1 in
  let bitcoinAddress := hookinInfo.2 in
  let bitcoinAddressDoc := Docs.mkBitcoinAddress bitcoinAddress claimant index in
  d ← get;
  tbl ← put_unique Docs.ba_index (bitcoinAddresses d) bitcoinAddress bitcoinAddressDoc;
  modify (set_bitcoinAddresses (λ _, tbl));;
  ret bitcoinAddressDoc.

(** The hookin of a receipt on an address, and its document:
    [{ hash, bitcoinAddress, created, ...hookin.toPOD () }]. *)
Definition hookinOf (bitcoinAddressDoc : Docs.BitcoinAddress) (receive : BitcoinReceiveInfo)
  : hi.Hookin :=
  let creditToPub := Docs.ba_claimant bitcoinAddressDoc in
  hi.mkHookin (ri_txid receive) (ri_vout receive) (ri_amount receive) creditToPub.

Definition hookinDocOf (bitcoinAddressDoc : Docs.BitcoinAddress)
    (receive : BitcoinReceiveInfo) (created : Date) : Docs.Hookin :=
  let hookin := hookinOf bitcoinAddressDoc receive in
  Docs.mkHookin (Hookin_hash hookin) (Docs.ba_address bitcoinAddressDoc) created
    (hi.hookin_txid hookin) (hi.hookin_vout hookin) (hi.hookin_amount hookin)
    (hi.hookin_creditTo hookin).

Definition addHookins (bitcoinAddressDoc : Docs.BitcoinAddress)
    (receives : list BitcoinReceiveInfo) : M unit :=
  forEach receives (λ receive,
    created ← interact EvDate now;
    let hookinDoc := hookinDocOf bitcoinAddressDoc receive created in
    modify (set_hookins (insert (Docs.h_hash hookinDoc) hookinDoc));;
    claimHookin hookinDoc).

Definition callFetchBitcoinReceives (a : Address) : M (list BitcoinReceiveInfo) :=
  interact (EvFetchBitcoinReceives a) (λ h, fetchBitcoinReceives h a).

(** Returns whether the address is used. *)
Definition checkBitcoinAddress (bitcoinAddressDoc : Docs.BitcoinAddress) : M bool :=
  receives ← callFetchBitcoinReceives (Docs.ba_address bitcoinAddressDoc);
  addHookins bitcoinAddressDoc receives;;
  ret (bool_decide (0 < length receives)).

(** The first loop of [syncBitcoinAddresses], over the known addresses. *)
Fixpoint recheck (addresses : list Docs.BitcoinAddress) (gapCount : Z) : M Z :=
  match addresses with
  | [] => ret gapCount
  | address :: rest =>
      used ← checkBitcoinAddress address;
      recheck rest (if (used : bool) then 0%Z else (gapCount + 1)%Z)
  end.

(** The second loop, [for (checkIndex = ...; gapCount < gapLimit; checkIndex++)].
    Nothing bounds it when every probed address has receipts, hence the
    fuel: [None] is a loop that has not finished within it. *)
Fixpoint probe (fuel : nat) (gapLimit checkIndex lastAddressIndex gapCount : Z)
  : M (option unit) :=
  if decide (gapCount < gapLimit)%Z then
    match fuel with
    | O => ret None
    | S fuel' =>
        info ← deriveBitcoinAddressIndex checkIndex;
        let bitcoinAddress := info.2 in
        receives ← callFetchBitcoinReceives bitcoinAddress;
        if decide (0 < length receives) then
          (* addIndex from checkIndex - 1 down to lastAddressIndex + 1 *)
          forEach (reverse (seqZ (lastAddressIndex + 1) (checkIndex - 1 - lastAddressIndex)))
                  (λ addIndex, addBitcoinAddress addIndex;; ret tt);;
          bitcoinAddressDoc ← addBitcoinAddress checkIndex;
          addHookins bitcoinAddressDoc receives;;
          probe fuel' gapLimit (checkIndex + 1)%Z checkIndex 0%Z
        else
          probe fuel' gapLimit (checkIndex + 1)%Z lastAddressIndex (gapCount + 1)%Z
    end
  else ret (Some tt).

Definition syncBitcoinAddresses (fuel : nat) : M (option unit) :=
  cfg ← getConfig;
  let gapLimit := cfg_gapLimit cfg in
  d ← get;
  let addresses := orderBy Docs.ba_index (bitcoinAddresses d) in
  gapCount ← recheck addresses 0%Z;
  let lastAddressIndex :=
    match last addresses with
    | Some a => Docs.ba_index a
    | None => (-1)%Z
    end in
  probe fuel gapLimit (lastAddressIndex + 1)%Z lastAddressIndex gapCount.

(** ** Transfers of hookedin-lib *)

Definition hash_le {A} (hash : A → Hash) : relation A :=
  λ a b, String.leb (hash a) (hash b) = true.

#[global] Instance hash_le_dec {A} (hash : A → Hash) a b : Decision (hash_le hash a b).
Proof. unfold hash_le. apply _. Defined.

(** Modelled from the spec: [hi.Transfer.sort] belongs to hookedin-lib, which
    is not among the sources. Section 4.6, step 5: inputs and outputs are
    ordered by a fixed deterministic comparison of their hashes; here the
    bytewise order of the hash buffers. *)
Definition Transfer_sort {A} (hash : A → Hash) (xs : list A) : list A :=
  merge_sort (hash_le hash) xs.

(** Modelled from the spec: [FullTransfer.hash ()] belongs to hookedin-lib.
    Section 4.6, step 6: the commitment hash over the input hashes, the
    output hashes and the optional hookout hash, in their stored order. *)
Definition FullTransfer_hash (t : hi.FullTransfer) : Hash :=
  Transfer_hashOf (Coin_hash <$> hi.ft_inputs t) (Bounty_hash <$> hi.ft_bounties t)
                  (Hookout_hash <$> hi.ft_hookout t).

(** Modelled from the spec: [Transfer.hash ()] of hookedin-lib, the same
    commitment over a transfer whose outputs are held by hash. *)
Definition Transfer_hash (t : hi.Transfer) : Hash :=
  Transfer_hashOf (Coin_hash <$> hi.tr_inputs t) (hi.tr_bountyHashes t) (hi.tr_hookoutHash t).

(** Modelled from the spec: [FullTransfer.prune ()] of hookedin-lib, which
    replaces each output by its hash. *)
Definition FullTransfer_prune (t : hi.FullTransfer) : hi.Transfer :=
  hi.mkTransfer (hi.ft_inputs t) (Bounty_hash <$> hi.ft_bounties t)
                (Hookout_hash <$> hi.ft_hookout t) (hi.ft_authorization t).

(** ** The coin selector *)

Definition coinValue (c : Docs.Coin) : Z := (2 ^ Z.of_nat (Docs.c_magnitude c))%Z.

Definition sumCoins (cs : list Docs.Coin) : Z :=
  foldr (λ c acc, coinValue c + acc)%Z 0%Z cs.

Definition magnitude_ge : relation Docs.Coin :=
  λ a b, Docs.c_magnitude b ≤ Docs.c_magnitude a.

#[global] Instance magnitude_ge_dec a b : Decision (magnitude_ge a b).
Proof. unfold magnitude_ge. apply _. Defined.

(** One pass over the coins in descending magnitude: a coin no larger than
    the remaining need is taken, a larger one is passed over. The result is
    the coins taken, the coins passed over and the need that remains. *)
Fixpoint greedy (sorted : list Docs.Coin) (need : Z)
  : list Docs.Coin * list Docs.Coin * Z :=
  match sorted with
  | [] => ([], [], need)
  | c :: rest =>
      if decide (coinValue c ≤ need)%Z then
        let '(taken, passed, remaining) := greedy rest (need - coinValue c)%Z in
        (c :: taken, passed, remaining)
      else
        let '(taken, passed, remaining) := greedy rest need in
        (taken, c :: passed, remaining)
  end.

(** Modelled from the spec: [coinselection.findAtLeast] lives in
    [src/wallet/coin-selection.ts], which is not among the sources.
    Section 4.4: sort by descending magnitude; greedily take the largest
    coin no larger than the remaining need, repeatedly; when no such coin
    is left and a need remains, fall back to the smallest available coin,
    which completes the target; return the selection with
    [excess = sum (selected) - target], or nothing ([InsufficientFunds])
    when no coin is left to complete the target. *)
Definition findAtLeast (coins : list Docs.Coin) (target : Z)
  : option (list Docs.Coin * Z) :=
  let sorted := merge_sort magnitude_ge coins in
  match greedy sorted target with
  | (taken, passed, remaining) =>
      if decide (remaining ≤ 0)%Z then Some (taken, (sumCoins taken - target)%Z)
      else
        match last passed with
        | Some c => let found := taken ++ [c] in Some (found, (sumCoins found - target)%Z)
        | None => None
        end
  end.

(** ** The transfer lifecycle (database.ts, lines 149-166, 440-453, 495-715) *)

Definition withStatus (transferDoc : Docs.Transfer) (status : TransferStatus) : Docs.Transfer :=
  Docs.mkTransfer (Docs.t_hash transferDoc) (Docs.t_created transferDoc) status
    (Docs.t_coinHashes transferDoc) (Docs.t_inputs transferDoc)
    (Docs.t_bountyHashes transferDoc) (Docs.t_hookoutHash transferDoc)
    (Docs.t_authorization transferDoc).

(** [this.transfers.put (transferDoc)]. *)
Definition putTransfer (transferDoc : Docs.Transfer) : M unit :=
  modify (set_transfers (insert (Docs.t_hash transferDoc) transferDoc)).

Definition discardTransfer (transferDoc : Docs.Transfer) : M unit :=
  if decide (kind (Docs.t_status transferDoc) ≠ "PENDING") then throw TransferMustBePending
  else putTransfer (withStatus transferDoc CONFLICTED).

Definition callLookupCoin (owner : PublicKey) : M (option Hash) :=
  interact (EvLookupCoin owner) (λ h, lookupCoin h owner).

Definition callLookupTransfer (transferHash : Hash) : M (option hi.AcknowledgedTransfer) :=
  interact (EvLookupTransfer transferHash) (λ h, lookupTransfer h transferHash).

(** The document [finalizeTransfer] stores for a conflicting transfer. *)
Definition conflictTransferDoc (conflictTransfer : hi.AcknowledgedTransfer) (created : Date)
  : Docs.Transfer :=
  let contents := hi.at_contents conflictTransfer in
  Docs.mkTransfer (Transfer_hash contents) created
    (ACKNOWLEDGED (hi.at_acknowledgement conflictTransfer))
    (Coin_hash <$> hi.tr_inputs contents)
    (hi.tr_inputs contents) (hi.tr_bountyHashes contents) (hi.tr_hookoutHash contents)
    (hi.tr_authorization contents).

(** The body of the loop of [finalizeTransfer] over the inputs of a
    transfer the server found spent. *)
Definition reconcileInput (coin : hi.Coin) : M unit :=
  transferHash ← callLookupCoin (hi.owner coin);
  match transferHash with
  | None => ret tt (* hasn't been spent *)
  | Some transferHash =>
      conflictTransfer ← callLookupTransfer transferHash;
      match conflictTransfer with
      | None => ret tt
      | Some conflictTransfer =>
          created ← interact EvDate now;
          putTransfer (conflictTransferDoc conflictTransfer created)
      end
  end.

(** What [finalizeTransfer] does in the background: claim the bounties of
    the transfer whose address is known. *)
Definition claimOwnBounties (bountyDocs : list Docs.Bounty) : M unit :=
  forEach bountyDocs (λ bounty,
    d ← get;
    match directAddresses d !! Docs.b_claimant bounty with
    | None => ret tt
    | Some address => claimBountyWithAddress bounty address
    end).

(** [finalizeTransfer]. The background claim of the own bounties yields at
    its first read and works on other tables than the status write, after
    which it is sequenced here; what it throws is caught and logged. *)
Definition finalizeTransfer (transferDoc : Docs.Transfer) : M unit :=
  if decide (kind (Docs.t_status transferDoc) ≠ "PENDING") then throw TransferMustBePending
  else
    let inputs := Docs.t_inputs transferDoc in
    bountyDocs ← forM (Docs.t_bountyHashes transferDoc)
                      (λ bountyHash, d ← get; mustExist (bounties d !! bountyHash));
    hookout ← match Docs.t_hookoutHash transferDoc with
              | Some hookoutHash =>
                  d ← get;
                  h ← mustExist (hookouts d !! hookoutHash);
                  ret (Some (Hookout_fromPOD h))
              | None => ret None
              end;
    let authorization := Docs.t_authorization transferDoc in
    let fullTransfer :=
      hi.mkFullTransfer inputs (Bounty_fromPOD <$> bountyDocs) hookout authorization in
    acknowledgement ← interact (EvSubmitTransfer fullTransfer)
                               (λ h, submitTransfer h fullTransfer);
    match acknowledgement with
    | inl requestError =>
        (if decide (re_message requestError = "INPUT_SPENT") then
           forEach (Docs.t_inputs transferDoc) reconcileInput;;
           putTransfer (withStatus transferDoc CONFLICTED)
         else ret tt);;
        throw (Thrown requestError)
    | inr acknowledgement =>
        putTransfer (withStatus transferDoc (ACKNOWLEDGED acknowledgement));;
        unawaited (claimOwnBounties bountyDocs)
    end.

Definition addDirectAddress (index : Z) (isInternal : bool)
  : M (PublicKey * Docs.DirectAddress) :=
  claimant ← deriveClaimantIndex index isInternal;
  let claimantPub := PrivateKey_toPublicKey claimant in
  let directAddressDoc := Docs.mkDirectAddress claimantPub index isInternal in
  d ← get;
  tbl ← put_unique Docs.da_index (directAddresses d) claimantPub directAddressDoc;
  modify (set_directAddresses (λ _, tbl));;
  ret (claimantPub, directAddressDoc).

Definition callRandom (n : nat) : M Bytes :=
  interact (EvRandom n) (λ h, random h n).

Definition addBounty (bountyDoc : Docs.Bounty) : M unit :=
  d ← get;
  tbl ← add (bounties d) (Docs.b_hash bountyDoc) bountyDoc;
  modify (set_bounties (λ _, tbl)).

Definition Bounty_toDoc (bounty : hi.Bounty) : Docs.Bounty :=
  Docs.mkBounty (Bounty_hash bounty) (hi.bounty_amount bounty) (hi.bounty_claimant bounty)
                (hi.bounty_nonce bounty).

(** Must be called inside a transaction (directAddresses, bounties). *)
Definition newInternalBounty (amount : Z) : M (hi.Bounty * Docs.Bounty) :=
  d ← get;
  let maxIndex := last (orderBy Docs.da_index (directAddresses d)) in
  let index := match maxIndex with
               | None => 0%Z
               | Some a => (Docs.da_index a + 1)%Z
               end in
  ca ← addDirectAddress index true;
  let claimant := ca.1 in
  nonce ← callRandom 32;
  let bounty := hi.mkBounty amount claimant nonce in
  let doc := Bounty_toDoc bounty in
  addBounty doc;;
  ret (bounty, doc).

(** [owners.push (this.deriveOwner (claimHash, blindingNonce))] for each
    input. *)
Definition ownersOf (inputs : list hi.Coin) : M (list PrivateKey) :=
  forM inputs (λ coin,
    d ← get;
    coinDoc ← mustExist (coins d !! Coin_hash coin);
    deriveOwner (Docs.c_claimHash coinDoc) (Docs.c_blindingNonce coinDoc)).

(** The document of a transfer: [{ hash, status, created, coinHashes,
    ...transfer.prune ().toPOD () }]. *)
Definition transferDocOf (hash : Hash) (created : Date) (transfer : hi.FullTransfer)
  : Docs.Transfer :=
  let pruned := FullTransfer_prune transfer in
  Docs.mkTransfer hash created PENDING (Coin_hash <$> hi.ft_inputs transfer)
    (hi.tr_inputs pruned) (hi.tr_bountyHashes pruned) (hi.tr_hookoutHash pruned)
    (hi.tr_authorization pruned).

Definition addTransfer (transferDoc : Docs.Transfer) : M unit :=
  d ← get;
  tbl ← add (transfers d) (Docs.t_hash transferDoc) transferDoc;
  modify (set_transfers (λ _, tbl)).

(** The transaction of [sendDirect]: [None] is ['NOT_ENOUGH_FUNDS']. *)
Definition buildDirect (to : PublicKey) (amount : Z)
  : M (option (Docs.Bounty * Docs.Transfer * Hash)) :=
  let totalToSend := (amount + Params_basicTransferFee)%Z in
  transaction (
    unspent ← listUnspent;
    match findAtLeast unspent totalToSend with
    | None => ret None
    | Some coinsToUse =>
        nonce ← callRandom 32;
        let bounty := hi.mkBounty amount to nonce in
        let bountyDoc := Bounty_toDoc bounty in
        addBounty bountyDoc;;
        bounties ← (if decide (0 < coinsToUse.2)%Z then
                      change ← newInternalBounty coinsToUse.2;
                      ret [bounty; change.1]
                    else ret [bounty]);
        let bounties := Transfer_sort Bounty_hash bounties in
        let inputs := Transfer_sort Coin_hash (Coin_fromPOD <$> coinsToUse.1) in
        let transferHash :=
          Transfer_hashOf (Coin_hash <$> inputs) (Bounty_hash <$> bounties) None in
        owners ← ownersOf inputs;
        let sig := Signature_computeMu transferHash owners in
        let transfer := hi.mkFullTransfer inputs bounties None sig in
        created ← interact EvDate now;
        let transferDoc := transferDocOf (FullTransfer_hash transfer) created transfer in
        addTransfer transferDoc;;
        ret (Some (bountyDoc, transferDoc, transferHash))
    end).

Definition sendDirect (to : PublicKey) (amount : Z) : M (option Hash) :=
  mustEqual (bool_decide (0 < amount)%Z) true;;
  res ← buildDirect to amount;
  match res with
  | None => ret None
  | Some r => finalizeTransfer r.1.2;; ret (Some r.2)
  end.

(** The transaction of [sendToBitcoinAddress]. *)
Definition buildHookout (address : Address) (amount feeRate : Z)
  : M (option (Docs.Transfer * Hash)) :=
  let totalToSend := (amount + feeRate * Params_templateTransactionWeight)%Z in
  transaction (
    unspent ← listUnspent;
    match findAtLeast unspent totalToSend with
    | None => ret None
    | Some coinsToUse =>
        nonce ← callRandom 32;
        let hookout := hi.mkHookout amount address true nonce in
        let hookoutDoc :=
          Docs.mkHookout (Hookout_hash hookout) (hi.hookout_amount hookout)
            (hi.hookout_bitcoinAddress hookout) (hi.hookout_immediate hookout)
            (hi.hookout_nonce hookout) in
        d ← get;
        tbl ← add (hookouts d) (Docs.o_hash hookoutDoc) hookoutDoc;
        modify (set_hookouts (λ _, tbl));;
        bounties ← (if decide (0 < coinsToUse.2)%Z then
                      change ← newInternalBounty coinsToUse.2;
                      ret [change.1]
                    else ret []);
        let inputs := Transfer_sort Coin_hash (Coin_fromPOD <$> coinsToUse.1) in
        let transferHash :=
          Transfer_hashOf (Coin_hash <$> inputs) (Bounty_hash <$> bounties)
                          (Some (Hookout_hash hookout)) in
        owners ← ownersOf inputs;
        let auth := Signature_computeMu transferHash owners in
        let transfer := hi.mkFullTransfer inputs bounties (Some hookout) auth in
        (if FullTransfer_isValid transfer then ret tt else throw InvalidTransfer);;
        created ← interact EvDate now;
        let transferDoc := transferDocOf transferHash created transfer in
        addTransfer transferDoc;;
        ret (Some (transferDoc, transferHash))
    end).

Definition sendToBitcoinAddress (address : Address) (amount feeRate : Z) : M (option Hash) :=
  res ← buildHookout address amount feeRate;
  match res with
  | None => ret None
  | Some r => finalizeTransfer r.1;; ret (Some r.2)
  end.

End Wallet.

(** The loops are unfolded by their equations, one step at a time. *)
Arguments probe : simpl never.

(** ** The rest of the class (database.ts, lines 95-146, 257-266, 333-383,
    411-438, 455-469) *)

Definition set_config f (d : Database) : Database :=
  mkDatabase (bounties d) (f (config d)) (claims d) (coins d) (hookins d)
    (bitcoinAddresses d) (directAddresses d) (hookouts d) (transfers d)
    (seed d) (history d).
Definition set_seed f (d : Database) : Database :=
  mkDatabase (bounties d) (config d) (claims d) (coins d) (hookins d)
    (bitcoinAddresses d) (directAddresses d) (hookouts d) (transfers d)
    (f (seed d)) (history d).

(** [db.tables]: the nine tables of the schema, and the tables that
    dexie-observable keeps beside them, whose names start with an
    underscore. *)
Definition tables : list string :=
  ["bitcoinAddresses"; "bounties"; "config"; "coins"; "claims"; "directAddresses";
   "hookins"; "hookouts"; "transfers";
   "_changes"; "_intercomm"; "_syncNodes"; "_uncommittedChanges"].

(** [table.clear ()] on the table of that name; the tables of
    dexie-observable are no part of the database record. *)
Definition clear (name : string) : M unit :=
  modify (
    if decide (name = "bitcoinAddresses") then set_bitcoinAddresses (λ _, ∅)
    else if decide (name = "bounties") then set_bounties (λ _, ∅)
    else if decide (name = "config") then set_config (λ _, None)
    else if decide (name = "coins") then set_coins (λ _, ∅)
    else if decide (name = "claims") then set_claims (λ _, ∅)
    else if decide (name = "directAddresses") then set_directAddresses (λ _, ∅)
    else if decide (name = "hookins") then set_hookins (λ _, ∅)
    else if decide (name = "hookouts") then set_hookouts (λ _, ∅)
    else if decide (name = "transfers") then set_transfers (λ _, ∅)
    else id).

Definition reset : M unit :=
  forEach tables (λ name,
    if decide (name = "config" ∨ String.substring 0 1 name = "_") then ret tt
    else clear name).

Section Methods.

Context {lib : HiLib} {world : World}.

(** [syncHookins]: claim the hookins no claim names. *)
Definition syncHookins : M unit :=
  d ← get;
  let allClaims := (map_to_list (claims d)).*2 in
  let allClaimed : gset string :=
    foldl (λ acc claim, acc ∪ {[hi.cr_claim (hi.claimRequest (hi.acr_contents claim))]})
          ∅ allClaims in
  let unclaimedHookins :=
    filter (λ hookin, Docs.h_hash hookin ∉ allClaimed) (map_to_list (hookins d)).*2 in
  forEach unclaimedHookins claimHookin.

(** [sync], with the fuel of the scan. *)
Definition sync (fuel : nat) : M (option unit) :=
  scanned ← syncBitcoinAddresses fuel;
  match scanned with
  | None => ret None
  | Some _ => syncHookins;; ret (Some tt)
  end.

(** [hookins.where ({ bitcoinAddress }).count ()]. *)
Definition hookinCount (d : Database) (address : Address) : nat :=
  length (filter (λ hookin, Docs.h_bitcoinAddress hookin = address)
                 (map_to_list (hookins d)).*2).

Definition getUnusedBitcoinAddress : M Docs.BitcoinAddress :=
  transaction (
    d ← get;
    let bitcoinAddress := head (reverse (orderBy Docs.ba_index (bitcoinAddresses d))) in
    match bitcoinAddress with
    | Some bitcoinAddress =>
        if decide (0 < hookinCount d (Docs.ba_address bitcoinAddress)) then
          addBitcoinAddress (Docs.ba_index bitcoinAddress + 1)
        else ret bitcoinAddress
    | None => addBitcoinAddress 0
    end).

Definition newBitcoinAddress : M Docs.BitcoinAddress :=
  transaction (
    d ← get;
    let maxIndex := last (orderBy Docs.ba_index (bitcoinAddresses d)) in
    let index := match maxIndex with
                 | None => 0%Z
                 | Some a => (Docs.ba_index a + 1)%Z
                 end in
    addBitcoinAddress index).

(** [bounties.where ({ claimant }).count ()]. *)
Definition bountyCount (d : Database) (claimant : PublicKey) : nat :=
  length (filter (λ bounty, Docs.b_claimant bounty = claimant)
                 (map_to_list (bounties d)).*2).

Definition getUnusedDirectAddress : M Docs.DirectAddress :=
  transaction (
    d ← get;
    let directAddress := head (reverse (orderBy Docs.da_index (directAddresses d))) in
    match directAddress with
    | Some directAddress =>
        if decide (0 < bountyCount d (Docs.da_claimant directAddress)) then
          ca ← addDirectAddress (Docs.da_index directAddress + 1) false;
          ret ca.2
        else ret directAddress
    | None =>
        ca ← addDirectAddress 0 false;
        ret ca.2
    end).

Definition newDirectAddress : M (PublicKey * Docs.DirectAddress) :=
  transaction (
    d ← get;
    let maxIndex := last (orderBy Docs.da_index (directAddresses d)) in
    let index := match maxIndex with
                 | None => 0%Z
                 | Some a => (Docs.da_index a + 1)%Z
                 end in
    addDirectAddress index false).

End Methods.

(** ** Creating and unlocking a wallet (database.ts, lines 95-146)

    The seed comes from [../bip39], whose two functions are parameters. The
    row of the [config] table is written here in full; the record [Config]
    of the database keeps the two fields the other methods read, so
    [unlock], which compares a third one, is given the row. *)

Class Bip39 := {
  validateMnemonic : string → bool;
  mnemonicToSeed : string → string → Bytes }.

Record ConfigDoc := mkConfigDoc {
  cd_bitcoinAddressGenerator : PublicKey;
  cd_directAddressGenerator : PublicKey;
  cd_internalAddressGenerator : PublicKey;
  cd_mnemonic : string;
  cd_baseAPI : string;
  cd_gapLimit : Z }.

Definition configOf (configDoc : ConfigDoc) : Config :=
  mkConfig (cd_mnemonic configDoc) (cd_gapLimit configDoc).

Section Restore.

Context {lib : HiLib} {bip39 : Bip39}.

(** [Database.restore (name, mnemonic, password)], run on the database
    stored under the name: the object is new, so it holds no seed. The
    result is the error it returns, or the row it has added. *)
Definition restore (mnemonic password : string) : M (string + ConfigDoc) :=
  modify (set_seed (λ _, None));;
  let isCorrect := validateMnemonic mnemonic in
  if negb isCorrect then ret (inl "INVALID_MNEMONIC")
  else
    let seed := mnemonicToSeed mnemonic password in
    bitcoinAddressGenerator ← seedToBitcoinAddressGenerator seed;
    directAddressGenerator ← seedToDirectAddressGenerator seed;
    internalAddressGenerator ← seedToInternalAddressGenerator seed;
    let configDoc :=
      mkConfigDoc (PrivateKey_toPublicKey bitcoinAddressGenerator)
                  (PrivateKey_toPublicKey directAddressGenerator)
                  (PrivateKey_toPublicKey internalAddressGenerator)
                  mnemonic "https://www.hookedin.com/api/dev" 10 in
    d ← get;
    match config d with
    | Some _ => ret (inl "WALLET_ALREADY_INITIALIZED")
    | None =>
        modify (set_config (λ _, Some (configOf configDoc)));;
        modify (set_seed (λ _, Some seed));;
        ret (inr configDoc)
    end.

(** [unlock (password)]: the error it returns, if any. *)
Definition unlock (row : option ConfigDoc) (password : string) : M (option string) :=
  config ← mustExist row;
  let seed := mnemonicToSeed (cd_mnemonic config) password in
  addressGenerator ← seedToBitcoinAddressGenerator seed;
  if decide (PrivateKey_toPublicKey addressGenerator ≠ cd_bitcoinAddressGenerator config)
  then ret (Some "INVALID_PASSWORD")
  else modify (set_seed (λ _, Some seed));; ret None.

End Restore.

(** ** Checking a direct address (database.ts, lines 455-469)

    [lookupBountiesByClaimant] is one more request to the server; it
    answers from the history like the others, and the bounties it reports
    come parsed. *)

Class BountyLookup := {
  lookupBountiesByClaimant : list Event → PublicKey → list hi.Bounty }.

Section CheckDirectAddress.

Context {lib : HiLib} {world : World} {lookup : BountyLookup}.

Definition checkDirectAddress (directAddressDoc : Docs.DirectAddress) : M unit :=
  d ← get;
  let bounties := lookupBountiesByClaimant (history d) (Docs.da_claimant directAddressDoc) in
  forEach bounties (λ bounty,
    let bountyDoc := Bounty_toDoc bounty in
    addBounty bountyDoc;;
    claimBountyWithAddress bountyDoc directAddressDoc).

End CheckDirectAddress.

(** ** A small world to run the wallet in

    A transparent stand-in for hookedin-lib, in which a hash is the text of
    what it commits to, and an honest server; the examples below run the
    methods in it. *)

Module Toy.

Definition text (z : Z) : string := pretty z.

Definition lib : HiLib := {|
  Hash_fromMessage prefix parts := String.concat "/" parts +:+ "#" +:+ prefix;
  PrivateKey_fromBytes b := Some b;
  PrivateKey_toPublicKey k := "pub:" +:+ k;
  PrivateKey_derive k n := k +:+ "/" +:+ n;
  PublicKey_tweak p q := p +:+ "+" +:+ q;
  PublicKey_toBitcoinAddress p := "addr:" +:+ p;
  Buffutils_fromUint8 i := text i;
  Buffutils_fromVarInt i := text i;
  Coin_hash c := "coin:" +:+ hi.owner c;
  Bounty_hash b :=
    "bounty:" +:+ text (hi.bounty_amount b) +:+ ":" +:+ hi.bounty_claimant b
              +:+ ":" +:+ hi.bounty_nonce b;
  Hookin_hash h := "hookin:" +:+ hi.hookin_txid h +:+ ":" +:+ text (hi.hookin_vout h);
  Hookout_hash o :=
    "hookout:" +:+ text (hi.hookout_amount o) +:+ ":" +:+ hi.hookout_bitcoinAddress o
               +:+ ":" +:+ hi.hookout_nonce o;
  Transfer_hashOf ins outs hookout :=
    "transfer:" +:+ String.concat "," ins +:+ ";" +:+ String.concat "," outs
                +:+ ";" +:+ default "" hookout;
  FullTransfer_isValid _ := true;
  Signature_computeMu message keys := "mu:" +:+ message;
  Signature_verify proof message signer :=
    bool_decide (proof = "signed:" +:+ message);
  blindMessage secret nonce signer message := (secret, "blinded:" +:+ message);
  unblind unblinder blinded := blinded;
  Params_blindingCoinPublicKeys n := "signer:" +:+ text (Z.of_nat n);
  Params_fundingPublicKey := "funding";
  Params_transactionConsolidationFee := 1;
  Params_basicTransferFee := 1;
  Params_templateTransactionWeight := 2 |}.

(** The coin request an honest [makeClaim] builds for one magnitude, and the
    receipt an honest server gives for it. *)
Definition coinClaimFor (seed claimHash : string) (m : nat) : hi.CoinClaim :=
  let nonce := "nonce:" +:+ text (Z.of_nat m) in
  let ownerKey :=
    @Hash_fromMessage lib "HIChain.deriveOwner" [seed; claimHash; nonce] in
  hi.mkCoinClaim nonce ("blinded:" +:+ @PrivateKey_toPublicKey lib ownerKey) m.

Definition receiptFor (seed claimHash : string) (m : nat) : string :=
  let nonce := "nonce:" +:+ text (Z.of_nat m) in
  let ownerKey :=
    @Hash_fromMessage lib "HIChain.deriveOwner" [seed; claimHash; nonce] in
  "signed:" +:+ @PrivateKey_toPublicKey lib ownerKey.

Definition claimableHash (c : Claimable) : string :=
  match c with
  | ClaimBounty b => @Bounty_hash lib b
  | ClaimHookin h => @Hookin_hash lib h
  end.

(** The world: the server answers every claim honestly; [receives] are the
    bitcoin receipts per address, [submit] the answer to a submitted
    transfer, [spentBy] and [settled] what the server knows of spent coins
    and settled transfers. *)
Definition world (receives : Address → list BitcoinReceiveInfo)
    (submit : hi.FullTransfer → RequestError + Signature)
    (spentBy : PublicKey → option Hash)
    (settled : Hash → option hi.AcknowledgedTransfer) : World := {|
  makeClaim history seed claimant c magnitudes :=
    let s := default "" seed in
    let claimHash := claimableHash c in
    inr (hi.mkAcknowledgedClaimResponse
           (hi.mkClaimResponse
              (hi.mkClaimRequest claimHash (coinClaimFor s claimHash <$> magnitudes)
                                 ("auth:" +:+ claimant))
              (receiptFor s claimHash <$> magnitudes))
           "ack");
  submitTransfer history t := submit t;
  lookupCoin history owner := spentBy owner;
  lookupTransfer history h := settled h;
  fetchBitcoinReceives history a := receives a;
  random history n := "r" +:+ text (Z.of_nat (length history));
  now history := length history |}.

(** A coin of the given magnitude, named by its hash. *)
Definition coin (name : string) (m : nat) : Docs.Coin :=
  Docs.mkCoin name "" "" name m "".

Definition emptyDatabase (seed : option Bytes) (gapLimit : Z) : Database :=
  mkDatabase ∅ (Some (mkConfig "mnemonic" gapLimit)) ∅ ∅ ∅ ∅ ∅ ∅ ∅ seed [].

End Toy.

(** ** Vocabulary of the statements *)

(** What a claim round trip leaves: one more event, and the coins and the
    claim of the response unless its transaction aborted. *)
Definition claimed (d : Database) (ev : Event) (r : hi.AcknowledgedClaimResponse)
    (d' : Database) : Prop :=
  let d1 := set_history (λ h, h ++ [ev]) d in
  d' = d1
  ∨ ∃ co, d' = set_claims (insert (hi.cr_claim (hi.claimRequest (hi.acr_contents r))) r)
                          (set_coins (λ _, co) d1).

(** The commitment round trip of a stored transfer: the hash recomputed from
    the stored coin hashes, bounty hashes and hookout hash is the stored
    hash. *)
Definition commits {lib : HiLib} (transferDoc : Docs.Transfer) : Prop :=
  Transfer_hashOf (Docs.t_coinHashes transferDoc) (Docs.t_bountyHashes transferDoc)
                  (Docs.t_hookoutHash transferDoc)
  = Docs.t_hash transferDoc.

(** The full transfer [finalizeTransfer] assembles from the stored bounties
    and hookout of a transfer, when they are all there. *)
Definition fullTransferOf (d : Database) (transferDoc : Docs.Transfer)
  : option hi.FullTransfer :=
  bountyDocs ← mapM (λ bountyHash, bounties d !! bountyHash)
                    (Docs.t_bountyHashes transferDoc);
  hookout ← match Docs.t_hookoutHash transferDoc with
            | Some hookoutHash => h ← hookouts d !! hookoutHash; Some (Some (Hookout_fromPOD h))
            | None => Some None
            end;
  Some (hi.mkFullTransfer (Docs.t_inputs transferDoc) (Bounty_fromPOD <$> bountyDocs)
                          hookout (Docs.t_authorization transferDoc)).

(** A row that [finalizeTransfer] stored for a transfer the server returned. *)
Definition conflictRow {lib : HiLib} {world : World} (row : Docs.Transfer) : Prop :=
  ∃ history transferHash conflictTransfer created,
    lookupTransfer history transferHash = Some conflictTransfer
    ∧ row = conflictTransferDoc conflictTransfer created.

(** What the reconciliation of inputs does to the database: it records
    events and puts conflict rows, each under its own hash. *)
Definition reconciled {lib : HiLib} {world : World} (d d' : Database) : Prop :=
  history d `prefix_of` history d'
  ∧ (∃ tbl h', d' = set_transfers (λ _, tbl) (set_history (λ _, h') d))
  ∧ ∀ k, transfers d' !! k = transfers d !! k
         ∨ ∃ row, transfers d' !! k = Some row ∧ Docs.t_hash row = k ∧ conflictRow row.


(** The addresses probed, in order: the [fetchBitcoinReceives] events of a
    history. *)
Definition fetches (h : list Event) : list Address :=
  omap (λ ev, match ev with EvFetchBitcoinReceives a => Some a | _ => None end) h.

(** [deriveBitcoinAddressIndex] as a function of the seed. *)
Definition bitcoinAddressAt {lib : HiLib} (s : Bytes) (i : Z) : Exn + (PrivateKey * Address) :=
  match PrivateKey_fromBytes (Hash_fromMessage "bitcoinAddressGenerator" [s]) with
  | None => inl NotError
  | Some generator =>
      let claimant := PrivateKey_derive generator (Buffutils_fromUint8 i) in
      let claimantPub := PrivateKey_toPublicKey claimant in
      match PrivateKey_fromBytes (Hash_fromMessage "tweak" [claimantPub]) with
      | None => inl NotError
      | Some tweak =>
          inr (claimant,
               PublicKey_toBitcoinAddress
                 (PublicKey_tweak Params_fundingPublicKey (PrivateKey_toPublicKey tweak)))
      end
  end.

(** What claiming the hookins of an address may change: the tables
    [claims], [coins] and [hookins], and the history, by events that are no
    probes. *)
Definition hookinsClaimed (d d' : Database) : Prop :=
  ∃ cl co hk evs,
    d' = set_claims (λ _, cl) (set_coins (λ _, co) (set_hookins (λ _, hk)
           (set_history (λ h, h ++ evs) d)))
    ∧ fetches evs = [].

(** What a claim may change: the tables [claims] and [coins], and the
    history, by events that are no probes. *)
Definition claimedOnly (d d' : Database) : Prop :=
  ∃ cl co evs,
    d' = set_claims (λ _, cl) (set_coins (λ _, co) (set_history (λ h, h ++ evs) d))
    ∧ fetches evs = [].

(** What the claim routines may do to the database: events that all satisfy
    [P] are recorded, and the tables [claims] and [coins] are written. *)
Definition claimsMade (P : Event → Prop) (d d' : Database) : Prop :=
  ∃ cl co evs,
    d' = set_claims (λ _, cl) (set_coins (λ _, co) (set_history (λ h, h ++ evs) d))
    ∧ Forall P evs.

(** The claim request for a stored bounty. *)
Definition bountyClaimEvent (bountyDocs : list Docs.Bounty)
    (directAddresses : gmap string Docs.DirectAddress) (ev : Event) : Prop :=
  ∃ claimant bountyDoc,
    ev = EvMakeClaim claimant (ClaimBounty (Bounty_fromPOD bountyDoc))
                     (amountToMagnitudes (Docs.b_amount bountyDoc))
    ∧ bountyDoc ∈ bountyDocs
    ∧ is_Some (directAddresses !! Docs.b_claimant bountyDoc).


(** [deriveClaimantIndex] as a function of the seed. *)
Definition claimantAt {lib : HiLib} (s : Bytes) (index : Z) (isInternal : bool)
  : Exn + PrivateKey :=
  match PrivateKey_fromBytes
          (Hash_fromMessage (if isInternal then "directAddressGenerator"
                             else "internalAddressGenerator") [s]) with
  | Some generator => inr (PrivateKey_derive generator (Buffutils_fromVarInt index))
  | None => inl NotError
  end.

(** What the transaction of a send does before it stores the transfer: it
    stores the outputs (bounties, a direct address for the change, a
    hookout) and asks the random source; the other tables, the seed and the
    config are as before. *)
Definition outputsStored (d d1 : Database) : Prop :=
  coins d1 = coins d ∧ claims d1 = claims d ∧ hookins d1 = hookins d
  ∧ bitcoinAddresses d1 = bitcoinAddresses d ∧ transfers d1 = transfers d
  ∧ config d1 = config d ∧ seed d1 = seed d
  ∧ history d `prefix_of` history d1.

(** A bounty that pays the change of a transfer back: its claimant is a
    stored internal direct address. *)
Definition changeBounty (d : Database) (excess : Z) (bounty : hi.Bounty) : Prop :=
  (0 < excess)%Z ∧ hi.bounty_amount bounty = excess
  ∧ ∃ address, directAddresses d !! hi.bounty_claimant bounty = Some address
               ∧ Docs.da_isInternal address = true.

(** The set [spentCoinHashes] of [listUnspent]. *)
Definition spentCoinHashes (d : Database) : gset string :=
  foldl (λ acc transfer, foldl (λ acc hash, acc ∪ {[hash]}) acc (Docs.t_coinHashes transfer))
        ∅ (filter (λ t, kind (Docs.t_status t) ≠ "CONFLICTED") (map_to_list (transfers d)).*2).

(** The claim request for a stored hookin that has no claim record. *)
Definition hookinClaimEvent {lib : HiLib} (d : Database) (ev : Event) : Prop :=
  ∃ k hookinDoc claimant,
    hookins d !! k = Some hookinDoc
    ∧ claims d !! Docs.h_hash hookinDoc = None
    ∧ ev = EvMakeClaim claimant (ClaimHookin (Hookin_fromPOD hookinDoc))
             (amountToMagnitudes (Docs.h_amount hookinDoc - Params_transactionConsolidationFee)).

(** The address of a derivation index, when it can be derived. *)
Definition addressAt {lib : HiLib} (s : Bytes) (i : Z) : Address :=
  match bitcoinAddressAt s i with
  | inr info => info.2
  | inl _ => ""
  end.




(** ** Scenarios in the small world *)

Module Scenario.

(** The seed of every scenario, and the keys and addresses it derives. *)
Definition theSeed : Bytes := "seed".

Definition keyOf (i : Z) : PrivateKey :=
  match @bitcoinAddressAt Toy.lib theSeed i with inr info => info.1 | inl _ => "" end.

Definition addressOf (i : Z) : Address :=
  match @bitcoinAddressAt Toy.lib theSeed i with inr info => info.2 | inl _ => "" end.

(** Receipts on the addresses of the indices 0 and 4 only. *)
Definition receives (a : Address) : list BitcoinReceiveInfo :=
  if decide (a = addressOf 0) then [mkBitcoinReceiveInfo "tx0" 0 100]
  else if decide (a = addressOf 4) then [mkBitcoinReceiveInfo "tx4" 1 50]
  else [].

(** A server that accepts every transfer. *)
Definition gapWorld : World :=
  Toy.world receives (λ _, inr "ack") (λ _, None) (λ _, None).

(** A fresh wallet with gap limit 3, and the wallet after its first sync. *)
Definition fresh : Database := Toy.emptyDatabase (Some theSeed) 3.

Definition funded : Database := (@syncBitcoinAddresses Toy.lib gapWorld 20 fresh).2.

(** A wallet with one coin and a PENDING transfer that spends it, and a
    server on which another transfer has spent the coin already. *)
Definition aCoin : hi.Coin := hi.mkCoin "pub:owner" 3 "proof".

Definition aCoinDoc : Docs.Coin :=
  Docs.mkCoin (@Coin_hash Toy.lib aCoin) "claim" "nonce" "pub:owner" 3 "proof".

Definition localTransfer : hi.FullTransfer := hi.mkFullTransfer [aCoin] [] None "auth".

Definition localDoc : Docs.Transfer :=
  @transferDocOf Toy.lib (@FullTransfer_hash Toy.lib localTransfer) 0 localTransfer.




Definition pending : Database :=
  set_transfers (insert (Docs.t_hash localDoc) localDoc)
    (set_coins (insert (Docs.c_hash aCoinDoc) aCoinDoc) fresh).

(** The transfer [sendDirect] builds in the funded wallet for 10 to "pub:bob". *)
Definition builtRun := @buildDirect Toy.lib gapWorld "pub:bob" 10 funded.

Definition builtBounty : Docs.Bounty :=
  match builtRun.1 with
  | inr (Some r) => r.1.1
  | _ => Docs.mkBounty "" 0 "" ""
  end.

Definition builtDoc : Docs.Transfer :=
  match builtRun.1 with
  | inr (Some r) => r.1.2
  | _ => localDoc
  end.

Definition builtHash : Hash :=
  match builtRun.1 with
  | inr (Some r) => r.2
  | _ => ""
  end.

End Scenario.

(** ** More scenarios: refusals, a second server, a wallet to restore *)

Module Cases.

(** A server that refuses every transfer for a reason of its own, and
    reports no receipt. *)
Definition refusal : RequestError := mkRequestError "TRANSFER_REFUSED" 400.

Definition refusingWorld : World :=
  Toy.world (λ _, []) (λ _, inl refusal) (λ _, None) (λ _, None).

(** A hookin on an address the wallet has not stored. *)
Definition strayHookin : Docs.Hookin :=
  Docs.mkHookin "hookin:stray:0" "addr:elsewhere" 0 "stray" 0 100 "pub:elsewhere".

(** The first address of the fresh wallet, of either kind. *)
Definition firstBitcoinAddress : Docs.BitcoinAddress :=
  Docs.mkBitcoinAddress (Scenario.addressOf 0)
    (@PrivateKey_toPublicKey Toy.lib (Scenario.keyOf 0)) 0.

Definition firstDirectAddress : Docs.DirectAddress :=
  Docs.mkDirectAddress "pub:seed#internalAddressGenerator/0" 0 false.

(** The change of 5 in the fresh wallet. *)
Definition changeRun := @newInternalBounty Toy.lib Scenario.gapWorld 5 Scenario.fresh.

Definition change : hi.Bounty :=
  hi.mkBounty 5 "pub:seed#directAddressGenerator/0" "r0".

(** The transfer of the scenario as [finalizeTransfer] reads it back, and
    the same send against the refusing server. *)
Definition builtTransfer : hi.FullTransfer :=
  default Scenario.localTransfer (fullTransferOf Scenario.builtRun.2 Scenario.builtDoc).

Definition refusedRun := @buildDirect Toy.lib refusingWorld "pub:bob" 10 Scenario.funded.

(** A database that holds nothing, not even a config, and a stand-in for
    bip39. *)
Definition blank : Database := mkDatabase ∅ None ∅ ∅ ∅ ∅ ∅ ∅ ∅ None [].

Definition bip39 : Bip39 := {|
  validateMnemonic mnemonic := bool_decide (mnemonic ≠ "");
  mnemonicToSeed mnemonic password := mnemonic +:+ ":" +:+ password |}.

(** A server that reports one bounty for every claimant. *)
Definition reportedBounty : hi.Bounty := hi.mkBounty 7 "pub:seed#internalAddressGenerator/0" "n".

Definition oneBounty : BountyLookup := {|
  lookupBountiesByClaimant history claimant := [reportedBounty] |}.

(** The fresh wallet of the scenarios before it is unlocked. *)
Definition locked : Database := Toy.emptyDatabase None 3.

End Cases.

(** * Properties *)

(** Unfolding of the monad, for goals that run a method on a database. *)
Ltac run :=
  unfold mbind, M_bind, mret, M_ret, bind, ret, throw, get, modify,
    mustExist, mustEqual, notError, interact, unawaited, transaction in *;
  simpl in *.

(** The record updates of the database, reduced by value: unfolding them one
    inside the other would copy the database at every level. *)
Ltac setters :=
  cbv [set_bounties set_claims set_coins set_hookins set_bitcoinAddresses
       set_directAddresses set_hookouts set_transfers set_history rollback
       bounties config claims coins hookins bitcoinAddresses directAddresses
       hookouts transfers seed history].

(** Split on a scrutinee that is no match itself, innermost first. *)
Ltac split_leaf :=
  match goal with
  | |- context [match ?x with _ => _ end] =>
      lazymatch x with
      | context [match _ with _ => _ end] => fail
      | _ => destruct x eqn:?
      end
  end.

Ltac run_all := run; repeat (split_leaf; simpl in * ).

Lemma bind_run {A B} (m : M A) (k : A → M B) (d : Database) :
  (m ≫= k) d = match m d with
               | (inr a, d') => k a d'
               | (inl e, d') => (inl e, d')
               end.
Proof. reflexivity. Qed.

Lemma forEach_cons {A} (x : A) (xs : list A) (body : A → M unit) (d : Database) :
  forEach (x :: xs) body d = match body x d with
                             | (inr _, d') => forEach xs body d'
                             | (inl e, d') => (inl e, d')
                             end.
Proof. reflexivity. Qed.

Lemma set_coins_id (d : Database) : set_coins (λ _, coins d) d = d.
Proof. by destruct d. Qed.



Lemma bind_inr {A B} (m : M A) (k : A → M B) (d d' : Database) (b : B) :
  (m ≫= k) d = (inr b, d') → ∃ a d1, m d = (inr a, d1) ∧ k a d1 = (inr b, d').
Proof.
  rewrite bind_run. destruct (m d) as [[e|a] d1]; [done|]. intros H. by exists a, d1.
Qed.

Lemma returned_some {A} (r : (Exn + option A) * Database) (a : A) :
  r.1 = inr (Some a) → r = (inr (Some a), r.2).
Proof. destruct r as [[e|[a'|]] d]; simpl; intros [=]. by subst. Qed.

Lemma transaction_inr {A} (body : M A) (d d' : Database) (a : A) :
  transaction body d = (inr a, d') → body d = (inr a, d').
Proof. unfold transaction. destruct (body d) as [[e|a'] d1]; [done|]. by intros [= -> ->]. Qed.

Section KeyDerivation.

Context {lib : HiLib}.

Lemma loadedSeed_loaded (d : Database) (s : Bytes) :
  seed d = Some s → loadedSeed d = (inr s, d).
Proof. intros Hs. unfold loadedSeed. run. by rewrite Hs. Qed.

Lemma loadedSeed_locked (d : Database) :
  seed d = None → loadedSeed d = (inl WalletLocked, d).
Proof. intros Hs. unfold loadedSeed. run. by rewrite Hs. Qed.

Lemma deriveOwner_loaded (d : Database) (s : Bytes) (claimHash blindingNonce : string) :
  seed d = Some s →
  deriveOwner claimHash blindingNonce d =
  (match PrivateKey_fromBytes
           (Hash_fromMessage "HIChain.deriveOwner" [s; claimHash; blindingNonce]) with
   | Some k => inr k
   | None => inl NotError
   end, d).
Proof.
  intros Hs. unfold deriveOwner.
  unfold mbind, M_bind, bind. rewrite (loadedSeed_loaded d s Hs).
  unfold notError. by destruct (PrivateKey_fromBytes _).
Qed.

Lemma deriveBlindingSecret_loaded (d : Database) (s : Bytes)
    (claimHash blindingNonce : string) :
  seed d = Some s →
  deriveBlindingSecret claimHash blindingNonce d =
  (inr (Hash_fromMessage "HIChain.deriveBlindingSecret" [s; claimHash; blindingNonce]), d).
Proof.
  intros Hs. unfold deriveBlindingSecret, mbind, M_bind, bind.
  by rewrite (loadedSeed_loaded d s Hs).
Qed.

(** C7. With a seed loaded, [deriveOwner] and [deriveBlindingSecret] are
    functions of the seed and their two arguments alone: run on any two
    databases that hold the same seed, whatever their tables and histories,
    they return the same result, and they leave the database as it is. *)
Theorem derive_owner_secret_deterministic
    (s : Bytes) (claimHash blindingNonce : string) (d1 d2 : Database) :
  seed d1 = Some s → seed d2 = Some s →
  (deriveOwner claimHash blindingNonce d1).1 = (deriveOwner claimHash blindingNonce d2).1
  ∧ (deriveBlindingSecret claimHash blindingNonce d1).1
    = (deriveBlindingSecret claimHash blindingNonce d2).1
  ∧ (deriveOwner claimHash blindingNonce d1).2 = d1
  ∧ (deriveBlindingSecret claimHash blindingNonce d1).2 = d1
  ∧ (deriveBlindingSecret claimHash blindingNonce d1).1
    = inr (Hash_fromMessage "HIChain.deriveBlindingSecret" [s; claimHash; blindingNonce]).
Proof.
  intros H1 H2.
  rewrite (deriveOwner_loaded d1 s), (deriveOwner_loaded d2 s) by done.
  rewrite (deriveBlindingSecret_loaded d1 s), (deriveBlindingSecret_loaded d2 s) by done.
  done.
Qed.

Lemma deriveClaimant_loaded (d : Database) (s n : Bytes) (isInternal : bool) :
  seed d = Some s →
  deriveClaimant n isInternal d =
  (match PrivateKey_fromBytes
           (Hash_fromMessage (if isInternal then "directAddressGenerator"
                              else "internalAddressGenerator") [s]) with
   | Some generator => inr (PrivateKey_derive generator n)
   | None => inl NotError
   end, d).
Proof.
  intros Hs. unfold deriveClaimant, mbind, M_bind, bind.
  rewrite (loadedSeed_loaded d s Hs).
  destruct isInternal;
    unfold seedToDirectAddressGenerator, seedToInternalAddressGenerator, notError;
    by destruct (PrivateKey_fromBytes _).
Qed.

(** C10. With a seed loaded, [deriveClaimant n true] derives from the
    generator hashed with the label "directAddressGenerator" and
    [deriveClaimant n false] from the one hashed with
    "internalAddressGenerator": each flag takes the generator named after
    the other lineage. The two labels differ, and the two generators are
    different keys wherever the hash separates labels on the seed and a
    private key has one byte form. *)
Theorem deriveClaimant_generators (d : Database) (s n : Bytes) :
  seed d = Some s →
  deriveClaimant n true d =
    (g ← seedToDirectAddressGenerator s; ret (PrivateKey_derive g n)) d
  ∧ deriveClaimant n false d =
    (g ← seedToInternalAddressGenerator s; ret (PrivateKey_derive g n)) d
  ∧ seedToDirectAddressGenerator s d =
    (match PrivateKey_fromBytes (Hash_fromMessage "directAddressGenerator" [s]) with
     | Some g => inr g
     | None => inl NotError
     end, d)
  ∧ seedToInternalAddressGenerator s d =
    (match PrivateKey_fromBytes (Hash_fromMessage "internalAddressGenerator" [s]) with
     | Some g => inr g
     | None => inl NotError
     end, d)
  ∧ "directAddressGenerator" ≠ "internalAddressGenerator"
  ∧ ((∀ l1 l2 : string, Hash_fromMessage l1 [s] = Hash_fromMessage l2 [s] → l1 = l2) →
     (∀ b1 b2 k, PrivateKey_fromBytes b1 = Some k → PrivateKey_fromBytes b2 = Some k →
                 b1 = b2) →
     ∀ g1 g2, seedToDirectAddressGenerator s d = (inr g1, d) →
              seedToInternalAddressGenerator s d = (inr g2, d) → g1 ≠ g2).
Proof.
  intros Hs. split_and!.
  - unfold deriveClaimant, mbind, M_bind, bind. by rewrite (loadedSeed_loaded d s Hs).
  - unfold deriveClaimant, mbind, M_bind, bind. by rewrite (loadedSeed_loaded d s Hs).
  - unfold seedToDirectAddressGenerator, notError. by destruct (PrivateKey_fromBytes _).
  - unfold seedToInternalAddressGenerator, notError. by destruct (PrivateKey_fromBytes _).
  - done.
  - intros Hsep Hinj g1 g2.
    unfold seedToDirectAddressGenerator, seedToInternalAddressGenerator, notError.
    destruct (PrivateKey_fromBytes (Hash_fromMessage "directAddressGenerator" [s]))
      as [k1|] eqn:E1; [|done].
    destruct (PrivateKey_fromBytes (Hash_fromMessage "internalAddressGenerator" [s]))
      as [k2|] eqn:E2; [|done].
    unfold ret. intros [= <-] [= <-] ->.
    by specialize (Hsep _ _ (Hinj _ _ _ E1 E2)).
Qed.

End KeyDerivation.

Section Unspent.

Context {lib : HiLib} {world : World}.

Lemma spent_inner (hashes : list string) (acc : gset string) (h : string) :
  h ∈ foldl (λ acc hash, acc ∪ {[hash]}) acc hashes ↔ h ∈ acc ∨ h ∈ hashes.
Proof.
  revert acc. induction hashes as [|x xs IH]; intros acc; simpl.
  - rewrite elem_of_nil. tauto.
  - rewrite IH, elem_of_cons, elem_of_union, elem_of_singleton. tauto.
Qed.

Lemma spent_outer (ts : list Docs.Transfer) (acc : gset string) (h : string) :
  h ∈ foldl (λ acc transfer,
             foldl (λ acc hash, acc ∪ {[hash]}) acc (Docs.t_coinHashes transfer)) acc ts
  ↔ h ∈ acc ∨ ∃ t, t ∈ ts ∧ h ∈ Docs.t_coinHashes t.
Proof.
  revert acc. induction ts as [|t ts IH]; intros acc; simpl.
  - split; [auto|]. intros [?|(t & Ht & _)]; [done|]. by apply elem_of_nil in Ht.
  - rewrite IH, spent_inner. split.
    + intros [[?|?]|(t' & ? & ?)]; [by left| |].
      * right. exists t. split; [left|done].
      * right. exists t'. split; [by right|done].
    + intros [?|(t' & Ht' & ?)]; [by left; left|].
      apply elem_of_cons in Ht' as [->|?]; [by left; right|].
      right. by exists t'.
Qed.

(** What [listUnspent] returns, coin by coin. *)
Lemma listUnspent_run (d : Database) :
  ∃ unspent, listUnspent d = (inr unspent, d)
  ∧ ∀ coin, coin ∈ unspent ↔
      (∃ k, coins d !! k = Some coin)
      ∧ ∀ h t, transfers d !! h = Some t → kind (Docs.t_status t) ≠ "CONFLICTED" →
               Docs.c_hash coin ∉ Docs.t_coinHashes t.
Proof.
  eexists. split; [reflexivity|]. intros coin.
  rewrite list_elem_of_filter, spent_outer, list_elem_of_fmap.
  split.
  - intros [Hfree ((k & c) & -> & Hin)]. apply elem_of_map_to_list in Hin.
    split; [by exists k|]. intros h t Ht Hk Href. apply Hfree. right.
    exists t. split; [|done]. apply list_elem_of_filter. split; [done|].
    apply list_elem_of_fmap. exists (h, t). split; [done|]. by apply elem_of_map_to_list.
  - intros [(k & Hk) Hfree]. split.
    + intros [Hin|(t & Ht & Href)]; [by apply elem_of_empty in Hin|].
      apply list_elem_of_filter in Ht as [Hkind Ht].
      apply list_elem_of_fmap in Ht as ((h & t') & -> & Ht).
      apply elem_of_map_to_list in Ht. by eapply Hfree.
    + exists (k, coin). split; [done|]. by apply elem_of_map_to_list.
Qed.

(** C1. [listUnspent] leaves the database as it is and returns a coin of
    the store exactly when no transfer whose status kind is not
    'CONFLICTED' lists the hash of the coin among its [coinHashes]. So a
    coin listed by a PENDING or an ACKNOWLEDGED transfer is not returned;
    and once [discardTransfer] has made a PENDING transfer CONFLICTED, a
    coin is returned exactly when no other transfer that is not CONFLICTED
    lists it. *)
Theorem listUnspent_excludes_spent (d : Database) :
  ∃ unspent, listUnspent d = (inr unspent, d)
  ∧ (∀ coin, coin ∈ unspent ↔
       (∃ k, coins d !! k = Some coin)
       ∧ ∀ h t, transfers d !! h = Some t → kind (Docs.t_status t) ≠ "CONFLICTED" →
                Docs.c_hash coin ∉ Docs.t_coinHashes t)
  ∧ (∀ h t coin, transfers d !! h = Some t →
       kind (Docs.t_status t) = "PENDING" ∨ kind (Docs.t_status t) = "ACKNOWLEDGED" →
       Docs.c_hash coin ∈ Docs.t_coinHashes t → coin ∉ unspent)
  ∧ (∀ transferDoc, kind (Docs.t_status transferDoc) = "PENDING" →
       ∃ d' unspent', discardTransfer transferDoc d = (inr tt, d')
       ∧ listUnspent d' = (inr unspent', d')
       ∧ ∀ coin, coin ∈ unspent' ↔
           (∃ k, coins d !! k = Some coin)
           ∧ ∀ h t, h ≠ Docs.t_hash transferDoc → transfers d !! h = Some t →
                    kind (Docs.t_status t) ≠ "CONFLICTED" →
                    Docs.c_hash coin ∉ Docs.t_coinHashes t).
Proof.
  destruct (listUnspent_run d) as (unspent & Hrun & Hspec).
  exists unspent. split_and!; [done|done| |].
  - intros h t coin Ht Hkind Href Hin. apply Hspec in Hin as [_ Hfree].
    apply (Hfree h t Ht); [|done]. by destruct Hkind as [-> | ->].
  - intros transferDoc Hpending.
    set (d' := set_transfers
                 (insert (Docs.t_hash transferDoc) (withStatus transferDoc CONFLICTED)) d).
    destruct (listUnspent_run d') as (unspent' & Hrun' & Hspec').
    exists d', unspent'. split_and!; [|done|].
    + unfold discardTransfer. rewrite decide_False by (by intros ?). done.
    + intros coin. rewrite Hspec'. subst d'. simpl. split.
      * intros [Hk Hfree]. split; [done|]. intros h t Hne Ht. apply (Hfree h t).
        by rewrite lookup_insert_ne.
      * intros [Hk Hfree]. split; [done|]. intros h t Ht.
        destruct (decide (Docs.t_hash transferDoc = h)) as [<-|Hne].
        -- rewrite lookup_insert_eq in Ht. by injection Ht as <-.
        -- rewrite lookup_insert_ne in Ht by done. by apply (Hfree h t).
Qed.

(** C5. [finalizeTransfer] and [discardTransfer] throw on a transfer that
    is not PENDING and leave the database, the stored transfer with it, as
    it is; [discardTransfer] on a PENDING transfer returns and stores the
    transfer with the status CONFLICTED. *)
Theorem transfer_must_be_pending (transferDoc : Docs.Transfer) (d : Database) :
  (kind (Docs.t_status transferDoc) ≠ "PENDING" →
     finalizeTransfer transferDoc d = (inl TransferMustBePending, d)
     ∧ discardTransfer transferDoc d = (inl TransferMustBePending, d))
  ∧ (kind (Docs.t_status transferDoc) = "PENDING" →
     ∃ d', discardTransfer transferDoc d = (inr tt, d')
     ∧ transfers d' !! Docs.t_hash transferDoc = Some (withStatus transferDoc CONFLICTED)
     ∧ Docs.t_status (withStatus transferDoc CONFLICTED) = CONFLICTED
     ∧ (∀ h, h ≠ Docs.t_hash transferDoc → transfers d' !! h = transfers d !! h)).
Proof.
  split.
  - intros Hkind. unfold finalizeTransfer, discardTransfer.
    by rewrite !decide_True by done.
  - intros Hkind. eexists. unfold discardTransfer.
    rewrite decide_False by (by intros ?). split_and!; [reflexivity| | |].
    + simpl. by rewrite lookup_insert_eq.
    + done.
    + intros h Hne. simpl. by rewrite lookup_insert_ne.
Qed.

End Unspent.

Section Claims.

Context {lib : HiLib} {world : World}.

Lemma claimCoin_tables (claimHash : Hash) (cc : hi.CoinClaim) (p : Bytes) (d : Database) :
  ∃ co, (claimCoin claimHash cc p d).2 = set_coins (λ _, co) d.
Proof.
  unfold claimCoin, deriveBlindingSecret, deriveOwner, loadedSeed. run_all.
  all: try (exists (coins d); by rewrite set_coins_id).
  all: try (eexists; reflexivity).
Qed.

Lemma claimCoins_tables (claimHash : Hash) (cps : list (hi.CoinClaim * Bytes)) (d : Database) :
  ∃ co, (forEach cps (λ cp, claimCoin claimHash cp.1 cp.2) d).2 = set_coins (λ _, co) d.
Proof.
  revert d. induction cps as [|cp cps IH]; intros d.
  - exists (coins d). simpl. by rewrite set_coins_id.
  - rewrite forEach_cons.
    destruct (claimCoin_tables claimHash cp.1 cp.2 d) as (co & Hco).
    destruct (claimCoin claimHash cp.1 cp.2 d) as [[e|[]] d1]; simpl in Hco; subst d1.
    + by exists co.
    + destruct (IH (set_coins (λ _, co) d)) as (co' & ->). by exists co'.
Qed.

(** [processClaimResponse] always returns, makes no external interaction,
    and either leaves the database as it is (the transaction aborted) or
    has put coins and the one claim, keyed by the hash the response names. *)
Lemma processClaimResponse_run (r : hi.AcknowledgedClaimResponse) (d : Database) :
  ∃ d', processClaimResponse r d = (inr tt, d')
  ∧ (d' = d
     ∨ ∃ co, d' = set_claims (insert (hi.cr_claim (hi.claimRequest (hi.acr_contents r))) r)
                             (set_coins (λ _, co) d)).
Proof.
  unfold processClaimResponse, unawaited, transaction.
  rewrite bind_run. unfold mustEqual. case_decide.
  - unfold ret at 1. cbv beta iota. rewrite bind_run.
    match goal with |- context [forEach ?l ?f d] =>
      destruct (claimCoins_tables (hi.cr_claim (hi.claimRequest (hi.acr_contents r))) l d)
        as (co & Hco);
      destruct (forEach l f d) as [[e|[]] d1] end; simpl in Hco; subst d1.
    + eexists. split; [reflexivity|]. left. by destruct d.
    + eexists. split; [reflexivity|]. right. by exists co.
  - eexists. split; [reflexivity|]. left. by destruct d.
Qed.

Lemma callMakeClaim_run (claimant : PrivateKey) (c : Claimable) (magnitudes : list nat)
    (d : Database) :
  callMakeClaim claimant c magnitudes d =
  (match makeClaim (history d) (seed d) claimant c magnitudes with
   | inl e => inl (Thrown e)
   | inr response => inr response
   end, set_history (λ h, h ++ [EvMakeClaim claimant c magnitudes]) d).
Proof. unfold callMakeClaim. run. by destruct (makeClaim _ _ _ _ _). Qed.

(** The guard of the claim routines. *)
Lemma claimHookin_claimed (hookinDoc : Docs.Hookin) (d : Database) :
  is_Some (claims d !! Docs.h_hash hookinDoc) → claimHookin hookinDoc d = (inr tt, d).
Proof. intros [claim Hc]. unfold claimHookin. rewrite bind_run. simpl. by rewrite Hc. Qed.

Lemma claimBountyWithAddress_claimed (bountyDoc : Docs.Bounty) (address : Docs.DirectAddress)
    (d : Database) :
  is_Some (claims d !! Docs.b_hash bountyDoc) →
  claimBountyWithAddress bountyDoc address d = (inr tt, d).
Proof.
  intros [claim Hc]. unfold claimBountyWithAddress. rewrite bind_run. simpl. by rewrite Hc.
Qed.

Lemma roundTrip_run (claimant : PrivateKey) (c : Claimable) (magnitudes : list nat)
    (d : Database) :
  match makeClaim (history d) (seed d) claimant c magnitudes with
  | inl e =>
      (callMakeClaim claimant c magnitudes ≫= processClaimResponse) d
      = (inl (Thrown e), set_history (λ h, h ++ [EvMakeClaim claimant c magnitudes]) d)
  | inr r =>
      ∃ d', (callMakeClaim claimant c magnitudes ≫= processClaimResponse) d = (inr tt, d')
            ∧ claimed d (EvMakeClaim claimant c magnitudes) r d'
  end.
Proof.
  rewrite bind_run, callMakeClaim_run.
  destruct (makeClaim _ _ _ _ _) as [e|r]; [done|].
  destruct (processClaimResponse_run r
              (set_history (λ h, h ++ [EvMakeClaim claimant c magnitudes]) d))
    as (d' & -> & Hd').
  by exists d'.
Qed.

Lemma claimHookin_first (hookinDoc : Docs.Hookin) (d : Database)
    (bitcoinAddressDoc : Docs.BitcoinAddress) (info : PrivateKey * Address) :
  claims d !! Docs.h_hash hookinDoc = None →
  bitcoinAddresses d !! Docs.h_bitcoinAddress hookinDoc = Some bitcoinAddressDoc →
  deriveBitcoinAddressIndex (Docs.ba_index bitcoinAddressDoc) d = (inr info, d) →
  claimHookin hookinDoc d =
  (callMakeClaim info.1 (ClaimHookin (Hookin_fromPOD hookinDoc))
     (amountToMagnitudes (Docs.h_amount hookinDoc - Params_transactionConsolidationFee))
   ≫= processClaimResponse) d.
Proof.
  intros Hc Ha Hinfo. unfold claimHookin. rewrite bind_run. simpl. rewrite Hc.
  rewrite bind_run, Ha. simpl. by rewrite bind_run, Hinfo.
Qed.

Lemma claimBountyWithAddress_first (bountyDoc : Docs.Bounty) (address : Docs.DirectAddress)
    (d : Database) (claimant : PrivateKey) :
  claims d !! Docs.b_hash bountyDoc = None →
  deriveClaimantIndex (Docs.da_index address) (Docs.da_isInternal address) d
    = (inr claimant, d) →
  claimBountyWithAddress bountyDoc address d =
  (callMakeClaim claimant (ClaimBounty (Bounty_fromPOD bountyDoc))
     (amountToMagnitudes (Docs.b_amount bountyDoc))
   ≫= processClaimResponse) d.
Proof.
  intros Hc Hk. unfold claimBountyWithAddress. rewrite bind_run. simpl. rewrite Hc.
  by rewrite bind_run, Hk.
Qed.

Lemma deriveBitcoinAddress_state (n : Bytes) (d : Database) :
  (deriveBitcoinAddress n d).2 = d.
Proof.
  unfold deriveBitcoinAddress, seedToBitcoinAddressGenerator, loadedSeed. by run_all.
Qed.

Lemma deriveClaimant_state (n : Bytes) (isInternal : bool) (d : Database) :
  (deriveClaimant n isInternal d).2 = d.
Proof.
  unfold deriveClaimant, seedToDirectAddressGenerator, seedToInternalAddressGenerator,
    loadedSeed.
  by run_all.
Qed.

(** A claim routine that passed its guard and returned has made the one
    round trip. *)
Lemma claimHookin_returned (hookinDoc : Docs.Hookin) (d d1 : Database) :
  claims d !! Docs.h_hash hookinDoc = None →
  claimHookin hookinDoc d = (inr tt, d1) →
  ∃ bitcoinAddressDoc info r,
    bitcoinAddresses d !! Docs.h_bitcoinAddress hookinDoc = Some bitcoinAddressDoc
    ∧ deriveBitcoinAddressIndex (Docs.ba_index bitcoinAddressDoc) d = (inr info, d)
    ∧ claimed d (EvMakeClaim info.1 (ClaimHookin (Hookin_fromPOD hookinDoc))
                   (amountToMagnitudes
                      (Docs.h_amount hookinDoc - Params_transactionConsolidationFee)))
              r d1.
Proof.
  intros Hc Hrun.
  destruct (bitcoinAddresses d !! Docs.h_bitcoinAddress hookinDoc) as [ba|] eqn:Ha.
  2:{ unfold claimHookin in Hrun. rewrite bind_run in Hrun. simpl in Hrun.
      rewrite Hc, bind_run, Ha in Hrun. done. }
  pose proof (deriveBitcoinAddress_state (Buffutils_fromUint8 (Docs.ba_index ba)) d) as Hst.
  fold (deriveBitcoinAddressIndex (Docs.ba_index ba)) in Hst.
  destruct (deriveBitcoinAddressIndex (Docs.ba_index ba) d) as [[e|info] d2] eqn:Hinfo;
    simpl in Hst; subst d2.
  { unfold claimHookin in Hrun. rewrite bind_run in Hrun. simpl in Hrun.
    rewrite Hc, bind_run, Ha in Hrun. simpl in Hrun. by rewrite bind_run, Hinfo in Hrun. }
  rewrite (claimHookin_first hookinDoc d ba info) in Hrun by done.
  pose proof (roundTrip_run info.1 (ClaimHookin (Hookin_fromPOD hookinDoc))
    (amountToMagnitudes (Docs.h_amount hookinDoc - Params_transactionConsolidationFee)) d)
    as Hrt.
  destruct (makeClaim _ _ _ _ _) as [e|r]; [by rewrite Hrt in Hrun|].
  destruct Hrt as (d' & Hd' & Hclaimed). rewrite Hd' in Hrun. injection Hrun as <-.
  by exists ba, info, r.
Qed.

Lemma claimBountyWithAddress_returned (bountyDoc : Docs.Bounty)
    (address : Docs.DirectAddress) (d d1 : Database) :
  claims d !! Docs.b_hash bountyDoc = None →
  claimBountyWithAddress bountyDoc address d = (inr tt, d1) →
  ∃ claimant r,
    deriveClaimantIndex (Docs.da_index address) (Docs.da_isInternal address) d
      = (inr claimant, d)
    ∧ claimed d (EvMakeClaim claimant (ClaimBounty (Bounty_fromPOD bountyDoc))
                   (amountToMagnitudes (Docs.b_amount bountyDoc)))
              r d1.
Proof.
  intros Hc Hrun.
  pose proof (deriveClaimant_state (Buffutils_fromVarInt (Docs.da_index address))
                (Docs.da_isInternal address) d) as Hst.
  fold (deriveClaimantIndex (Docs.da_index address) (Docs.da_isInternal address)) in Hst.
  destruct (deriveClaimantIndex (Docs.da_index address) (Docs.da_isInternal address) d)
    as [[e|claimant] d2] eqn:Hk; simpl in Hst; subst d2.
  { unfold claimBountyWithAddress in Hrun. rewrite bind_run in Hrun. simpl in Hrun.
    by rewrite Hc, bind_run, Hk in Hrun. }
  rewrite (claimBountyWithAddress_first bountyDoc address d claimant) in Hrun by done.
  pose proof (roundTrip_run claimant (ClaimBounty (Bounty_fromPOD bountyDoc))
    (amountToMagnitudes (Docs.b_amount bountyDoc)) d) as Hrt.
  destruct (makeClaim _ _ _ _ _) as [e|r]; [by rewrite Hrt in Hrun|].
  destruct Hrt as (d' & Hd' & Hclaimed). rewrite Hd' in Hrun. injection Hrun as <-.
  by exists claimant, r.
Qed.

(** A round trip that left a claim under [hash], where there was none, has
    put exactly that one record. *)
Lemma claimed_record (d d1 : Database) (ev : Event) (r : hi.AcknowledgedClaimResponse)
    (hash : Hash) :
  claims d !! hash = None → is_Some (claims d1 !! hash) → claimed d ev r d1 →
  history d1 = history d ++ [ev] ∧ claims d1 = <[hash := r]> (claims d).
Proof.
  intros Hnone Hsome [-> | (co & ->)]; simpl in *.
  - rewrite Hnone in Hsome. by destruct Hsome.
  - split; [done|].
    destruct (decide (hi.cr_claim (hi.claimRequest (hi.acr_contents r)) = hash)) as [->|Hne];
      [done|].
    rewrite lookup_insert_ne, Hnone in Hsome by done. by destruct Hsome.
Qed.

(** C2. A claim routine called on a bounty or hookin whose hash has a Claim
    record returns at once: no external interaction is recorded and the
    database, the tables [coins] and [claims] with it, is as before
    ([claimBounty] first looks the address up and, should it be missing,
    throws, still changing nothing). So when a first call has recorded the
    claim under the hash of its target, it has made one round trip and put
    one Claim record, and a second call adds nothing to either. *)
Theorem claim_again_is_noop (d : Database) :
  (∀ hookinDoc, is_Some (claims d !! Docs.h_hash hookinDoc) →
     claimHookin hookinDoc d = (inr tt, d))
  ∧ (∀ bountyDoc address, is_Some (claims d !! Docs.b_hash bountyDoc) →
     claimBountyWithAddress bountyDoc address d = (inr tt, d))
  ∧ (∀ bountyDoc, is_Some (claims d !! Docs.b_hash bountyDoc) →
     (claimBounty bountyDoc d).2 = d
     ∧ (is_Some (directAddresses d !! Docs.b_claimant bountyDoc) →
        claimBounty bountyDoc d = (inr tt, d)))
  ∧ (∀ hookinDoc d1, claims d !! Docs.h_hash hookinDoc = None →
     claimHookin hookinDoc d = (inr tt, d1) →
     is_Some (claims d1 !! Docs.h_hash hookinDoc) →
     (claimHookin hookinDoc ≫= λ _, claimHookin hookinDoc) d = (inr tt, d1)
     ∧ ∃ claimant c magnitudes r,
         history d1 = history d ++ [EvMakeClaim claimant c magnitudes]
         ∧ claims d1 = <[Docs.h_hash hookinDoc := r]> (claims d))
  ∧ (∀ bountyDoc address d1, claims d !! Docs.b_hash bountyDoc = None →
     claimBountyWithAddress bountyDoc address d = (inr tt, d1) →
     is_Some (claims d1 !! Docs.b_hash bountyDoc) →
     (claimBountyWithAddress bountyDoc address
        ≫= λ _, claimBountyWithAddress bountyDoc address) d = (inr tt, d1)
     ∧ ∃ claimant c magnitudes r,
         history d1 = history d ++ [EvMakeClaim claimant c magnitudes]
         ∧ claims d1 = <[Docs.b_hash bountyDoc := r]> (claims d)).
Proof.
  split_and!.
  - intros. by apply claimHookin_claimed.
  - intros. by apply claimBountyWithAddress_claimed.
  - intros bountyDoc Hc. unfold claimBounty. rewrite bind_run. simpl. rewrite bind_run.
    destruct (directAddresses d !! Docs.b_claimant bountyDoc) as [address|]; simpl.
    + rewrite claimBountyWithAddress_claimed by done. done.
    + split; [done|]. by intros [? ?].
  - intros hookinDoc d1 Hnone Hrun Hsome. split.
    + by rewrite bind_run, Hrun, claimHookin_claimed.
    + destruct (claimHookin_returned _ _ _ Hnone Hrun) as (ba & info & r & _ & _ & Hcl).
      destruct (claimed_record _ _ _ _ _ Hnone Hsome Hcl) as [Hh Hcs]. eauto 10.
  - intros bountyDoc address d1 Hnone Hrun Hsome. split.
    + by rewrite bind_run, Hrun, claimBountyWithAddress_claimed.
    + destruct (claimBountyWithAddress_returned _ _ _ _ Hnone Hrun) as (k & r & _ & Hcl).
      destruct (claimed_record _ _ _ _ _ Hnone Hsome Hcl) as [Hh Hcs]. eauto 10.
Qed.


End Claims.

Section Selector.

Lemma coinValue_pos (c : Docs.Coin) : (0 < coinValue c)%Z.
Proof. unfold coinValue. apply Z.pow_pos_nonneg; lia. Qed.

Lemma sumCoins_app (xs ys : list Docs.Coin) :
  sumCoins (xs ++ ys) = (sumCoins xs + sumCoins ys)%Z.
Proof. induction xs as [|x xs IH]; simpl; [done|]. rewrite IH. lia. Qed.

Lemma sumCoins_nonneg (xs : list Docs.Coin) : (0 ≤ sumCoins xs)%Z.
Proof.
  induction xs as [|x xs IH]; simpl; [done|]. pose proof (coinValue_pos x). lia.
Qed.

Lemma sumCoins_submseteq (xs ys : list Docs.Coin) :
  xs ⊆+ ys → (sumCoins xs ≤ sumCoins ys)%Z.
Proof.
  induction 1 as [|x xs ys _ IH|x y xs|x xs ys _ IH|xs ys zs _ IH1 _ IH2]; simpl.
  - done.
  - lia.
  - lia.
  - pose proof (coinValue_pos x). lia.
  - lia.
Qed.

Lemma sumCoins_Permutation (xs ys : list Docs.Coin) :
  xs ≡ₚ ys → sumCoins xs = sumCoins ys.
Proof.
  intros Hp. apply Z.le_antisymm; apply sumCoins_submseteq.
  - by rewrite Hp.
  - by rewrite Hp.
Qed.

(** The greedy pass: it splits the coins, the need that remains is the need
    less what was taken, and every coin passed over exceeds it. *)
Lemma greedy_spec (sorted : list Docs.Coin) (need : Z) :
  match greedy sorted need with
  | (taken, passed, remaining) =>
      taken ++ passed ≡ₚ sorted
      ∧ remaining = (need - sumCoins taken)%Z
      ∧ ((0 ≤ need)%Z → (0 ≤ remaining)%Z)
      ∧ ∀ c, c ∈ passed → (remaining < coinValue c)%Z
  end.
Proof.
  revert need. induction sorted as [|c rest IH]; intros need; simpl.
  - split_and!; [done|lia|done|]. intros c Hc. by apply elem_of_nil in Hc.
  - case_decide as Hfit.
    + specialize (IH (need - coinValue c)%Z).
      destruct (greedy rest (need - coinValue c)) as [[taken passed] remaining].
      destruct IH as (Hp & Hr & Hn & Hpassed). simpl. split_and!.
      * by rewrite Hp.
      * lia.
      * intros ?. apply Hn. lia.
      * done.
    + specialize (IH need).
      destruct (greedy rest need) as [[taken passed] remaining].
      destruct IH as (Hp & Hr & Hn & Hpassed). split_and!.
      * by rewrite <- Permutation_middle, Hp.
      * done.
      * done.
      * intros c' [->|Hc']%elem_of_cons; [|by apply Hpassed].
        pose proof (sumCoins_nonneg taken). lia.
Qed.

Lemma last_elem_of {A} (l : list A) (x : A) : last l = Some x → x ∈ l ∧ ∃ l', l = l' ++ [x].
Proof.
  intros Hl. apply last_Some in Hl as (l' & ->). split; [|by exists l'].
  apply elem_of_app. right. by left.
Qed.

(** What [findAtLeast] returns. *)
Lemma findAtLeast_spec (coins : list Docs.Coin) (target : Z) :
  match findAtLeast coins target with
  | Some (found, excess) =>
      found ⊆+ coins
      ∧ (target ≤ sumCoins found)%Z
      ∧ excess = (sumCoins found - target)%Z
      ∧ ((0 ≤ target)%Z →
         excess = 0%Z ∨ ∃ c, last found = Some c ∧ (excess < coinValue c)%Z)
  | None => ∀ sub, sub ⊆+ coins → (sumCoins sub < target)%Z
  end.
Proof.
  unfold findAtLeast.
  pose proof (greedy_spec (merge_sort magnitude_ge coins) target) as Hg.
  destruct (greedy (merge_sort magnitude_ge coins) target) as [[taken passed] remaining].
  destruct Hg as (Hp & Hr & Hn & Hpassed).
  rewrite merge_sort_Permutation in Hp.
  case_decide as Hdone.
  - split_and!.
    + rewrite <- Hp. by apply submseteq_inserts_r.
    + lia.
    + done.
    + intros Ht. left. specialize (Hn Ht). lia.
  - destruct (last passed) as [c|] eqn:Hlast.
    + apply last_elem_of in Hlast as (Hc & passed' & ->).
      specialize (Hpassed c Hc). simpl. rewrite sumCoins_app. simpl. split_and!.
      * rewrite <- Hp. apply submseteq_app; [done|].
        apply submseteq_inserts_l. done.
      * lia.
      * done.
      * intros _. right. exists c. rewrite last_snoc. split; [done|]. lia.
    + apply last_None in Hlast as ->. rewrite app_nil_r in Hp.
      intros sub Hsub. apply sumCoins_submseteq in Hsub.
      rewrite <- (sumCoins_Permutation _ _ Hp) in Hsub. lia.
Qed.

(** C8, as amended. [findAtLeast] returns coins of the list whose sum is at
    least the target, with the excess the sum less the target, and returns
    nothing exactly when no sub-list of the coins reaches the target. The
    excess is not the least possible in general: for a target that is not
    negative it is zero, or else below the value of the coin the fallback
    added last. On the three examples: target 5 over the values 1, 2, 4, 8
    selects 4 and 1 with excess 0; target 6 over 4, 4 selects both with
    excess 2; target 100 over 32, 16, 2 (total 50) selects nothing. *)
Theorem findAtLeast_covers :
  (∀ coins target,
     match findAtLeast coins target with
     | Some (found, excess) =>
         found ⊆+ coins
         ∧ (target ≤ sumCoins found)%Z
         ∧ excess = (sumCoins found - target)%Z
         ∧ ((0 ≤ target)%Z →
            excess = 0%Z ∨ ∃ c, last found = Some c ∧ (excess < coinValue c)%Z)
     | None => ∀ sub, sub ⊆+ coins → (sumCoins sub < target)%Z
     end)
  ∧ (∀ coins target,
       findAtLeast coins target = None ↔ ∀ sub, sub ⊆+ coins → (sumCoins sub < target)%Z)
  ∧ findAtLeast [Toy.coin "a" 0; Toy.coin "b" 1; Toy.coin "c" 2; Toy.coin "d" 3] 5
    = Some ([Toy.coin "c" 2; Toy.coin "a" 0], 0%Z)
  ∧ findAtLeast [Toy.coin "a" 2; Toy.coin "b" 2] 6
    = Some ([Toy.coin "a" 2; Toy.coin "b" 2], 2%Z)
  ∧ sumCoins [Toy.coin "a" 5; Toy.coin "b" 4; Toy.coin "c" 1] = 50%Z
  ∧ findAtLeast [Toy.coin "a" 5; Toy.coin "b" 4; Toy.coin "c" 1] 100 = None.
Proof.
  split_and!; [| |by vm_compute..].
  - apply findAtLeast_spec.
  - intros coins target. pose proof (findAtLeast_spec coins target) as Hspec.
    destruct (findAtLeast coins target) as [[found excess]|]; [|done].
    split; [done|]. intros Hnone. destruct Hspec as (Hsub & Hsum & _).
    specialize (Hnone found Hsub). lia.
Qed.

(** C8, the counterexample to the least excess: over the values 4, 4, 1 and
    the target 6 the selection is 4, 1, 4 with excess 3, while 4, 4 reaches
    the target with excess 2. *)
Lemma findAtLeast_excess_not_minimal :
  findAtLeast [Toy.coin "a" 2; Toy.coin "b" 2; Toy.coin "c" 0] 6
  = Some ([Toy.coin "a" 2; Toy.coin "c" 0; Toy.coin "b" 2], 3%Z)
  ∧ [Toy.coin "a" 2; Toy.coin "b" 2] ⊆+ [Toy.coin "a" 2; Toy.coin "b" 2; Toy.coin "c" 0]
  ∧ (6 ≤ sumCoins [Toy.coin "a" 2; Toy.coin "b" 2])%Z
  ∧ (sumCoins [Toy.coin "a" 2; Toy.coin "b" 2] - 6 < 3)%Z.
Proof.
  split_and!; [by vm_compute| |by vm_compute|by vm_compute].
  do 2 apply submseteq_skip. apply submseteq_nil_l.
Qed.

End Selector.

Section Order.

Lemma string_compare_trans_le (a b c : string) :
  String.compare a b ≠ Gt → String.compare b c ≠ Gt → String.compare a c ≠ Gt.
Proof.
  revert b c. induction a as [|x a IH]; intros [|y b] [|z c]; simpl; try done.
  unfold Ascii.compare.
  destruct (N.compare_spec (Ascii.N_of_ascii x) (Ascii.N_of_ascii y)) as [Hxy|Hxy|Hxy];
    destruct (N.compare_spec (Ascii.N_of_ascii y) (Ascii.N_of_ascii z)) as [Hyz|Hyz|Hyz];
    try done.
  - rewrite Hxy, Hyz, N.compare_refl. apply IH.
  - intros _ _. rewrite Hxy. by apply N.compare_lt_iff in Hyz as ->.
  - intros _ _. rewrite <- Hyz. by apply N.compare_lt_iff in Hxy as ->.
  - intros _ _. assert (Ascii.N_of_ascii x < Ascii.N_of_ascii z)%N as Hxz by lia.
    by apply N.compare_lt_iff in Hxz as ->.
Qed.

Definition bytes_le : relation string := λ a b, String.leb a b = true.

#[local] Instance bytes_le_trans : Transitive bytes_le.
Proof.
  intros a b c. unfold bytes_le, String.leb. intros Hab Hbc.
  pose proof (string_compare_trans_le a b c) as Ht.
  destruct (String.compare a b), (String.compare b c), (String.compare a c);
    try done; exfalso; by apply Ht.
Qed.

#[local] Instance bytes_le_antisym : AntiSymm (=) bytes_le.
Proof. intros a b. apply String.leb_antisym. Qed.

#[local] Instance hash_le_total {A} (hash : A → Hash) : Total (hash_le hash).
Proof. intros a b. apply String.leb_total. Qed.

(** The hashes of a sorted list depend on the members only. *)
Lemma Transfer_sort_hashes {A} (hash : A → Hash) (xs ys : list A) :
  xs ≡ₚ ys → hash <$> Transfer_sort hash xs = hash <$> Transfer_sort hash ys.
Proof.
  intros Hp. unfold Transfer_sort.
  apply (Sorted_unique bytes_le).
  - apply Sorted_fmap with (R1 := hash_le hash); [done|]. apply Sorted_merge_sort, _.
  - apply Sorted_fmap with (R1 := hash_le hash); [done|]. apply Sorted_merge_sort, _.
  - by rewrite !merge_sort_Permutation, Hp.
Qed.

End Order.

Section Build.

Context {lib : HiLib} {world : World}.

Lemma addTransfer_inr (transferDoc : Docs.Transfer) (d d' : Database) :
  addTransfer transferDoc d = (inr tt, d') →
  transfers d' !! Docs.t_hash transferDoc = Some transferDoc.
Proof.
  unfold addTransfer, add. rewrite bind_run. simpl.
  destruct (transfers d !! Docs.t_hash transferDoc); [done|].
  rewrite bind_run. simpl. intros [= <-]. simpl. by rewrite lookup_insert_eq.
Qed.

Lemma buildDirect_built (to : PublicKey) (amount : Z) (d d' : Database)
    (bountyDoc : Docs.Bounty) (transferDoc : Docs.Transfer) (transferHash : Hash) :
  buildDirect to amount d = (inr (Some (bountyDoc, transferDoc, transferHash)), d') →
  transfers d' !! Docs.t_hash transferDoc = Some transferDoc
  ∧ commits transferDoc
  ∧ Docs.t_hash transferDoc = transferHash
  ∧ Docs.t_status transferDoc = PENDING
  ∧ Docs.t_coinHashes transferDoc = Coin_hash <$> Docs.t_inputs transferDoc
  ∧ ∃ unspent found excess bounties,
      listUnspent d = (inr unspent, d)
      ∧ findAtLeast unspent (amount + Params_basicTransferFee) = Some (found, excess)
      ∧ transferHash =
          Transfer_hashOf (Coin_hash <$> Transfer_sort Coin_hash (Coin_fromPOD <$> found))
                          (Bounty_hash <$> Transfer_sort Bounty_hash bounties) None.
Proof.
  unfold buildDirect. intros H%transaction_inr.
  apply bind_inr in H as (unspent & d1 & Hunspent & H).
  assert (d1 = d) as ->.
  { destruct (listUnspent_run d) as (u & Hu & _). rewrite Hu in Hunspent. by injection Hunspent. }
  destruct (findAtLeast unspent _) as [[found excess]|] eqn:Hsel; [|done].
  apply bind_inr in H as (nonce & d2 & _ & H).
  apply bind_inr in H as ([] & d3 & _ & H).
  apply bind_inr in H as (bounties & d4 & _ & H).
  apply bind_inr in H as (owners & d5 & _ & H).
  apply bind_inr in H as (created & d6 & _ & H).
  apply bind_inr in H as ([] & d7 & Hadd & H).
  injection H as <- <- <- <-.
  split_and!; try done.
  - by apply addTransfer_inr in Hadd.
  - by exists unspent, found, excess, bounties.
Qed.

Lemma buildHookout_built (address : Address) (amount feeRate : Z) (d d' : Database)
    (transferDoc : Docs.Transfer) (transferHash : Hash) :
  buildHookout address amount feeRate d = (inr (Some (transferDoc, transferHash)), d') →
  transfers d' !! Docs.t_hash transferDoc = Some transferDoc
  ∧ commits transferDoc
  ∧ Docs.t_hash transferDoc = transferHash
  ∧ Docs.t_status transferDoc = PENDING
  ∧ Docs.t_coinHashes transferDoc = Coin_hash <$> Docs.t_inputs transferDoc
  ∧ ∃ unspent found excess bounties hookoutHash,
      listUnspent d = (inr unspent, d)
      ∧ findAtLeast unspent (amount + feeRate * Params_templateTransactionWeight)
        = Some (found, excess)
      ∧ length bounties ≤ 1
      ∧ transferHash =
          Transfer_hashOf (Coin_hash <$> Transfer_sort Coin_hash (Coin_fromPOD <$> found))
                          (Bounty_hash <$> bounties) (Some hookoutHash).
Proof.
  unfold buildHookout. intros H%transaction_inr.
  apply bind_inr in H as (unspent & d1 & Hunspent & H).
  assert (d1 = d) as ->.
  { destruct (listUnspent_run d) as (u & Hu & _). rewrite Hu in Hunspent. by injection Hunspent. }
  destruct (findAtLeast unspent _) as [[found excess]|] eqn:Hsel; [|done].
  apply bind_inr in H as (nonce & d2 & _ & H).
  apply bind_inr in H as (? & d3 & _ & H).
  apply bind_inr in H as (tbl & d3' & _ & H).
  apply bind_inr in H as ([] & d3'' & _ & H).
  apply bind_inr in H as (bounties & d4 & Hb & H).
  apply bind_inr in H as (owners & d5 & _ & H).
  apply bind_inr in H as ([] & d5' & _ & H).
  apply bind_inr in H as (created & d6 & _ & H).
  apply bind_inr in H as ([] & d7 & Hadd & H).
  injection H as <- <- <-.
  split_and!; try done.
  - by apply addTransfer_inr in Hadd.
  - eexists unspent, found, excess, bounties, _. split_and!; [done|done| |done].
    simpl in Hb. case_decide.
    + apply bind_inr in Hb as (change & ? & _ & Hb). by injection Hb as <- <-.
    + injection Hb as <- <-. simpl. lia.
Qed.

(** C6. A transfer built by the transaction of [sendDirect] or of
    [sendToBitcoinAddress] is stored, PENDING, under a hash that is the
    commitment recomputed from its stored coin hashes, bounty hashes and
    hookout hash, and that is the hash the method returns. The hash is the
    one of the sorted inputs and outputs, so any other order of construction
    of the same inputs and outputs gives the same hash. *)
Theorem built_transfer_commits (d d' : Database) (transferDoc : Docs.Transfer)
    (transferHash : Hash) :
  (∃ to amount bountyDoc,
     buildDirect to amount d = (inr (Some (bountyDoc, transferDoc, transferHash)), d'))
  ∨ (∃ address amount feeRate,
       buildHookout address amount feeRate d = (inr (Some (transferDoc, transferHash)), d')) →
  transfers d' !! Docs.t_hash transferDoc = Some transferDoc
  ∧ Transfer_hashOf (Docs.t_coinHashes transferDoc) (Docs.t_bountyHashes transferDoc)
                    (Docs.t_hookoutHash transferDoc)
    = Docs.t_hash transferDoc
  ∧ Docs.t_hash transferDoc = transferHash
  ∧ Docs.t_status transferDoc = PENDING
  ∧ Docs.t_coinHashes transferDoc = Coin_hash <$> Docs.t_inputs transferDoc
  ∧ ∃ inputs bounties hookoutHash,
      transferHash =
        Transfer_hashOf (Coin_hash <$> Transfer_sort Coin_hash inputs)
                        (Bounty_hash <$> Transfer_sort Bounty_hash bounties) hookoutHash
      ∧ ∀ inputs' bounties', inputs' ≡ₚ inputs → bounties' ≡ₚ bounties →
          Transfer_hashOf (Coin_hash <$> Transfer_sort Coin_hash inputs')
                          (Bounty_hash <$> Transfer_sort Bounty_hash bounties') hookoutHash
          = transferHash.
Proof.
  intros [(to & amount & bountyDoc & H) | (address & amount & feeRate & H)].
  - apply buildDirect_built in H
      as (Hstored & Hcommits & Hhash & Hstatus & Hcoins & unspent & found & excess & bounties
          & _ & _ & ->).
    split_and!; try done.
    exists (Coin_fromPOD <$> found), bounties, None. split; [done|].
    intros inputs' bounties' Hi Hb.
    by rewrite (Transfer_sort_hashes Coin_hash _ _ Hi),
               (Transfer_sort_hashes Bounty_hash _ _ Hb).
  - apply buildHookout_built in H
      as (Hstored & Hcommits & Hhash & Hstatus & Hcoins & unspent & found & excess & bounties
          & hookoutHash & _ & _ & Hlen & ->).
    split_and!; try done.
    exists (Coin_fromPOD <$> found), bounties, (Some hookoutHash).
    assert (Transfer_sort Bounty_hash bounties = bounties) as Hsorted.
    { destruct bounties as [|b [|b' bounties]]; [done|done|simpl in Hlen; lia]. }
    split; [by rewrite Hsorted|].
    intros inputs' bounties' Hi Hb.
    by rewrite (Transfer_sort_hashes Coin_hash _ _ Hi),
               (Transfer_sort_hashes Bounty_hash _ _ Hb), Hsorted.
Qed.

End Build.

Section Finalize.

Context {lib : HiLib} {world : World}.

Lemma set_transfers_history_id (d : Database) :
  set_transfers (λ _, transfers d) (set_history (λ _, history d) d) = d.
Proof. by destruct d. Qed.

Lemma transfers_history_only (d d' : Database) :
  bounties d' = bounties d → config d' = config d → claims d' = claims d →
  coins d' = coins d → hookins d' = hookins d →
  bitcoinAddresses d' = bitcoinAddresses d → directAddresses d' = directAddresses d →
  hookouts d' = hookouts d → seed d' = seed d →
  ∃ tbl h', d' = set_transfers (λ _, tbl) (set_history (λ _, h') d).
Proof.
  intros. exists (transfers d'), (history d'). destruct d, d'; simpl in *. by subst.
Qed.

Lemma reconciled_refl (d : Database) : reconciled d d.
Proof.
  split_and!; [done| |by left].
  exists (transfers d), (history d). by rewrite set_transfers_history_id.
Qed.

Lemma reconciled_trans (d1 d2 d3 : Database) :
  reconciled d1 d2 → reconciled d2 d3 → reconciled d1 d3.
Proof.
  intros (Hp1 & (t1 & h1 & ->) & Hk1) (Hp2 & (t2 & h2 & ->) & Hk2). split_and!.
  - by etrans.
  - by exists t2, h2.
  - intros k. destruct (Hk2 k) as [Heq|?]; [|by right]. rewrite Heq. apply Hk1.
Qed.

Lemma reconcileInput_run (coin : hi.Coin) (d : Database) :
  ∃ d', reconcileInput coin d = (inr tt, d')
  ∧ reconciled d d'
  ∧ (history d ++ [EvLookupCoin (hi.owner coin)]) `prefix_of` history d'
  ∧ ∀ transferHash conflictTransfer,
      lookupCoin (history d) (hi.owner coin) = Some transferHash →
      lookupTransfer (history d ++ [EvLookupCoin (hi.owner coin)]) transferHash
        = Some conflictTransfer →
      ∃ row, transfers d' !! Transfer_hash (hi.at_contents conflictTransfer) = Some row
             ∧ conflictRow row.
Proof.
  unfold reconcileInput, callLookupCoin, callLookupTransfer, putTransfer. run.
  destruct (lookupCoin (history d) (hi.owner coin)) as [th|] eqn:Hcoin; simpl.
  2:{ eexists. split; [reflexivity|]. split; [|split; [by simpl|by intros ? ? [=]]].
      split_and!; simpl; [by apply prefix_app_r| |by left].
      by apply transfers_history_only. }
  destruct (lookupTransfer (history d ++ [EvLookupCoin (hi.owner coin)]) th) as [ct|] eqn:Hct;
    simpl.
  2:{ eexists. split; [reflexivity|]. split; [|split; [|intros ? ? [= <-]; by rewrite Hct]].
      - split_and!; simpl; [by rewrite <- !app_assoc; apply prefix_app_r| |by left].
        by apply transfers_history_only.
      - simpl. by apply prefix_app_r. }
  eexists. split; [reflexivity|].
  assert (conflictRow (conflictTransferDoc ct
            (now ((history d ++ [EvLookupCoin (hi.owner coin)]) ++ [EvLookupTransfer th]))))
    as Hrow by (by eexists _, _, _, _).
  split; [|split]; simpl.
  - split_and!; simpl.
    + rewrite <- !app_assoc. by apply prefix_app_r.
    + by apply transfers_history_only.
    + intros k.
      destruct (decide (Transfer_hash (hi.at_contents ct) = k)) as [<-|Hne].
      * right. eexists. by rewrite lookup_insert_eq.
      * left. by rewrite lookup_insert_ne.
  - rewrite <- !app_assoc. rewrite (app_assoc (history d)). by apply prefix_app_r.
  - intros ? ? [= <-]. rewrite Hct. intros [= <-]. eexists. by rewrite lookup_insert_eq.
Qed.

(** The loop over the inputs of a transfer found spent. *)
Lemma reconcile_loop (inputs : list hi.Coin) (d : Database) :
  ∃ d', forEach inputs reconcileInput d = (inr tt, d')
  ∧ reconciled d d'
  ∧ ∀ coin, coin ∈ inputs →
      ∃ h, history d `prefix_of` h
           ∧ (h ++ [EvLookupCoin (hi.owner coin)]) `prefix_of` history d'
           ∧ ∀ transferHash conflictTransfer,
               lookupCoin h (hi.owner coin) = Some transferHash →
               lookupTransfer (h ++ [EvLookupCoin (hi.owner coin)]) transferHash
                 = Some conflictTransfer →
               ∃ row, transfers d' !! Transfer_hash (hi.at_contents conflictTransfer)
                        = Some row
                      ∧ conflictRow row.
Proof.
  revert d. induction inputs as [|coin inputs IH]; intros d.
  - exists d. split; [done|]. split; [apply reconciled_refl|]. intros coin Hc.
    by apply elem_of_nil in Hc.
  - rewrite forEach_cons.
    destruct (reconcileInput_run coin d) as (d1 & -> & Hr1 & Hp1 & Hfound1).
    destruct (IH d1) as (d' & -> & Hr2 & Hfound2).
    exists d'. split; [done|]. split; [by eapply reconciled_trans|].
    intros c [->|Hc]%elem_of_cons.
    + exists (history d). split_and!; [done| |].
      * etrans; [done|]. apply Hr2.
      * intros th ct Hth Hct. destruct (Hfound1 th ct Hth Hct) as (row & Hrow & Hcr).
        destruct Hr2 as (_ & _ & Hk).
        destruct (Hk (Transfer_hash (hi.at_contents ct))) as [Heq|(row' & ? & ? & ?)].
        -- exists row. by rewrite Heq.
        -- by exists row'.
    + destruct (Hfound2 c Hc) as (h & Hp & Hp' & Hf). exists h. split_and!; [|done|done].
      etrans; [|done]. apply Hr1.
Qed.


Lemma forM_bounties (hashes : list Hash) (d : Database) :
  forM hashes (λ bountyHash, d ← get; mustExist (bounties d !! bountyHash)) d
  = (match mapM (λ bountyHash, bounties d !! bountyHash) hashes with
     | Some docs => inr docs
     | None => inl MustExist
     end, d).
Proof.
  induction hashes as [|x xs IH]; [done|].
  simpl. rewrite bind_run, bind_run. simpl.
  destruct (bounties d !! x) as [b|]; simpl; [|done].
  rewrite bind_run, IH. by destruct (mapM _ xs).
Qed.


End Finalize.

Section Discovery.

Context {lib : HiLib} {world : World}.

Lemma deriveBitcoinAddressIndex_loaded (d : Database) (s : Bytes) (i : Z) :
  seed d = Some s → deriveBitcoinAddressIndex i d = (bitcoinAddressAt s i, d).
Proof.
  intros Hs.
  unfold deriveBitcoinAddressIndex, deriveBitcoinAddress, bitcoinAddressAt,
    seedToBitcoinAddressGenerator.
  rewrite bind_run, (loadedSeed_loaded d s Hs), bind_run. unfold notError at 1.
  destruct (PrivateKey_fromBytes (Hash_fromMessage "bitcoinAddressGenerator" [s]));
    [|done].
  unfold ret at 1. cbv beta iota zeta. rewrite bind_run. unfold notError.
  by destruct (PrivateKey_fromBytes _).
Qed.

Lemma fetches_app (h1 h2 : list Event) : fetches (h1 ++ h2) = fetches h1 ++ fetches h2.
Proof. unfold fetches. apply omap_app. Qed.

Lemma hookinsClaimed_refl (d : Database) : hookinsClaimed d d.
Proof.
  exists (claims d), (coins d), (hookins d), []. split; [|done].
  destruct d. setters. by rewrite app_nil_r.
Qed.

Lemma hookinsClaimed_trans (d1 d2 d3 : Database) :
  hookinsClaimed d1 d2 → hookinsClaimed d2 d3 → hookinsClaimed d1 d3.
Proof.
  intros (cl & co & hk & evs & -> & He) (cl' & co' & hk' & evs' & -> & He').
  exists cl', co', hk', (evs ++ evs'). split.
  - destruct d1. setters. by rewrite app_assoc.
  - by rewrite fetches_app, He, He'.
Qed.

Lemma hookinsClaimed_intro (d d' : Database) (evs : list Event) :
  bounties d' = bounties d → config d' = config d →
  bitcoinAddresses d' = bitcoinAddresses d → directAddresses d' = directAddresses d →
  hookouts d' = hookouts d → transfers d' = transfers d → seed d' = seed d →
  history d' = history d ++ evs → fetches evs = [] →
  hookinsClaimed d d'.
Proof.
  intros. exists (claims d'), (coins d'), (hookins d'), evs. split; [|done].
  destruct d, d'; simpl in *. by subst.
Qed.

Lemma claimedOnly_intro (d d' : Database) (evs : list Event) :
  bounties d' = bounties d → config d' = config d → hookins d' = hookins d →
  bitcoinAddresses d' = bitcoinAddresses d → directAddresses d' = directAddresses d →
  hookouts d' = hookouts d → transfers d' = transfers d → seed d' = seed d →
  history d' = history d ++ evs → fetches evs = [] →
  claimedOnly d d'.
Proof.
  intros. exists (claims d'), (coins d'), evs. split; [|done].
  destruct d, d'; simpl in *. by subst.
Qed.

Lemma claimedOnly_hookins (d d' : Database) :
  claimedOnly d d' → hookins d' = hookins d ∧ hookinsClaimed d d'.
Proof.
  intros (cl & co & evs & -> & He). split; [done|]. by eapply hookinsClaimed_intro.
Qed.

(** A hookin on a known address, claimed where the server accepts claims. *)
Lemma claimHookin_accepted (hookinDoc : Docs.Hookin) (d : Database) (s : Bytes)
    (bitcoinAddressDoc : Docs.BitcoinAddress) (info : PrivateKey * Address) :
  (∀ h sd k c ms, ∃ r, makeClaim h sd k c ms = inr r) →
  seed d = Some s →
  bitcoinAddresses d !! Docs.h_bitcoinAddress hookinDoc = Some bitcoinAddressDoc →
  bitcoinAddressAt s (Docs.ba_index bitcoinAddressDoc) = inr info →
  ∃ d', claimHookin hookinDoc d = (inr tt, d') ∧ claimedOnly d d'.
Proof.
  intros Haccept Hs Ha Hinfo.
  destruct (claims d !! Docs.h_hash hookinDoc) as [claim|] eqn:Hc.
  { exists d. split; [by apply claimHookin_claimed|].
    apply (claimedOnly_intro d d []); try done. by rewrite app_nil_r. }
  rewrite (claimHookin_first hookinDoc d bitcoinAddressDoc info); [|done|done|].
  2:{ by rewrite (deriveBitcoinAddressIndex_loaded d s), Hinfo. }
  match goal with |- context [callMakeClaim ?k ?c ?ms] =>
    pose proof (roundTrip_run k c ms d) as Hrt;
    destruct (Haccept (history d) (seed d) k c ms) as (r & Hr) end.
  rewrite Hr in Hrt. destruct Hrt as (d' & Hrun & Hd'). exists d'. split; [done|].
  destruct Hd' as [-> | (co & ->)];
    by eapply claimedOnly_intro.
Qed.

(** [addHookins] on a stored address: it returns, and the hookins are those
    before and one document per receipt. *)
Lemma addHookins_run (bitcoinAddressDoc : Docs.BitcoinAddress)
    (receives : list BitcoinReceiveInfo) (d : Database) (s : Bytes)
    (info : PrivateKey * Address) :
  (∀ h sd k c ms, ∃ r, makeClaim h sd k c ms = inr r) →
  seed d = Some s →
  bitcoinAddresses d !! Docs.ba_address bitcoinAddressDoc = Some bitcoinAddressDoc →
  bitcoinAddressAt s (Docs.ba_index bitcoinAddressDoc) = inr info →
  ∃ d', addHookins bitcoinAddressDoc receives d = (inr tt, d')
  ∧ hookinsClaimed d d'
  ∧ (∀ k, hookins d' !! k = hookins d !! k
          ∨ ∃ receive created, receive ∈ receives
              ∧ k = Hookin_hash (hookinOf bitcoinAddressDoc receive)
              ∧ hookins d' !! k = Some (hookinDocOf bitcoinAddressDoc receive created))
  ∧ (∀ receive, receive ∈ receives →
       ∃ receive' created, receive' ∈ receives
         ∧ hookins d' !! Hookin_hash (hookinOf bitcoinAddressDoc receive)
           = Some (hookinDocOf bitcoinAddressDoc receive' created)).
Proof.
  intros Haccept. unfold addHookins.
  revert d. induction receives as [|receive receives IH]; intros d Hs Ha Hinfo.
  - exists d. split_and!; [done|apply hookinsClaimed_refl|by left|].
    intros receive Hr. by apply elem_of_nil in Hr.
  - rewrite forEach_cons, bind_run. unfold interact at 1. cbv beta iota.
    rewrite bind_run. unfold modify at 1. cbv beta iota.
    set (created := now (history d)).
    set (doc := hookinDocOf bitcoinAddressDoc receive created).
    set (d1 := set_hookins (insert (Docs.h_hash doc) doc)
                 (set_history (λ h, h ++ [EvDate]) d)).
    destruct (claimHookin_accepted doc d1 s bitcoinAddressDoc info Haccept)
      as (d2 & -> & Hstep2); [done|done|done|].
    apply claimedOnly_hookins in Hstep2 as [Hh2 Hstep2].
    assert (hookinsClaimed d d1) as Hstep1 by (by eapply hookinsClaimed_intro).
    assert (hookinsClaimed d d2) as Hstep by (by eapply hookinsClaimed_trans).
    destruct (IH d2) as (d' & -> & Hstep' & Hkeys & Hadded).
    { destruct Hstep as (? & ? & ? & ? & -> & _). done. }
    { destruct Hstep as (? & ? & ? & ? & -> & _). done. }
    { done. }
    exists d'. split_and!; [done|by eapply hookinsClaimed_trans| |].
    + intros k. destruct (Hkeys k) as [Heq|(r & c & Hr & Hk & Hrow)].
      * rewrite Heq, Hh2. subst d1. simpl.
        destruct (decide (Docs.h_hash doc = k)) as [<-|Hne].
        -- right. exists receive, created. rewrite lookup_insert_eq.
           split_and!; [left|done|done].
        -- left. by rewrite lookup_insert_ne.
      * right. exists r, c. split_and!; [by right|done|done].
    + intros r [->|Hr]%elem_of_cons.
      * destruct (Hkeys (Hookin_hash (hookinOf bitcoinAddressDoc receive)))
          as [Heq|(r' & c & Hr' & Hk & Hrow)].
        -- exists receive, created. split; [left|]. rewrite Heq, Hh2. subst d1. simpl.
           by rewrite lookup_insert_eq.
        -- exists r', c. split; [by right|done].
      * destruct (Hadded r Hr) as (r' & c & Hr' & Hrow). exists r', c.
        split; [by right|done].
Qed.

Lemma probe_unfold (fuel : nat) (gapLimit checkIndex lastAddressIndex gapCount : Z) :
  probe (S fuel) gapLimit checkIndex lastAddressIndex gapCount =
  if decide (gapCount < gapLimit)%Z then
    info ← deriveBitcoinAddressIndex checkIndex;
    let bitcoinAddress := info.2 in
    receives ← callFetchBitcoinReceives bitcoinAddress;
    if decide (0 < length receives) then
      forEach (reverse (seqZ (lastAddressIndex + 1) (checkIndex - 1 - lastAddressIndex)))
              (λ addIndex, addBitcoinAddress addIndex;; ret tt);;
      bitcoinAddressDoc ← addBitcoinAddress checkIndex;
      addHookins bitcoinAddressDoc receives;;
      probe fuel gapLimit (checkIndex + 1)%Z checkIndex 0%Z
    else
      probe fuel gapLimit (checkIndex + 1)%Z lastAddressIndex (gapCount + 1)%Z
  else ret (Some tt).
Proof. reflexivity. Qed.

Lemma probe_done (fuel : nat) (gapLimit checkIndex lastAddressIndex gapCount : Z)
    (d : Database) :
  ¬ (gapCount < gapLimit)%Z →
  probe fuel gapLimit checkIndex lastAddressIndex gapCount d = (inr (Some tt), d).
Proof.
  intros Hgap. destruct fuel.
  - change (probe 0 gapLimit checkIndex lastAddressIndex gapCount)
      with (if decide (gapCount < gapLimit)%Z then ret None else ret (Some tt)).
    by rewrite decide_False.
  - by rewrite probe_unfold, decide_False.
Qed.

(** An empty probe: one more event, one more in the gap count. *)
Lemma probe_empty (fuel : nat) (gapLimit checkIndex lastAddressIndex gapCount : Z)
    (d : Database) (s : Bytes) (info : PrivateKey * Address) :
  seed d = Some s → bitcoinAddressAt s checkIndex = inr info →
  fetchBitcoinReceives (history d) info.2 = [] →
  (gapCount < gapLimit)%Z →
  probe (S fuel) gapLimit checkIndex lastAddressIndex gapCount d
  = probe fuel gapLimit (checkIndex + 1)%Z lastAddressIndex (gapCount + 1)%Z
          (set_history (λ h, h ++ [EvFetchBitcoinReceives info.2]) d).
Proof.
  intros Hs Hinfo Hrecv Hgap. rewrite probe_unfold, decide_True by done.
  rewrite bind_run, (deriveBitcoinAddressIndex_loaded d s), Hinfo by done.
  cbv zeta. rewrite bind_run. unfold callFetchBitcoinReceives, interact.
  rewrite Hrecv. by rewrite decide_False by (simpl; lia).
Qed.

Lemma addBitcoinAddress_fresh (index : Z) (d : Database) (s : Bytes)
    (info : PrivateKey * Address) :
  seed d = Some s → bitcoinAddressAt s index = inr info →
  index_taken Docs.ba_index (bitcoinAddresses d) info.2 index = false →
  let doc := Docs.mkBitcoinAddress info.2 (PrivateKey_toPublicKey info.1) index in
  addBitcoinAddress index d
  = (inr doc, set_bitcoinAddresses (λ _, <[info.2 := doc]> (bitcoinAddresses d)) d).
Proof.
  intros Hs Hinfo Hfree doc. unfold addBitcoinAddress.
  rewrite bind_run, (deriveBitcoinAddressIndex_loaded d s), Hinfo by done.
  cbv zeta. rewrite bind_run. simpl. rewrite bind_run. unfold put_unique. simpl.
  by rewrite Hfree.
Qed.

(** A probe that finds receipts on the index next to the last address:
    the address is stored, its hookins are added and claimed, and the scan
    goes on from there with an empty gap. *)
Lemma probe_hit (fuel : nat) (gapLimit checkIndex gapCount : Z)
    (d : Database) (s : Bytes) (info : PrivateKey * Address) :
  (∀ h sd k c ms, ∃ r, makeClaim h sd k c ms = inr r) →
  seed d = Some s → bitcoinAddressAt s checkIndex = inr info →
  fetchBitcoinReceives (history d) info.2 ≠ [] →
  index_taken Docs.ba_index (bitcoinAddresses d) info.2 checkIndex = false →
  (gapCount < gapLimit)%Z →
  let doc := Docs.mkBitcoinAddress info.2 (PrivateKey_toPublicKey info.1) checkIndex in
  let receives := fetchBitcoinReceives (history d) info.2 in
  ∃ d2,
    probe (S fuel) gapLimit checkIndex (checkIndex - 1) gapCount d
    = probe fuel gapLimit (checkIndex + 1)%Z checkIndex 0%Z d2
    ∧ hookinsClaimed
        (set_bitcoinAddresses (λ _, <[info.2 := doc]> (bitcoinAddresses d))
           (set_history (λ h, h ++ [EvFetchBitcoinReceives info.2]) d)) d2
    ∧ (∀ k, hookins d2 !! k = hookins d !! k
            ∨ ∃ receive created, receive ∈ receives
                ∧ k = Hookin_hash (hookinOf doc receive)
                ∧ hookins d2 !! k = Some (hookinDocOf doc receive created))
    ∧ (∀ receive, receive ∈ receives →
         ∃ receive' created, receive' ∈ receives
           ∧ hookins d2 !! Hookin_hash (hookinOf doc receive)
             = Some (hookinDocOf doc receive' created)).
Proof.
  intros Haccept Hs Hinfo Hrecv Hfree Hgap doc receives.
  rewrite probe_unfold, decide_True by done.
  rewrite bind_run, (deriveBitcoinAddressIndex_loaded d s), Hinfo by done.
  cbv zeta. rewrite bind_run. unfold callFetchBitcoinReceives, interact.
  fold receives. rewrite decide_True.
  2:{ subst receives. simpl.
      destruct (fetchBitcoinReceives (history d) info.2); [done|simpl; lia]. }
  replace (checkIndex - 1 - (checkIndex - 1))%Z with 0%Z by lia.
  rewrite bind_run. simpl forEach. unfold ret at 1. cbv beta iota.
  set (d1 := set_history (λ h, h ++ [EvFetchBitcoinReceives info.2]) d).
  rewrite bind_run, (addBitcoinAddress_fresh checkIndex d1 s info) by done.
  fold doc. rewrite bind_run.
  destruct (addHookins_run doc receives
              (set_bitcoinAddresses (λ _, <[info.2 := doc]> (bitcoinAddresses d1)) d1)
              s info Haccept)
    as (d2 & -> & Hstep & Hkeys & Hadded); [done| |done|].
  { simpl. by rewrite lookup_insert_eq. }
  by exists d2.
Qed.

(** C3, as amended. With gap limit 3, no stored address, receipts reported
    at the indices 0 and 4 only and a server that accepts claims,
    [syncBitcoinAddresses] probes the indices 0, 1, 2 and 3 and stops there:
    the three empty probes after index 0 reach the gap limit, so index 4 is
    never probed. It stores the one address of index 0 and hookins for the
    receipts of index 0 only. *)
Theorem syncBitcoinAddresses_gap_limit_3 (d : Database) (s : Bytes) (cfg : Config)
    (fuel : nat) (key : Z → PrivateKey) (addr : Z → Address) :
  seed d = Some s → config d = Some cfg → cfg_gapLimit cfg = 3%Z →
  bitcoinAddresses d = ∅ →
  (∀ i, (0 ≤ i ≤ 4)%Z → bitcoinAddressAt s i = inr (key i, addr i)) →
  (∀ h i, (0 ≤ i ≤ 4)%Z → (fetchBitcoinReceives h (addr i) ≠ [] ↔ i = 0%Z ∨ i = 4%Z)) →
  (∀ h sd k c ms, ∃ r, makeClaim h sd k c ms = inr r) →
  4 ≤ fuel →
  let doc := Docs.mkBitcoinAddress (addr 0%Z) (PrivateKey_toPublicKey (key 0%Z)) 0 in
  let receives := fetchBitcoinReceives (history d) (addr 0%Z) in
  ∃ d', syncBitcoinAddresses fuel d = (inr (Some tt), d')
  ∧ bitcoinAddresses d' = {[addr 0%Z := doc]}
  ∧ fetches (history d') = fetches (history d) ++ [addr 0%Z; addr 1%Z; addr 2%Z; addr 3%Z]
  ∧ (∀ k, hookins d' !! k = hookins d !! k
          ∨ ∃ receive created, receive ∈ receives
              ∧ k = Hookin_hash (hookinOf doc receive)
              ∧ hookins d' !! k = Some (hookinDocOf doc receive created))
  ∧ (∀ receive, receive ∈ receives →
       ∃ receive' created, receive' ∈ receives
         ∧ hookins d' !! Hookin_hash (hookinOf doc receive)
           = Some (hookinDocOf doc receive' created)).
Proof.
  intros Hs Hcfg Hlimit Hempty Hderive Hrecv Haccept Hfuel doc receives.
  destruct fuel as [|[|[|[|fuel]]]]; try lia. clear Hfuel.
  assert (∀ h i, (1 ≤ i ≤ 3)%Z → fetchBitcoinReceives h (addr i) = []) as Hnone.
  { intros h i Hi. destruct (fetchBitcoinReceives h (addr i)) eqn:E; [done|].
    assert (fetchBitcoinReceives h (addr i) ≠ []) as Hne by (by rewrite E).
    apply Hrecv in Hne; lia. }
  unfold syncBitcoinAddresses, getConfig.
  rewrite bind_run, bind_run. unfold get at 1. cbv beta iota. rewrite Hcfg.
  unfold mustExist, ret at 1. cbv beta iota zeta. rewrite Hlimit, bind_run.
  unfold get at 1. cbv beta iota. rewrite Hempty. unfold orderBy.
  rewrite map_to_list_empty. simpl. rewrite bind_run. unfold ret at 1. cbv beta iota.
  destruct (probe_hit (S (S (S fuel))) 3 0 0 d s (key 0%Z, addr 0%Z) Haccept Hs)
    as (d2 & Hhit & Hstep & Hkeys & Hadded).
  { apply Hderive. lia. }
  { apply Hrecv; [lia|by left]. }
  { rewrite Hempty. unfold index_taken. by rewrite map_to_list_empty. }
  { lia. }
  change (0 - 1)%Z with (-1)%Z in Hhit. change (0 + 1)%Z with 1%Z in Hhit.
  change (-1 + 1)%Z with 0%Z. rewrite Hhit. clear Hhit.
  destruct Hstep as (cl & co & hk & evs & -> & Hevs). simpl in Hkeys, Hadded.
  rewrite (probe_empty _ _ _ _ _ _ s (key 1%Z, addr 1%Z)); simpl;
    [|done|apply Hderive; lia|apply Hnone; lia|lia].
  rewrite (probe_empty _ _ _ _ _ _ s (key 2%Z, addr 2%Z)); simpl;
    [|done|apply Hderive; lia|apply Hnone; lia|lia].
  rewrite (probe_empty _ _ _ _ _ _ s (key 3%Z, addr 3%Z)); simpl;
    [|done|apply Hderive; lia|apply Hnone; lia|lia].
  rewrite probe_done by lia.
  eexists. split; [reflexivity|]. simpl. split_and!.
  - by rewrite Hempty, insert_empty.
  - rewrite !fetches_app, Hevs. simpl. rewrite <- !app_assoc. done.
  - done.
  - done.
Qed.

End Discovery.

Section ClaimCases.

Context {lib : HiLib} {world : World}.

Lemma claimsMade_refl (P : Event → Prop) (d : Database) : claimsMade P d d.
Proof.
  exists (claims d), (coins d), []. split; [|done].
  destruct d. setters. by rewrite app_nil_r.
Qed.

Lemma claimsMade_trans (P : Event → Prop) (d1 d2 d3 : Database) :
  claimsMade P d1 d2 → claimsMade P d2 d3 → claimsMade P d1 d3.
Proof.
  intros (cl & co & evs & -> & He) (cl' & co' & evs' & -> & He').
  exists cl', co', (evs ++ evs'). split.
  - destruct d1. setters. by rewrite app_assoc.
  - by apply Forall_app.
Qed.

Lemma claimsMade_intro (P : Event → Prop) (d d' : Database) (evs : list Event) :
  bounties d' = bounties d → config d' = config d → hookins d' = hookins d →
  bitcoinAddresses d' = bitcoinAddresses d → directAddresses d' = directAddresses d →
  hookouts d' = hookouts d → transfers d' = transfers d → seed d' = seed d →
  history d' = history d ++ evs → Forall P evs →
  claimsMade P d d'.
Proof.
  intros. exists (claims d'), (coins d'), evs. split; [|done].
  destruct d, d'; simpl in *. by subst.
Qed.

Lemma claimed_claimsMade (P : Event → Prop) (d d' : Database) (ev : Event)
    (r : hi.AcknowledgedClaimResponse) :
  P ev → claimed d ev r d' → claimsMade P d d'.
Proof.
  intros Hev [-> | (co & ->)]; eapply (claimsMade_intro _ _ _ [ev]); try done.
  all: by apply Forall_singleton.
Qed.

(** The three ways of [claimBountyWithAddress]: the guard, a failed
    derivation, the round trip. *)
Lemma claimBountyWithAddress_cases (bountyDoc : Docs.Bounty) (address : Docs.DirectAddress)
    (d : Database) :
  (is_Some (claims d !! Docs.b_hash bountyDoc)
   ∧ claimBountyWithAddress bountyDoc address d = (inr tt, d))
  ∨ (∃ e, claimBountyWithAddress bountyDoc address d = (inl e, d))
  ∨ (∃ claimant,
       claims d !! Docs.b_hash bountyDoc = None
       ∧ deriveClaimantIndex (Docs.da_index address) (Docs.da_isInternal address) d
         = (inr claimant, d)
       ∧ let ev := EvMakeClaim claimant (ClaimBounty (Bounty_fromPOD bountyDoc))
                     (amountToMagnitudes (Docs.b_amount bountyDoc)) in
         match makeClaim (history d) (seed d) claimant (ClaimBounty (Bounty_fromPOD bountyDoc))
                         (amountToMagnitudes (Docs.b_amount bountyDoc)) with
         | inl e => claimBountyWithAddress bountyDoc address d
                    = (inl (Thrown e), set_history (λ h, h ++ [ev]) d)
         | inr r => ∃ d', claimBountyWithAddress bountyDoc address d = (inr tt, d')
                          ∧ claimed d ev r d'
         end).
Proof.
  destruct (claims d !! Docs.b_hash bountyDoc) as [claim|] eqn:Hc.
  { left. split; [done|]. by apply claimBountyWithAddress_claimed. }
  right.
  pose proof (deriveClaimant_state (Buffutils_fromVarInt (Docs.da_index address))
                (Docs.da_isInternal address) d) as Hst.
  fold (deriveClaimantIndex (Docs.da_index address) (Docs.da_isInternal address)) in Hst.
  destruct (deriveClaimantIndex (Docs.da_index address) (Docs.da_isInternal address) d)
    as [[e|claimant] d2] eqn:Hk; simpl in Hst; subst d2.
  { left. exists e. unfold claimBountyWithAddress. rewrite bind_run. simpl.
    by rewrite Hc, bind_run, Hk. }
  right. exists claimant. split; [done|]. split; [done|].
  rewrite (claimBountyWithAddress_first bountyDoc address d claimant) by done.
  apply roundTrip_run.
Qed.

(** The ways of [claimHookin]: the guard, an unknown address or a failed
    derivation, the round trip. *)
Lemma claimHookin_cases (hookinDoc : Docs.Hookin) (d : Database) :
  (is_Some (claims d !! Docs.h_hash hookinDoc) ∧ claimHookin hookinDoc d = (inr tt, d))
  ∨ (∃ e, claimHookin hookinDoc d = (inl e, d))
  ∨ (∃ bitcoinAddressDoc info,
       claims d !! Docs.h_hash hookinDoc = None
       ∧ bitcoinAddresses d !! Docs.h_bitcoinAddress hookinDoc = Some bitcoinAddressDoc
       ∧ deriveBitcoinAddressIndex (Docs.ba_index bitcoinAddressDoc) d = (inr info, d)
       ∧ let c := ClaimHookin (Hookin_fromPOD hookinDoc) in
         let magnitudes :=
           amountToMagnitudes (Docs.h_amount hookinDoc - Params_transactionConsolidationFee) in
         let ev := EvMakeClaim info.1 c magnitudes in
         match makeClaim (history d) (seed d) info.1 c magnitudes with
         | inl e => claimHookin hookinDoc d = (inl (Thrown e), set_history (λ h, h ++ [ev]) d)
         | inr r => ∃ d', claimHookin hookinDoc d = (inr tt, d') ∧ claimed d ev r d'
         end).
Proof.
  destruct (claims d !! Docs.h_hash hookinDoc) as [claim|] eqn:Hc.
  { left. split; [done|]. by apply claimHookin_claimed. }
  right.
  destruct (bitcoinAddresses d !! Docs.h_bitcoinAddress hookinDoc) as [ba|] eqn:Ha.
  2:{ left. exists MustExist. unfold claimHookin. rewrite bind_run. simpl.
      by rewrite Hc, bind_run, Ha. }
  pose proof (deriveBitcoinAddress_state (Buffutils_fromUint8 (Docs.ba_index ba)) d) as Hst.
  fold (deriveBitcoinAddressIndex (Docs.ba_index ba)) in Hst.
  destruct (deriveBitcoinAddressIndex (Docs.ba_index ba) d) as [[e|info] d2] eqn:Hinfo;
    simpl in Hst; subst d2.
  { left. exists e. unfold claimHookin. rewrite bind_run. simpl.
    rewrite Hc, bind_run, Ha. simpl. by rewrite bind_run, Hinfo. }
  right. exists ba, info. split_and!; [done..|].
  rewrite (claimHookin_first hookinDoc d ba info) by done.
  apply roundTrip_run.
Qed.


(** X3. A claim routine that throws has stored nothing: every table is as
    before. It throws before any request when the address of the hookin or
    of the bounty is not stored, when the wallet is locked or when a key
    cannot be derived; once the request is made it throws only what the
    server answered, and then the request is the one event recorded. *)
Theorem failed_claim_stores_nothing (d d' : Database) (e : Exn) :
  (∃ hookinDoc, claimHookin hookinDoc d = (inl e, d'))
  ∨ (∃ bountyDoc, claimBounty bountyDoc d = (inl e, d'))
  ∨ (∃ bountyDoc address, claimBountyWithAddress bountyDoc address d = (inl e, d')) →
  d' = d
  ∨ ∃ claimant c magnitudes requestError,
      makeClaim (history d) (seed d) claimant c magnitudes = inl requestError
      ∧ e = Thrown requestError
      ∧ d' = set_history (λ h, h ++ [EvMakeClaim claimant c magnitudes]) d.
Proof.
  assert (∀ bountyDoc address, claimBountyWithAddress bountyDoc address d = (inl e, d') →
    d' = d
    ∨ ∃ claimant c magnitudes requestError,
        makeClaim (history d) (seed d) claimant c magnitudes = inl requestError
        ∧ e = Thrown requestError
        ∧ d' = set_history (λ h, h ++ [EvMakeClaim claimant c magnitudes]) d) as Hbounty.
  { intros bountyDoc address Hrun.
    destruct (claimBountyWithAddress_cases bountyDoc address d)
      as [[_ H]|[(e' & H)|(claimant & _ & _ & H)]].
    - by rewrite H in Hrun.
    - rewrite H in Hrun. left. by injection Hrun.
    - destruct (makeClaim _ _ _ _ _) as [re|r] eqn:Hm.
      + rewrite H in Hrun. injection Hrun as <- <-. right. by eexists _, _, _, _.
      + destruct H as (d1 & H & _). by rewrite H in Hrun. }
  intros [(hookinDoc & Hrun)|[(bountyDoc & Hrun)|(bountyDoc & address & Hrun)]].
  - destruct (claimHookin_cases hookinDoc d)
      as [[_ H]|[(e' & H)|(ba & info & _ & _ & _ & H)]].
    + by rewrite H in Hrun.
    + rewrite H in Hrun. left. by injection Hrun.
    + cbv zeta in H. destruct (makeClaim _ _ _ _ _) as [re|r] eqn:Hm.
      * rewrite H in Hrun. injection Hrun as <- <-. right. by eexists _, _, _, _.
      * destruct H as (d1 & H & _). by rewrite H in Hrun.
  - unfold claimBounty in Hrun. rewrite bind_run in Hrun. simpl in Hrun.
    rewrite bind_run in Hrun.
    destruct (directAddresses d !! Docs.b_claimant bountyDoc) as [address|]; simpl in Hrun.
    + by eapply Hbounty.
    + left. by injection Hrun.
  - by eapply Hbounty.
Qed.

End ClaimCases.

Section FinalizeMore.

Context {lib : HiLib} {world : World}.

Lemma claimBountyWithAddress_made (P : Event → Prop) (bountyDoc : Docs.Bounty)
    (address : Docs.DirectAddress) (d : Database) :
  (∀ claimant, P (EvMakeClaim claimant (ClaimBounty (Bounty_fromPOD bountyDoc))
                              (amountToMagnitudes (Docs.b_amount bountyDoc)))) →
  claimsMade P d (claimBountyWithAddress bountyDoc address d).2.
Proof.
  intros HP.
  destruct (claimBountyWithAddress_cases bountyDoc address d)
    as [[_ ->]|[(e & ->)|(claimant & _ & _ & Hrt)]]; simpl.
  - apply claimsMade_refl.
  - apply claimsMade_refl.
  - destruct (makeClaim _ _ _ _ _) as [e|r].
    + rewrite Hrt. simpl. eapply (claimsMade_intro _ _ _ [_]); try done.
      by apply Forall_singleton.
    + destruct Hrt as (d' & -> & Hcl). simpl. by eapply claimed_claimsMade.
Qed.

Lemma claimsMade_directAddresses (P : Event → Prop) (d d' : Database) :
  claimsMade P d d' → directAddresses d' = directAddresses d.
Proof. by intros (cl & co & evs & -> & _). Qed.

(** The background claims of [finalizeTransfer]: requests for bounties of
    the transfer whose claimant is a stored direct address, and nothing
    else. *)
Lemma claimOwnBounties_made (all bountyDocs : list Docs.Bounty) (d : Database) :
  bountyDocs ⊆ all →
  claimsMade (bountyClaimEvent all (directAddresses d)) d (claimOwnBounties bountyDocs d).2.
Proof.
  unfold claimOwnBounties.
  revert d. induction bountyDocs as [|b bs IH]; intros d Hsub.
  - apply claimsMade_refl.
  - rewrite forEach_cons, bind_run. unfold get at 1. cbv beta iota.
    assert (bs ⊆ all) as Hbs by (intros x Hx; apply Hsub; by right).
    destruct (directAddresses d !! Docs.b_claimant b) as [address|] eqn:Ha.
    + assert (claimsMade (bountyClaimEvent all (directAddresses d)) d
                (claimBountyWithAddress b address d).2) as Hstep.
      { apply claimBountyWithAddress_made. intros claimant. exists claimant, b.
        split_and!; [done| |by rewrite Ha]. apply Hsub. by left. }
      destruct (claimBountyWithAddress b address d) as [[e|[]] d1]; simpl in Hstep; [done|].
      eapply claimsMade_trans; [done|].
      rewrite <- (claimsMade_directAddresses _ _ _ Hstep). by apply IH.
    + unfold ret at 1. cbv beta iota. by apply IH.
Qed.


(** The outputs of a transfer that [finalizeTransfer] reads back. *)
Lemma finalizeTransfer_outputs (transferDoc : Docs.Transfer) (d : Database) :
  let hookoutOf :=
    match Docs.t_hookoutHash transferDoc with
    | Some hookoutHash => h ← hookouts d !! hookoutHash; Some (Some (Hookout_fromPOD h))
    | None => Some None
    end in
  match Docs.t_hookoutHash transferDoc with
  | Some hookoutHash =>
      d ← get; h ← mustExist (hookouts d !! hookoutHash); ret (Some (Hookout_fromPOD h))
  | None => ret None
  end d = (match hookoutOf with Some hookout => inr hookout | None => inl MustExist end, d).
Proof.
  destruct (Docs.t_hookoutHash transferDoc) as [hh|]; simpl; [|done].
  rewrite bind_run. simpl. rewrite bind_run. by destruct (hookouts d !! hh).
Qed.

(** A PENDING transfer whose outputs are stored is submitted; what follows
    depends on the answer. *)
Lemma finalizeTransfer_submitted (transferDoc : Docs.Transfer) (d : Database)
    (fullTransfer : hi.FullTransfer) :
  kind (Docs.t_status transferDoc) = "PENDING" →
  fullTransferOf d transferDoc = Some fullTransfer →
  ∃ bountyDocs,
    mapM (λ bountyHash, bounties d !! bountyHash) (Docs.t_bountyHashes transferDoc)
      = Some bountyDocs
    ∧ finalizeTransfer transferDoc d =
      (match submitTransfer (history d) fullTransfer with
       | inl requestError =>
           (if decide (re_message requestError = "INPUT_SPENT") then
              forEach (Docs.t_inputs transferDoc) reconcileInput;;
              putTransfer (withStatus transferDoc CONFLICTED)
            else ret tt);;
           throw (Thrown requestError)
       | inr acknowledgement =>
           putTransfer (withStatus transferDoc (ACKNOWLEDGED acknowledgement));;
           unawaited (claimOwnBounties bountyDocs)
       end) (set_history (λ h, h ++ [EvSubmitTransfer fullTransfer]) d).
Proof.
  intros Hpending Hfull. unfold fullTransferOf in Hfull.
  destruct (mapM _ (Docs.t_bountyHashes transferDoc)) as [bountyDocs|] eqn:Hdocs; [|done].
  simpl in Hfull. exists bountyDocs. split; [done|].
  unfold finalizeTransfer. rewrite decide_False by (by intros ?).
  rewrite bind_run, forM_bounties, Hdocs, bind_run, finalizeTransfer_outputs.
  destruct (match Docs.t_hookoutHash transferDoc with
            | Some hookoutHash =>
                h ← hookouts d !! hookoutHash; Some (Some (Hookout_fromPOD h))
            | None => Some None
            end) as [hookout|] eqn:Hh; [|done].
  simpl in Hfull. injection Hfull as <-.
  rewrite bind_run. unfold interact at 1. cbv beta iota. done.
Qed.

(** X1. A PENDING transfer whose stored outputs are there and that the
    server acknowledges: [finalizeTransfer] returns, the row of the transfer
    is stored ACKNOWLEDGED with the acknowledgement of the server, and
    nothing else is written but the coins and claims of the bounties claimed
    in the background. Those claims are requested for bounties of the
    transfer whose claimant is a stored direct address only, and whatever
    they throw reaches nobody. *)
Theorem finalizeTransfer_acknowledged (transferDoc : Docs.Transfer) (d : Database)
    (fullTransfer : hi.FullTransfer) (acknowledgement : Signature) :
  kind (Docs.t_status transferDoc) = "PENDING" →
  fullTransferOf d transferDoc = Some fullTransfer →
  submitTransfer (history d) fullTransfer = inr acknowledgement →
  ∃ d' bountyDocs evs,
    finalizeTransfer transferDoc d = (inr tt, d')
    ∧ transfers d'
      = <[Docs.t_hash transferDoc := withStatus transferDoc (ACKNOWLEDGED acknowledgement)]>
          (transfers d)
    ∧ history d' = history d ++ EvSubmitTransfer fullTransfer :: evs
    ∧ mapM (λ bountyHash, bounties d !! bountyHash) (Docs.t_bountyHashes transferDoc)
      = Some bountyDocs
    ∧ Forall (bountyClaimEvent bountyDocs (directAddresses d)) evs
    ∧ bounties d' = bounties d ∧ hookouts d' = hookouts d ∧ hookins d' = hookins d
    ∧ bitcoinAddresses d' = bitcoinAddresses d ∧ directAddresses d' = directAddresses d
    ∧ config d' = config d ∧ seed d' = seed d.
Proof.
  intros Hpending Hfull Hack.
  destruct (finalizeTransfer_submitted transferDoc d fullTransfer Hpending Hfull)
    as (bountyDocs & Hdocs & Hrun).
  rewrite Hack in Hrun. rewrite bind_run in Hrun. unfold putTransfer, modify at 1 in Hrun.
  cbv beta iota in Hrun.
  unfold unawaited in Hrun.
  match type of Hrun with context [claimOwnBounties _ ?x] => set (d1 := x) in Hrun end.
  pose proof (claimOwnBounties_made bountyDocs bountyDocs d1 (λ x H, H)) as Hmade.
  destruct (claimOwnBounties bountyDocs d1) as [r d2]. simpl in Hmade.
  destruct Hmade as (cl & co & evs & -> & Hevs).
  eexists _, bountyDocs, evs. split; [exact Hrun|].
  subst d1. simpl. rewrite <- app_assoc. done.
Qed.

(** X2. The failures of [finalizeTransfer] that write nothing. When a
    stored bounty or the stored hookout of the transfer is missing it throws
    before anything is sent. When the server rejects the transfer with
    another message than 'INPUT_SPENT' it throws the error of the server:
    the submission is the one interaction, no coin is looked up, and every
    table is as before, so the row of the transfer stays PENDING. *)
Theorem finalizeTransfer_fails_unwritten (transferDoc : Docs.Transfer) (d : Database) :
  kind (Docs.t_status transferDoc) = "PENDING" →
  (fullTransferOf d transferDoc = None →
     finalizeTransfer transferDoc d = (inl MustExist, d))
  ∧ (∀ fullTransfer requestError,
       fullTransferOf d transferDoc = Some fullTransfer →
       submitTransfer (history d) fullTransfer = inl requestError →
       re_message requestError ≠ "INPUT_SPENT" →
       finalizeTransfer transferDoc d
       = (inl (Thrown requestError),
          set_history (λ h, h ++ [EvSubmitTransfer fullTransfer]) d)).
Proof.
  intros Hpending. split.
  - intros Hnone. unfold fullTransferOf in Hnone.
    unfold finalizeTransfer. rewrite decide_False by (by intros ?).
    rewrite bind_run, forM_bounties.
    destruct (mapM _ (Docs.t_bountyHashes transferDoc)) as [bountyDocs|]; [|done].
    rewrite bind_run, finalizeTransfer_outputs. simpl in Hnone.
    destruct (match Docs.t_hookoutHash transferDoc with
              | Some hookoutHash =>
                  h ← hookouts d !! hookoutHash; Some (Some (Hookout_fromPOD h))
              | None => Some None
              end) as [hookout|]; [done|done].
  - intros fullTransfer requestError Hfull Hsubmit Hother.
    destruct (finalizeTransfer_submitted transferDoc d fullTransfer Hpending Hfull)
      as (bountyDocs & _ & ->).
    rewrite Hsubmit, decide_False by done. done.
Qed.

End FinalizeMore.

Section ClaimResponse.

Context {lib : HiLib} {world : World}.




End ClaimResponse.

Section Tables.

#[local] Instance key_le_total {V} (key : V → Z) : Total (key_le key).
Proof. intros a b. unfold key_le. lia. Qed.

#[local] Instance key_le_trans {V} (key : V → Z) : Transitive (key_le key).
Proof. intros a b c. unfold key_le. lia. Qed.

(** The last row by an index is a row of the table that holds the largest
    index. *)
Lemma orderBy_last_max {V} (key : V → Z) (tbl : gmap string V) (a : V) :
  last (orderBy key tbl) = Some a →
  (∃ k, tbl !! k = Some a) ∧ ∀ k b, tbl !! k = Some b → (key b ≤ key a)%Z.
Proof.
  unfold orderBy. intros Hlast.
  assert (∀ b, b ∈ merge_sort (key_le key) (map_to_list tbl).*2 ↔ ∃ k, tbl !! k = Some b)
    as Hin.
  { intros b. rewrite merge_sort_Permutation, list_elem_of_fmap. split.
    - intros ((k & b') & -> & Hkb). exists k. by apply elem_of_map_to_list.
    - intros (k & Hk). exists (k, b). split; [done|]. by apply elem_of_map_to_list. }
  pose proof (Sorted_merge_sort (key_le key) (map_to_list tbl).*2) as Hsorted.
  apply Sorted_StronglySorted in Hsorted; [|apply _].
  apply last_Some in Hlast as (l' & Hl). rewrite Hl in Hin, Hsorted.
  split.
  - apply Hin. apply elem_of_app. right. by left.
  - intros k b Hb. assert (b ∈ l' ++ [a]) as [Hb'|Hb']%elem_of_app by (apply Hin; eauto).
    + eapply (StronglySorted_app_1_elem_of (key_le key)); [done|done|by left].
    + apply list_elem_of_singleton in Hb' as ->. unfold key_le. lia.
Qed.

Lemma orderBy_last_None {V} (key : V → Z) (tbl : gmap string V) :
  last (orderBy key tbl) = None → tbl = ∅.
Proof.
  unfold orderBy. intros Hlast%last_None.
  apply map_to_list_empty_iff. apply Permutation_nil_r.
  pose proof (merge_sort_Permutation (key_le key) (map_to_list tbl).*2) as Hp.
  rewrite Hlast in Hp. symmetry in Hp. apply Permutation_nil_r in Hp.
  by apply fmap_nil_inv in Hp as ->.
Qed.

(** [index_taken]: another row holds the index. *)
Lemma index_taken_false {V} (idx : V → Z) (tbl : gmap string V) (k : string) (i : Z) :
  (∀ k' b, tbl !! k' = Some b → idx b ≠ i) → index_taken idx tbl k i = false.
Proof.
  intros Hfree. unfold index_taken. apply not_true_is_false. intros Hex.
  apply existsb_exists in Hex as ((k' & b) & Hin & Hb). simpl in Hb.
  apply andb_true_iff in Hb as [_ Hb]. apply bool_decide_eq_true in Hb.
  apply list_elem_of_In, elem_of_map_to_list in Hin. by eapply Hfree.
Qed.

Lemma index_taken_true {V} (idx : V → Z) (tbl : gmap string V) (k : string) (i : Z) :
  index_taken idx tbl k i = true ↔ ∃ k' b, tbl !! k' = Some b ∧ k' ≠ k ∧ idx b = i.
Proof.
  unfold index_taken. rewrite existsb_exists. split.
  - intros ((k' & b) & Hin & Hb). simpl in Hb.
    apply andb_true_iff in Hb as [Hk Hb]. apply bool_decide_eq_true in Hb.
    apply negb_true_iff, bool_decide_eq_false in Hk.
    apply list_elem_of_In, elem_of_map_to_list in Hin. by exists k', b.
  - intros (k' & b & Hin & Hk & Hb). exists (k', b). split.
    + by apply list_elem_of_In, elem_of_map_to_list.
    + simpl. apply andb_true_iff. split.
      * by apply negb_true_iff, bool_decide_eq_false.
      * by apply bool_decide_eq_true.
Qed.

End Tables.

Section Addresses.

Context {lib : HiLib} {world : World}.

Lemma returned {A} (r : (Exn + A) * Database) (a : A) : r.1 = inr a → r = (inr a, r.2).
Proof. destruct r as [[e|a'] d]; simpl; intros [=]. by subst. Qed.

Lemma deriveClaimantIndex_loaded (d : Database) (s : Bytes) (index : Z) (isInternal : bool) :
  seed d = Some s → deriveClaimantIndex index isInternal d = (claimantAt s index isInternal, d).
Proof.
  intros Hs. unfold deriveClaimantIndex, claimantAt.
  rewrite (deriveClaimant_loaded d s) by done. by destruct (PrivateKey_fromBytes _).
Qed.

Lemma deriveBitcoinAddressIndex_locked (d : Database) (i : Z) :
  seed d = None → deriveBitcoinAddressIndex i d = (inl WalletLocked, d).
Proof.
  intros Hs. unfold deriveBitcoinAddressIndex, deriveBitcoinAddress.
  by rewrite bind_run, loadedSeed_locked.
Qed.

Lemma deriveClaimantIndex_locked (d : Database) (index : Z) (isInternal : bool) :
  seed d = None → deriveClaimantIndex index isInternal d = (inl WalletLocked, d).
Proof.
  intros Hs. unfold deriveClaimantIndex, deriveClaimant.
  by rewrite bind_run, loadedSeed_locked.
Qed.

(** [addBitcoinAddress] at an index no stored row holds. *)
Lemma addBitcoinAddress_run (index : Z) (d : Database) :
  (∀ k row, bitcoinAddresses d !! k = Some row → Docs.ba_index row ≠ index) →
  match seed d with
  | None => addBitcoinAddress index d = (inl WalletLocked, d)
  | Some s =>
      match bitcoinAddressAt s index with
      | inl e => addBitcoinAddress index d = (inl e, d)
      | inr info =>
          let doc := Docs.mkBitcoinAddress info.2 (PrivateKey_toPublicKey info.1) index in
          addBitcoinAddress index d
          = (inr doc, set_bitcoinAddresses (λ _, <[info.2 := doc]> (bitcoinAddresses d)) d)
      end
  end.
Proof.
  intros Hfree. destruct (seed d) as [s|] eqn:Hs.
  - destruct (bitcoinAddressAt s index) as [e|info] eqn:Hinfo.
    + unfold addBitcoinAddress.
      by rewrite bind_run, (deriveBitcoinAddressIndex_loaded d s), Hinfo.
    + apply (addBitcoinAddress_fresh index d s info); [done|done|].
      by apply index_taken_false.
  - unfold addBitcoinAddress. by rewrite bind_run, deriveBitcoinAddressIndex_locked.
Qed.

Lemma addDirectAddress_run (index : Z) (isInternal : bool) (d : Database) :
  (∀ k row, directAddresses d !! k = Some row → Docs.da_index row ≠ index) →
  match seed d with
  | None => addDirectAddress index isInternal d = (inl WalletLocked, d)
  | Some s =>
      match claimantAt s index isInternal with
      | inl e => addDirectAddress index isInternal d = (inl e, d)
      | inr claimant =>
          let claimantPub := PrivateKey_toPublicKey claimant in
          let doc := Docs.mkDirectAddress claimantPub index isInternal in
          addDirectAddress index isInternal d
          = (inr (claimantPub, doc),
             set_directAddresses (λ _, <[claimantPub := doc]> (directAddresses d)) d)
      end
  end.
Proof.
  intros Hfree. unfold addDirectAddress. destruct (seed d) as [s|] eqn:Hs.
  - rewrite bind_run, (deriveClaimantIndex_loaded d s) by done.
    destruct (claimantAt s index isInternal) as [e|claimant]; [done|].
    cbv zeta. rewrite bind_run. simpl. rewrite bind_run. unfold put_unique. simpl.
    by rewrite index_taken_false.
  - by rewrite bind_run, deriveClaimantIndex_locked.
Qed.

(** The index after the last one of a table. *)
Lemma next_index_free {V} (idx : V → Z) (tbl : gmap string V) :
  let index := match last (orderBy idx tbl) with
               | None => 0%Z
               | Some a => (idx a + 1)%Z
               end in
  (∀ k row, tbl !! k = Some row → (idx row < index)%Z)
  ∧ (tbl = ∅ → index = 0%Z)
  ∧ (tbl ≠ ∅ → ∃ k row, tbl !! k = Some row ∧ index = (idx row + 1)%Z).
Proof.
  destruct (last (orderBy idx tbl)) as [a|] eqn:Hlast; simpl.
  - apply orderBy_last_max in Hlast as [(ka & Ha) Hmax]. split_and!.
    + intros k row Hrow. specialize (Hmax k row Hrow). lia.
    + intros ->. by rewrite lookup_empty in Ha.
    + intros _. by exists ka, a.
  - apply orderBy_last_None in Hlast as ->. split_and!; [|done|done].
    intros k row Hrow. by rewrite lookup_empty in Hrow.
Qed.

(** X5. [newBitcoinAddress] derives the address of the index after the
    largest stored one (of index 0 in an empty table), stores it under the
    address and returns it; the index is new, so the unique index of the
    table never refuses the row. It fails only when the wallet is locked or
    a key of that index cannot be derived, and then nothing is written. *)
Theorem newBitcoinAddress_next_index (d : Database) :
  match newBitcoinAddress d with
  | (inr doc, d') =>
      d' = set_bitcoinAddresses (insert (Docs.ba_address doc) doc) d
      ∧ (∀ k row, bitcoinAddresses d !! k = Some row →
           (Docs.ba_index row < Docs.ba_index doc)%Z)
      ∧ (bitcoinAddresses d = ∅ → Docs.ba_index doc = 0%Z)
      ∧ (bitcoinAddresses d ≠ ∅ →
           ∃ k row, bitcoinAddresses d !! k = Some row
                    ∧ Docs.ba_index doc = (Docs.ba_index row + 1)%Z)
      ∧ ∃ s claimant, seed d = Some s
          ∧ bitcoinAddressAt s (Docs.ba_index doc) = inr (claimant, Docs.ba_address doc)
          ∧ Docs.ba_claimant doc = PrivateKey_toPublicKey claimant
  | (inl e, d') =>
      d' = d
      ∧ match seed d with
        | None => e = WalletLocked
        | Some s => ∃ index, bitcoinAddressAt s index = inl e
        end
  end.
Proof.
  unfold newBitcoinAddress, transaction. rewrite bind_run. unfold get at 1. cbv beta iota zeta.
  pose proof (next_index_free Docs.ba_index (bitcoinAddresses d)) as Hnext.
  cbv zeta in Hnext.
  set (index := match last (orderBy Docs.ba_index (bitcoinAddresses d)) with
                | None => 0%Z
                | Some a => (Docs.ba_index a + 1)%Z
                end) in *.
  destruct Hnext as (Hlt & Hzero & Hsucc).
  pose proof (addBitcoinAddress_run index d) as Hrun.
  destruct (seed d) as [s|] eqn:Hs.
  - destruct (bitcoinAddressAt s index) as [e|info] eqn:Hinfo.
    + rewrite Hrun. 2:{ intros k row Hrow. specialize (Hlt k row Hrow). lia. }
      split; [by destruct d|]. by exists index.
    + rewrite Hrun. 2:{ intros k row Hrow. specialize (Hlt k row Hrow). lia. }
      simpl. split_and!; [done..|]. exists s, info.1. by destruct info.
  - rewrite Hrun. 2:{ intros k row Hrow. specialize (Hlt k row Hrow). lia. }
    split; [by destruct d|done].
Qed.

(** X6. [newDirectAddress] derives the claimant of the index after the
    largest stored one, as a direct (not internal) address, stores it under
    the public key of the claimant and returns it; it fails only when the
    wallet is locked or the key cannot be derived, and then nothing is
    written. *)
Theorem newDirectAddress_next_index (d : Database) :
  match newDirectAddress d with
  | (inr (claimantPub, doc), d') =>
      d' = set_directAddresses (insert claimantPub doc) d
      ∧ Docs.da_claimant doc = claimantPub
      ∧ Docs.da_isInternal doc = false
      ∧ (∀ k row, directAddresses d !! k = Some row →
           (Docs.da_index row < Docs.da_index doc)%Z)
      ∧ (directAddresses d = ∅ → Docs.da_index doc = 0%Z)
      ∧ (directAddresses d ≠ ∅ →
           ∃ k row, directAddresses d !! k = Some row
                    ∧ Docs.da_index doc = (Docs.da_index row + 1)%Z)
      ∧ ∃ s claimant, seed d = Some s
          ∧ claimantAt s (Docs.da_index doc) false = inr claimant
          ∧ claimantPub = PrivateKey_toPublicKey claimant
  | (inl e, d') =>
      d' = d
      ∧ match seed d with
        | None => e = WalletLocked
        | Some s => ∃ index, claimantAt s index false = inl e
        end
  end.
Proof.
  unfold newDirectAddress, transaction. rewrite bind_run. unfold get at 1. cbv beta iota zeta.
  pose proof (next_index_free Docs.da_index (directAddresses d)) as Hnext.
  cbv zeta in Hnext.
  set (index := match last (orderBy Docs.da_index (directAddresses d)) with
                | None => 0%Z
                | Some a => (Docs.da_index a + 1)%Z
                end) in *.
  destruct Hnext as (Hlt & Hzero & Hsucc).
  pose proof (addDirectAddress_run index false d) as Hrun.
  destruct (seed d) as [s|] eqn:Hs.
  - destruct (claimantAt s index false) as [e|claimant] eqn:Hk.
    + rewrite Hrun. 2:{ intros k row Hrow. specialize (Hlt k row Hrow). lia. }
      split; [by destruct d|]. by exists index.
    + rewrite Hrun. 2:{ intros k row Hrow. specialize (Hlt k row Hrow). lia. }
      simpl. split_and!; [done..|]. by exists s, claimant.
  - rewrite Hrun. 2:{ intros k row Hrow. specialize (Hlt k row Hrow). lia. }
    split; [by destruct d|done].
Qed.


Lemma bitcoinAddresses_set f (d : Database) :
  bitcoinAddresses (set_bitcoinAddresses f d) = f (bitcoinAddresses d).
Proof. reflexivity. Qed.

Lemma hookinCount_set f (d : Database) (address : Address) :
  hookinCount (set_bitcoinAddresses f d) address = hookinCount d address.
Proof. reflexivity. Qed.

Lemma orderBy_last_insert_max {V} (idx : V → Z) (tbl : gmap string V) (k : string) (v : V) :
  (∀ k' row, tbl !! k' = Some row → (idx row < idx v)%Z) →
  last (orderBy idx (<[k := v]> tbl)) = Some v.
Proof.
  intros Hlt. destruct (last (orderBy idx (<[k := v]> tbl))) as [a|] eqn:Hlast.
  - apply orderBy_last_max in Hlast as [(ka & Ha) Hmax].
    destruct (decide (k = ka)) as [<-|Hne].
    + rewrite lookup_insert_eq in Ha. by injection Ha as <-.
    + rewrite lookup_insert_ne in Ha by done. specialize (Hlt ka a Ha).
      specialize (Hmax k v (lookup_insert_eq _ _ _)). lia.
  - apply orderBy_last_None in Hlast. by apply insert_non_empty in Hlast.
Qed.

(** X7. [getUnusedBitcoinAddress] returns the stored address of the largest
    index when no stored hookin pays to it, and writes nothing then;
    otherwise (a hookin pays to it, or no address is stored) it stores and
    returns the address of the next index (of index 0). Until a hookin that
    pays to the returned address is stored, asking again returns the same
    address and writes nothing. *)
Theorem getUnusedBitcoinAddress_stable (d d' : Database) (doc : Docs.BitcoinAddress) :
  getUnusedBitcoinAddress d = (inr doc, d') →
  hookins d' = hookins d
  ∧ ((d' = d ∧ hookinCount d (Docs.ba_address doc) = 0
      ∧ (∃ k, bitcoinAddresses d !! k = Some doc)
      ∧ ∀ k row, bitcoinAddresses d !! k = Some row →
                 (Docs.ba_index row ≤ Docs.ba_index doc)%Z)
     ∨ (d' = set_bitcoinAddresses (insert (Docs.ba_address doc) doc) d
        ∧ (∀ k row, bitcoinAddresses d !! k = Some row →
                    (Docs.ba_index row < Docs.ba_index doc)%Z)
        ∧ (bitcoinAddresses d = ∅ ∧ Docs.ba_index doc = 0%Z
           ∨ ∃ k row, bitcoinAddresses d !! k = Some row
                      ∧ Docs.ba_index doc = (Docs.ba_index row + 1)%Z
                      ∧ 0 < hookinCount d (Docs.ba_address row))))
  ∧ (hookinCount d (Docs.ba_address doc) = 0 →
     getUnusedBitcoinAddress d' = (inr doc, d')).
Proof.
  intros Hrun. assert (Hrun0 := Hrun).
  unfold getUnusedBitcoinAddress, transaction in Hrun.
  rewrite bind_run in Hrun. unfold get at 1 in Hrun. cbv beta iota zeta in Hrun.
  rewrite head_reverse in Hrun.
  destruct (last (orderBy Docs.ba_index (bitcoinAddresses d))) as [a|] eqn:Hlast.
  - pose proof Hlast as [(ka & Ha) Hmax]%orderBy_last_max.
    case_decide as Hcount.
    + pose proof (addBitcoinAddress_run (Docs.ba_index a + 1) d) as Hadd.
      assert (∀ k row, bitcoinAddresses d !! k = Some row →
                       (Docs.ba_index row < Docs.ba_index a + 1)%Z) as Hlt.
      { intros k row Hrow. specialize (Hmax k row Hrow). lia. }
      destruct (seed d) as [s|] eqn:Hs.
      2:{ rewrite Hadd in Hrun; [done|]. intros k row Hrow. specialize (Hlt k row Hrow). lia. }
      destruct (bitcoinAddressAt s (Docs.ba_index a + 1)) as [e|info] eqn:Hinfo.
      { rewrite Hadd in Hrun; [done|]. intros k row Hrow. specialize (Hlt k row Hrow). lia. }
      rewrite Hadd in Hrun.
      2:{ intros k row Hrow. specialize (Hlt k row Hrow). lia. }
      injection Hrun as <- <-. simpl. split; [done|]. split.
      * right. split_and!; [done|done|]. right. by exists ka, a.
      * intros Hfree. unfold getUnusedBitcoinAddress, transaction.
        rewrite bind_run. unfold get at 1. cbv beta iota zeta. rewrite head_reverse.
        rewrite bitcoinAddresses_set, orderBy_last_insert_max by done.
        rewrite hookinCount_set. cbn [Docs.ba_address]. rewrite Hfree.
        rewrite decide_False by lia. done.
    + injection Hrun as <- <-. split; [done|]. split.
      * left. split_and!; [done| |by exists ka|done]. lia.
      * intros _. exact Hrun0.
  - pose proof Hlast as Hempty%orderBy_last_None.
    pose proof (addBitcoinAddress_run 0 d) as Hadd.
    assert (∀ k row, bitcoinAddresses d !! k = Some row → Docs.ba_index row ≠ 0%Z) as Hfree0.
    { intros k row Hrow. by rewrite Hempty, lookup_empty in Hrow. }
    destruct (seed d) as [s|] eqn:Hs; [|by rewrite Hadd in Hrun].
    destruct (bitcoinAddressAt s 0) as [e|info] eqn:Hinfo; [by rewrite Hadd in Hrun|].
    rewrite Hadd in Hrun by done. injection Hrun as <- <-. simpl. split; [done|]. split.
    + right. split_and!; [done| |by left].
      intros k row Hrow. by rewrite Hempty, lookup_empty in Hrow.
    + intros Hfree. unfold getUnusedBitcoinAddress, transaction.
      rewrite bind_run. unfold get at 1. cbv beta iota zeta. rewrite head_reverse.
      rewrite bitcoinAddresses_set, orderBy_last_insert_max.
      2:{ intros k row Hrow. by rewrite Hempty, lookup_empty in Hrow. }
      rewrite hookinCount_set. cbn [Docs.ba_address]. rewrite Hfree.
      rewrite decide_False by lia. done.
Qed.


Lemma directAddresses_set f (d : Database) :
  directAddresses (set_directAddresses f d) = f (directAddresses d).
Proof. reflexivity. Qed.

Lemma bountyCount_set f (d : Database) (claimant : PublicKey) :
  bountyCount (set_directAddresses f d) claimant = bountyCount d claimant.
Proof. reflexivity. Qed.

(** X8. [getUnusedDirectAddress] returns the stored direct address of the
    largest index when no stored bounty names its claimant, and writes
    nothing then; otherwise it stores and returns the address of the next
    index (of index 0 in an empty table), never an internal one. Until a
    bounty for the returned claimant is stored, asking again returns the
    same address and writes nothing. *)
Theorem getUnusedDirectAddress_stable (d d' : Database) (doc : Docs.DirectAddress) :
  getUnusedDirectAddress d = (inr doc, d') →
  bounties d' = bounties d
  ∧ ((d' = d ∧ bountyCount d (Docs.da_claimant doc) = 0
      ∧ (∃ k, directAddresses d !! k = Some doc)
      ∧ ∀ k row, directAddresses d !! k = Some row →
                 (Docs.da_index row ≤ Docs.da_index doc)%Z)
     ∨ (d' = set_directAddresses (insert (Docs.da_claimant doc) doc) d
        ∧ Docs.da_isInternal doc = false
        ∧ (∀ k row, directAddresses d !! k = Some row →
                    (Docs.da_index row < Docs.da_index doc)%Z)
        ∧ (directAddresses d = ∅ ∧ Docs.da_index doc = 0%Z
           ∨ ∃ k row, directAddresses d !! k = Some row
                      ∧ Docs.da_index doc = (Docs.da_index row + 1)%Z
                      ∧ 0 < bountyCount d (Docs.da_claimant row))))
  ∧ (bountyCount d (Docs.da_claimant doc) = 0 →
     getUnusedDirectAddress d' = (inr doc, d')).
Proof.
  intros Hrun. assert (Hrun0 := Hrun).
  unfold getUnusedDirectAddress, transaction in Hrun.
  rewrite bind_run in Hrun. unfold get at 1 in Hrun. cbv beta iota zeta in Hrun.
  rewrite head_reverse in Hrun.
  destruct (last (orderBy Docs.da_index (directAddresses d))) as [a|] eqn:Hlast.
  - pose proof Hlast as [(ka & Ha) Hmax]%orderBy_last_max.
    case_decide as Hcount.
    + pose proof (addDirectAddress_run (Docs.da_index a + 1) false d) as Hadd.
      assert (∀ k row, directAddresses d !! k = Some row →
                       (Docs.da_index row < Docs.da_index a + 1)%Z) as Hlt.
      { intros k row Hrow. specialize (Hmax k row Hrow). lia. }
      rewrite bind_run in Hrun.
      destruct (seed d) as [s|] eqn:Hs.
      2:{ rewrite Hadd in Hrun; [done|]. intros k row Hrow. specialize (Hlt k row Hrow). lia. }
      destruct (claimantAt s (Docs.da_index a + 1) false) as [e|claimant] eqn:Hk.
      { rewrite Hadd in Hrun; [done|]. intros k row Hrow. specialize (Hlt k row Hrow). lia. }
      rewrite Hadd in Hrun.
      2:{ intros k row Hrow. specialize (Hlt k row Hrow). lia. }
      injection Hrun as <- <-. simpl. split; [done|]. split.
      * right. split_and!; [done|done|done|]. right. by exists ka, a.
      * intros Hfree. unfold getUnusedDirectAddress, transaction.
        rewrite bind_run. unfold get at 1. cbv beta iota zeta. rewrite head_reverse.
        rewrite directAddresses_set, orderBy_last_insert_max by done.
        rewrite bountyCount_set. cbn [Docs.da_claimant]. rewrite Hfree.
        rewrite decide_False by lia. done.
    + injection Hrun as <- <-. split; [done|]. split.
      * left. split_and!; [done| |by exists ka|done]. lia.
      * intros _. exact Hrun0.
  - pose proof Hlast as Hempty%orderBy_last_None.
    pose proof (addDirectAddress_run 0 false d) as Hadd.
    assert (∀ k row, directAddresses d !! k = Some row → Docs.da_index row ≠ 0%Z) as Hfree0.
    { intros k row Hrow. by rewrite Hempty, lookup_empty in Hrow. }
    rewrite bind_run in Hrun.
    destruct (seed d) as [s|] eqn:Hs; [|by rewrite Hadd in Hrun].
    destruct (claimantAt s 0 false) as [e|claimant] eqn:Hk; [by rewrite Hadd in Hrun|].
    rewrite Hadd in Hrun by done. injection Hrun as <- <-. simpl. split; [done|]. split.
    + right. split_and!; [done|done| |by left].
      intros k row Hrow. by rewrite Hempty, lookup_empty in Hrow.
    + intros Hfree. unfold getUnusedDirectAddress, transaction.
      rewrite bind_run. unfold get at 1. cbv beta iota zeta. rewrite head_reverse.
      rewrite directAddresses_set, orderBy_last_insert_max.
      2:{ intros k row Hrow. by rewrite Hempty, lookup_empty in Hrow. }
      rewrite bountyCount_set. cbn [Docs.da_claimant]. rewrite Hfree.
      rewrite decide_False by lia. done.
Qed.

End Addresses.

Section BuildMore.

Context {lib : HiLib} {world : World}.

Lemma addBounty_inr (bountyDoc : Docs.Bounty) (d d' : Database) :
  addBounty bountyDoc d = (inr tt, d') →
  bounties d !! Docs.b_hash bountyDoc = None
  ∧ d' = set_bounties (insert (Docs.b_hash bountyDoc) bountyDoc) d.
Proof.
  unfold addBounty, add. rewrite bind_run. simpl.
  destruct (bounties d !! Docs.b_hash bountyDoc); [done|].
  rewrite bind_run. simpl. by intros [= <-].
Qed.

Lemma addTransfer_run (transferDoc : Docs.Transfer) (d d' : Database) :
  addTransfer transferDoc d = (inr tt, d') →
  transfers d !! Docs.t_hash transferDoc = None
  ∧ d' = set_transfers (insert (Docs.t_hash transferDoc) transferDoc) d.
Proof.
  unfold addTransfer, add. rewrite bind_run. simpl.
  destruct (transfers d !! Docs.t_hash transferDoc); [done|].
  rewrite bind_run. simpl. by intros [= <-].
Qed.

Lemma deriveOwner_state (claimHash : Hash) (blindingNonce : PublicKey) (d : Database) :
  (deriveOwner claimHash blindingNonce d).2 = d.
Proof. unfold deriveOwner, loadedSeed. by run_all. Qed.

Lemma ownersOf_state (inputs : list hi.Coin) (d : Database) : (ownersOf inputs d).2 = d.
Proof.
  unfold ownersOf. induction inputs as [|coin inputs IH]; [done|].
  simpl. rewrite bind_run, bind_run. unfold get at 1. cbv beta iota. rewrite bind_run.
  destruct (coins d !! Coin_hash coin) as [coinDoc|]; simpl; [|done].
  pose proof (deriveOwner_state (Docs.c_claimHash coinDoc) (Docs.c_blindingNonce coinDoc) d)
    as Hst.
  destruct (deriveOwner _ _ d) as [[e|k] d1]; simpl in Hst; subst d1; [done|].
  rewrite bind_run.
  destruct (forM inputs _ d) as [[e|ks] d1]; simpl in IH; subst d1; done.
Qed.

Lemma ownersOf_inr (inputs : list hi.Coin) (d d' : Database) r :
  ownersOf inputs d = (r, d') → d' = d.
Proof. intros H. pose proof (ownersOf_state inputs d) as Hst. by rewrite H in Hst. Qed.

(** What [newInternalBounty] does when it returns. *)
Lemma newInternalBounty_run (amount : Z) (d d' : Database) (bounty : hi.Bounty)
    (doc : Docs.Bounty) :
  newInternalBounty amount d = (inr (bounty, doc), d') →
  ∃ s index claimant,
    seed d = Some s
    ∧ (∀ k row, directAddresses d !! k = Some row → (Docs.da_index row < index)%Z)
    ∧ claimantAt s index true = inr claimant
    ∧ bounty = hi.mkBounty amount (PrivateKey_toPublicKey claimant) (random (history d) 32)
    ∧ doc = Bounty_toDoc bounty
    ∧ bounties d !! Bounty_hash bounty = None
    ∧ d' = set_bounties (insert (Bounty_hash bounty) doc)
             (set_history (λ h, h ++ [EvRandom 32])
                (set_directAddresses
                   (insert (PrivateKey_toPublicKey claimant)
                           (Docs.mkDirectAddress (PrivateKey_toPublicKey claimant) index true))
                   d)).
Proof.
  unfold newInternalBounty. rewrite bind_run. unfold get at 1. cbv beta iota zeta.
  pose proof (next_index_free Docs.da_index (directAddresses d)) as Hnext.
  cbv zeta in Hnext.
  set (index := match last (orderBy Docs.da_index (directAddresses d)) with
                | None => 0%Z
                | Some a => (Docs.da_index a + 1)%Z
                end) in *.
  destruct Hnext as (Hlt & _ & _).
  pose proof (addDirectAddress_run index true d) as Hadd.
  rewrite bind_run.
  destruct (seed d) as [s|] eqn:Hs.
  2:{ rewrite Hadd; [done|]. intros k row Hrow. specialize (Hlt k row Hrow). lia. }
  destruct (claimantAt s index true) as [e|claimant] eqn:Hk.
  { rewrite Hadd; [done|]. intros k row Hrow. specialize (Hlt k row Hrow). lia. }
  rewrite Hadd. 2:{ intros k row Hrow. specialize (Hlt k row Hrow). lia. }
  cbv zeta. rewrite bind_run. unfold callRandom, interact at 1. cbv beta iota.
  rewrite bind_run.
  match goal with |- context [addBounty ?doc ?d1] =>
    destruct (addBounty doc d1) as [[e|[]] d2] eqn:Hb end; [done|].
  apply addBounty_inr in Hb as [Hnone ->]. unfold ret. intros [= <- <- <-].
  exists s, index, claimant. split_and!; try done.
Qed.


(** X9. The change of a transfer comes back to the wallet. The bounty that
    [newInternalBounty] returns has the amount asked for and is stored under
    its hash; its claimant is stored as an internal direct address of an
    index above every stored one; and the private key that the claim
    routines derive from that stored row is the key of the claimant, so that
    [claimBounty] on the stored bounty finds its address and asks the
    server with that key for the magnitudes of the amount. *)
Theorem change_bounty_is_claimable (amount : Z) (d d' : Database) (bounty : hi.Bounty)
    (doc : Docs.Bounty) :
  newInternalBounty amount d = (inr (bounty, doc), d') →
  hi.bounty_amount bounty = amount
  ∧ doc = Bounty_toDoc bounty
  ∧ bounties d' !! Docs.b_hash doc = Some doc
  ∧ ∃ address claimant,
      directAddresses d' !! Docs.b_claimant doc = Some address
      ∧ Docs.da_isInternal address = true
      ∧ (∀ k row, directAddresses d !! k = Some row →
           (Docs.da_index row < Docs.da_index address)%Z)
      ∧ deriveClaimantIndex (Docs.da_index address) (Docs.da_isInternal address) d'
        = (inr claimant, d')
      ∧ PrivateKey_toPublicKey claimant = hi.bounty_claimant bounty
      ∧ (claims d' !! Docs.b_hash doc = None →
         history (claimBounty doc d').2
         = history d' ++ [EvMakeClaim claimant (ClaimBounty bounty)
                                      (amountToMagnitudes amount)]).
Proof.
  intros Hrun.
  apply newInternalBounty_run in Hrun
    as (s & index & claimant & Hs & Hlt & Hk & -> & -> & Hnone & ->).
  split; [done|]. split; [done|]. split; [simpl; by rewrite lookup_insert_eq|].
  eexists _, claimant. split; [simpl; by rewrite lookup_insert_eq|].
  split; [done|]. split; [done|].
  match goal with |- context [deriveClaimantIndex _ _ ?x] => set (d' := x) end.
  assert (deriveClaimantIndex index true d' = (inr claimant, d')) as Hderive.
  { rewrite (deriveClaimantIndex_loaded d' s) by done. by rewrite Hk. }
  split; [done|]. split; [done|].
  intros Hc. unfold claimBounty. rewrite bind_run. unfold get at 1. cbv beta iota.
  rewrite bind_run.
  cbn [Docs.b_claimant Bounty_toDoc hi.bounty_claimant].
  assert (directAddresses d' !! PrivateKey_toPublicKey claimant
          = Some (Docs.mkDirectAddress (PrivateKey_toPublicKey claimant) index true)) as ->.
  { subst d'. simpl. by rewrite lookup_insert_eq. }
  simpl mustExist. unfold ret at 1. cbv beta iota.
  rewrite (claimBountyWithAddress_first _ _ d' claimant) by done.
  match goal with |- context [callMakeClaim ?k ?c ?ms] =>
    pose proof (roundTrip_run k c ms d') as Hrt end.
  destruct (makeClaim _ _ _ _ _) as [e|r].
  - by rewrite Hrt.
  - destruct Hrt as (d2 & -> & [-> | (co & ->)]); done.
Qed.


Lemma listUnspent_state (d d1 : Database) (unspent : list Docs.Coin) :
  listUnspent d = (inr unspent, d1) → d1 = d.
Proof.
  destruct (listUnspent_run d) as (u & Hu & _). rewrite Hu. by intros [= _ <-].
Qed.

(** The change of a send: nothing when there is no excess, one internal
    bounty of the excess otherwise. *)
Lemma change_run (excess : Z) (first : list hi.Bounty) (d d1 : Database)
    (outputs : list hi.Bounty) :
  (if decide (0 < excess)%Z then
     change ← newInternalBounty excess; ret (first ++ [change.1])
   else ret first) d = (inr outputs, d1) →
  (outputs = first ∧ d1 = d ∧ ¬ (0 < excess)%Z)
  ∨ ∃ change,
      outputs = first ++ [change] ∧ (0 < excess)%Z
      ∧ newInternalBounty excess d = (inr (change, Bounty_toDoc change), d1).
Proof.
  case_decide as Hex.
  - intros H. apply bind_inr in H as ([change changeDoc] & d2 & Hnew & H).
    injection H as <- <-. right. exists change. split_and!; [done|done|].
    pose proof Hnew as (s & index & claimant & _ & _ & _ & _ & -> & _)%newInternalBounty_run.
    done.
  - intros [= <- <-]. by left.
Qed.

Lemma change_stored (excess : Z) (d d1 : Database) (change : hi.Bounty) :
  (0 < excess)%Z →
  newInternalBounty excess d = (inr (change, Bounty_toDoc change), d1) →
  outputsStored d d1 ∧ hookouts d1 = hookouts d
  ∧ bounties d !! Bounty_hash change = None
  ∧ bounties d1 = <[Bounty_hash change := Bounty_toDoc change]> (bounties d)
  ∧ changeBounty d1 excess change.
Proof.
  intros Hex
    (s & index & claimant & Hs & Hlt & Hk & -> & _ & Hnone & ->)%newInternalBounty_run.
  split; [|split; [done|split; [done|split; [done|]]]].
  - unfold outputsStored. simpl. split_and!; try done. by apply prefix_app_r.
  - unfold changeBounty. simpl. split; [done|]. split; [done|].
    eexists. by rewrite lookup_insert_eq.
Qed.

Lemma outputsStored_refl (d : Database) : outputsStored d d.
Proof. by unfold outputsStored. Qed.

Lemma outputsStored_trans (d1 d2 d3 : Database) :
  outputsStored d1 d2 → outputsStored d2 d3 → outputsStored d1 d3.
Proof.
  unfold outputsStored. intros (?&?&?&?&?&?&?&?) (?&?&?&?&?&?&?&?).
  split_and!; try congruence. by etrans.
Qed.

(** The outputs of a send, after the first one has been stored: they are
    the first ones and the change, all stored under their hashes. *)
Lemma change_outputs (excess : Z) (first : list hi.Bounty) (d d1 : Database)
    (outputs : list hi.Bounty) :
  (if decide (0 < excess)%Z then
     change ← newInternalBounty excess; ret (first ++ [change.1])
   else ret first) d = (inr outputs, d1) →
  (∀ b, b ∈ first → bounties d !! Bounty_hash b = Some (Bounty_toDoc b)) →
  outputsStored d d1 ∧ hookouts d1 = hookouts d
  ∧ (∀ b, b ∈ outputs → bounties d1 !! Bounty_hash b = Some (Bounty_toDoc b))
  ∧ (∀ b, b ∈ outputs → b ∈ first ∨ changeBounty d1 excess b)
  ∧ (∀ b, b ∈ first → b ∈ outputs)
  ∧ length outputs ≤ S (length first)
  ∧ (∀ k, bounties d1 !! k = bounties d !! k ∨ ∃ b, b ∈ outputs ∧ k = Bounty_hash b).
Proof.
  intros [(-> & -> & _)|(change & -> & Hex & Hnew)]%change_run Hfirst.
  - split; [apply outputsStored_refl|]. split; [done|]. split; [done|].
    split; [intros b Hb; by left|]. split; [done|]. split; [lia|].
    intros k. by left.
  - apply change_stored in Hnew as (Hst & Hho & Hnone & Hb1 & Hchange); [|done].
    split; [done|]. split; [done|]. split; [|split; [|split; [|split]]].
    + intros b [Hb|Hb]%elem_of_app.
      * rewrite Hb1. rewrite lookup_insert_ne; [by apply Hfirst|].
        intros Heq. specialize (Hfirst b Hb). by rewrite <- Heq, Hnone in Hfirst.
      * apply list_elem_of_singleton in Hb as ->. by rewrite Hb1, lookup_insert_eq.
    + intros b [Hb|Hb]%elem_of_app; [by left|].
      apply list_elem_of_singleton in Hb as ->. by right.
    + intros b Hb. apply elem_of_app. by left.
    + rewrite length_app. simpl. lia.
    + intros k. rewrite Hb1. destruct (decide (Bounty_hash change = k)) as [<-|Hne].
      * right. exists change. split; [|done]. apply elem_of_app. right. by left.
      * left. by rewrite lookup_insert_ne.
Qed.

(** The transaction of [sendDirect], step by step, when it returns a
    transfer. *)
Lemma buildDirect_run (to : PublicKey) (amount : Z) (d d' : Database)
    (bountyDoc : Docs.Bounty) (transferDoc : Docs.Transfer) (transferHash : Hash) :
  buildDirect to amount d = (inr (Some (bountyDoc, transferDoc, transferHash)), d') →
  ∃ unspent found excess outputs owners d1,
    listUnspent d = (inr unspent, d)
    ∧ findAtLeast unspent (amount + Params_basicTransferFee) = Some (found, excess)
    ∧ bountyDoc = Bounty_toDoc (hi.mkBounty amount to (random (history d) 32))
    ∧ outputsStored d d1 ∧ hookouts d1 = hookouts d
    ∧ Bounty_fromPOD bountyDoc ∈ outputs
    ∧ (∀ b, b ∈ outputs → bounties d1 !! Bounty_hash b = Some (Bounty_toDoc b))
    ∧ (∀ b, b ∈ outputs → b = Bounty_fromPOD bountyDoc ∨ changeBounty d1 excess b)
    ∧ (∀ k, bounties d1 !! k = bounties d !! k ∨ ∃ b, b ∈ outputs ∧ k = Bounty_hash b)
    ∧ let inputs := Transfer_sort Coin_hash (Coin_fromPOD <$> found) in
      let sorted := Transfer_sort Bounty_hash outputs in
      let transfer :=
        hi.mkFullTransfer inputs sorted None (Signature_computeMu transferHash owners) in
      ownersOf inputs d1 = (inr owners, d1)
      ∧ transferHash = Transfer_hashOf (Coin_hash <$> inputs) (Bounty_hash <$> sorted) None
      ∧ transferDoc = transferDocOf (FullTransfer_hash transfer) (now (history d1)) transfer
      ∧ transfers d !! Docs.t_hash transferDoc = None
      ∧ d' = set_transfers (insert (Docs.t_hash transferDoc) transferDoc)
               (set_history (λ h, h ++ [EvDate]) d1).
Proof.
  unfold buildDirect. intros H%transaction_inr.
  apply bind_inr in H as (unspent & d0 & Hunspent & H).
  pose proof (listUnspent_state _ _ _ Hunspent) as ->.
  destruct (findAtLeast unspent _) as [[found excess]|] eqn:Hsel; [|done].
  apply bind_inr in H as (nonce & d2 & Hnonce & H).
  unfold callRandom, interact in Hnonce. injection Hnonce as <- <-.
  apply bind_inr in H as ([] & d3 & Hadd & H).
  apply addBounty_inr in Hadd as [Hnone ->].
  set (bounty := hi.mkBounty amount to (random (history d) 32)) in *.
  apply bind_inr in H as (outputs & d4 & Houtputs & H).
  destruct (change_outputs excess [bounty] _ _ _ Houtputs)
    as (Hst & Hho & Hstored & Hkinds & Hfirst & _ & Hkeys).
  { intros b Hb. apply list_elem_of_singleton in Hb as ->. simpl.
    by rewrite lookup_insert_eq. }
  apply bind_inr in H as (owners & d5 & Howners & H).
  pose proof (ownersOf_inr _ _ _ _ Howners) as ->.
  apply bind_inr in H as (created & d6 & Hcreated & H).
  unfold interact in Hcreated. injection Hcreated as <- <-.
  apply bind_inr in H as ([] & d7 & Haddt & H).
  apply addTransfer_run in Haddt as [Hfresh ->].
  injection H as <- <- <- <-.
  exists unspent, found, excess, outputs, owners, d4.
  split; [done|]. split; [done|]. split; [done|]. split; [|split; [done|]].
  { destruct Hst as (?&?&?&?&?&?&?&Hp). unfold outputsStored. simpl in *.
    split_and!; try done. etrans; [|done]. by apply prefix_app_r. }
  split; [apply Hfirst; by left|]. split; [done|]. split; [|split].
  - intros b Hb. destruct (Hkinds b Hb) as [Hb'|?]; [|by right].
    apply list_elem_of_singleton in Hb' as ->. by left.
  - intros k. destruct (Hkeys k) as [Heq|?]; [|by right]. simpl in Heq.
    destruct (decide (Bounty_hash bounty = k)) as [<-|Hne].
    + right. exists bounty. split; [|done]. apply Hfirst. by left.
    + left. by rewrite Heq, lookup_insert_ne.
  - cbv zeta. split; [done|]. split; [done|]. split; [done|]. split; [|done].
    destruct Hst as (?&?&?&?&Ht&?). simpl in Ht. by rewrite <- Ht.
Qed.


(** The transaction of [sendToBitcoinAddress], step by step, when it
    returns a transfer. *)
Lemma buildHookout_run (address : Address) (amount feeRate : Z) (d d' : Database)
    (transferDoc : Docs.Transfer) (transferHash : Hash) :
  buildHookout address amount feeRate d = (inr (Some (transferDoc, transferHash)), d') →
  ∃ unspent found excess outputs owners d1,
    listUnspent d = (inr unspent, d)
    ∧ findAtLeast unspent (amount + feeRate * Params_templateTransactionWeight)
      = Some (found, excess)
    ∧ outputsStored d d1
    ∧ let hookout := hi.mkHookout amount address true (random (history d) 32) in
      hookouts d !! Hookout_hash hookout = None
      ∧ hookouts d1
        = <[Hookout_hash hookout :=
              Docs.mkHookout (Hookout_hash hookout) amount address true
                             (random (history d) 32)]> (hookouts d)
      ∧ (∀ b, b ∈ outputs → bounties d1 !! Bounty_hash b = Some (Bounty_toDoc b))
      ∧ (∀ b, b ∈ outputs → changeBounty d1 excess b)
      ∧ length outputs ≤ 1
      ∧ (∀ k, bounties d1 !! k = bounties d !! k ∨ ∃ b, b ∈ outputs ∧ k = Bounty_hash b)
      ∧ let inputs := Transfer_sort Coin_hash (Coin_fromPOD <$> found) in
        let transfer :=
          hi.mkFullTransfer inputs outputs (Some hookout)
                            (Signature_computeMu transferHash owners) in
        ownersOf inputs d1 = (inr owners, d1)
        ∧ transferHash = Transfer_hashOf (Coin_hash <$> inputs) (Bounty_hash <$> outputs)
                                         (Some (Hookout_hash hookout))
        ∧ FullTransfer_isValid transfer = true
        ∧ transferDoc = transferDocOf transferHash (now (history d1)) transfer
        ∧ transfers d !! Docs.t_hash transferDoc = None
        ∧ d' = set_transfers (insert (Docs.t_hash transferDoc) transferDoc)
                 (set_history (λ h, h ++ [EvDate]) d1).
Proof.
  unfold buildHookout. intros H%transaction_inr.
  apply bind_inr in H as (unspent & d0 & Hunspent & H).
  pose proof (listUnspent_state _ _ _ Hunspent) as ->.
  destruct (findAtLeast unspent _) as [[found excess]|] eqn:Hsel; [|done].
  apply bind_inr in H as (nonce & d2 & Hnonce & H).
  unfold callRandom, interact in Hnonce. injection Hnonce as <- <-.
  apply bind_inr in H as (d2' & d2'' & Hget & H). unfold get in Hget.
  injection Hget as <- <-.
  apply bind_inr in H as (tbl & d3 & Hadd & H). unfold add in Hadd.
  cbn [Docs.o_hash hi.hookout_amount hi.hookout_bitcoinAddress hi.hookout_immediate
       hi.hookout_nonce] in Hadd, H.
  set (hookout := hi.mkHookout amount address true (random (history d) 32)) in *.
  destruct (hookouts _ !! Hookout_hash hookout) eqn:Hnone; [done|].
  injection Hadd as <- <-.
  apply bind_inr in H as ([] & d4 & Hmod & H). unfold modify in Hmod. injection Hmod as <-.
  apply bind_inr in H as (outputs & d5 & Houtputs & H).
  destruct (change_outputs excess [] _ _ _ Houtputs)
    as (Hst & Hho & Hstored & Hkinds & _ & Hlen & Hkeys).
  { intros b Hb. by apply elem_of_nil in Hb. }
  apply bind_inr in H as (owners & d6 & Howners & H).
  pose proof (ownersOf_inr _ _ _ _ Howners) as ->.
  apply bind_inr in H as ([] & d7 & Hvalid & H).
  destruct (FullTransfer_isValid _) eqn:Hisvalid; [|done].
  unfold ret in Hvalid. injection Hvalid as <-.
  apply bind_inr in H as (created & d8 & Hcreated & H).
  unfold interact in Hcreated. injection Hcreated as <- <-.
  apply bind_inr in H as ([] & d9 & Haddt & H).
  apply addTransfer_run in Haddt as [Hfresh ->].
  injection H as <- <-.
  exists unspent, found, excess, outputs, owners, d5.
  split; [done|]. split; [done|]. split.
  { destruct Hst as (?&?&?&?&?&?&?&Hp). unfold outputsStored. simpl in *.
    split_and!; try done. etrans; [|done]. by apply prefix_app_r. }
  cbv zeta. split; [done|]. split; [by rewrite Hho|]. split; [done|]. split.
  { intros b Hb. destruct (Hkinds b Hb) as [Hb'|?]; [|done]. by apply elem_of_nil in Hb'. }
  split; [simpl in Hlen; lia|]. split; [done|].
  split; [done|]. split; [done|]. split; [done|]. split; [done|]. split; [|done].
  destruct Hst as (?&?&?&?&Ht&?). simpl in Ht. by rewrite <- Ht.
Qed.

End BuildMore.

Section Reserve.

Context {lib : HiLib} {world : World}.

Lemma listUnspent_eq (d : Database) :
  listUnspent d
  = (inr (filter (λ coin, Docs.c_hash coin ∉ spentCoinHashes d) (map_to_list (coins d)).*2), d).
Proof. reflexivity. Qed.

Lemma elem_of_spentCoinHashes (d : Database) (h : string) :
  h ∈ spentCoinHashes d
  ↔ ∃ k t, transfers d !! k = Some t ∧ kind (Docs.t_status t) ≠ "CONFLICTED"
           ∧ h ∈ Docs.t_coinHashes t.
Proof.
  unfold spentCoinHashes. rewrite spent_outer. split.
  - intros [Hin|(t & Ht & Hh)]; [by apply elem_of_empty in Hin|].
    apply list_elem_of_filter in Ht as [Hkind Ht].
    apply list_elem_of_fmap in Ht as ((k & t') & -> & Ht).
    apply elem_of_map_to_list in Ht. by exists k, t'.
  - intros (k & t & Ht & Hkind & Hh). right. exists t. split; [|done].
    apply list_elem_of_filter. split; [done|].
    apply list_elem_of_fmap. exists (k, t). split; [done|]. by apply elem_of_map_to_list.
Qed.

(** A new transfer that is not CONFLICTED takes its coins out of the
    unspent ones, and no other. *)
Lemma listUnspent_reserved (d d' : Database) (transferDoc : Docs.Transfer) :
  coins d' = coins d →
  transfers d' = <[Docs.t_hash transferDoc := transferDoc]> (transfers d) →
  transfers d !! Docs.t_hash transferDoc = None →
  kind (Docs.t_status transferDoc) ≠ "CONFLICTED" →
  ∃ unspent,
    listUnspent d = (inr unspent, d)
    ∧ listUnspent d'
      = (inr (filter (λ coin, Docs.c_hash coin ∉ Docs.t_coinHashes transferDoc) unspent), d').
Proof.
  intros Hcoins Htransfers Hfresh Hkind. eexists. split; [apply listUnspent_eq|].
  rewrite listUnspent_eq, Hcoins, list_filter_filter. f_equal. f_equal.
  apply list_filter_iff. intros coin. rewrite !elem_of_spentCoinHashes. split.
  - intros Hfree. split.
    + intros Hin. apply Hfree. exists (Docs.t_hash transferDoc), transferDoc.
      by rewrite Htransfers, lookup_insert_eq.
    + intros (k & t & Ht & Hk & Hin). apply Hfree. exists k, t. split; [|done].
      rewrite Htransfers, lookup_insert_ne; [done|]. intros <-. by rewrite Hfresh in Ht.
  - intros [Hnew Hold] (k & t & Ht & Hk & Hin). rewrite Htransfers in Ht.
    destruct (decide (Docs.t_hash transferDoc = k)) as [<-|Hne].
    + rewrite lookup_insert_eq in Ht. by injection Ht as <-.
    + rewrite lookup_insert_ne in Ht by done. apply Hold. by exists k, t.
Qed.

Lemma balance_sum (coins : list Docs.Coin) (sum : Z) :
  foldl (λ sum coin, sum + 2 ^ Z.of_nat (Docs.c_magnitude coin))%Z sum coins
  = (sum + sumCoins coins)%Z.
Proof.
  revert sum. induction coins as [|coin coins IH]; intros sum; simpl; [lia|].
  rewrite IH. unfold coinValue. lia.
Qed.

Lemma getBalance_run (d : Database) (unspent : list Docs.Coin) :
  listUnspent d = (inr unspent, d) → getBalance d = (inr (sumCoins unspent), d).
Proof.
  intros Hrun. unfold getBalance. rewrite bind_run, Hrun. unfold ret.
  by rewrite balance_sum.
Qed.

Lemma sumCoins_filter (P : Docs.Coin → Prop) `{!∀ c, Decision (P c)}
    (coins : list Docs.Coin) :
  sumCoins coins = (sumCoins (filter P coins) + sumCoins (filter (λ c, ¬ P c) coins))%Z.
Proof.
  induction coins as [|c coins IH]; [done|]. rewrite !filter_cons. simpl.
  destruct (decide (P c)); simpl.
  - rewrite decide_False by tauto. lia.
  - rewrite decide_True by done. simpl. lia.
Qed.

(** X10. The transfer a send builds reserves its coins. After the
    transaction of [sendDirect] or of [sendToBitcoinAddress] has stored the
    PENDING transfer, [listUnspent] returns the coins it returned before
    less those whose hash the transfer lists, so that a second send cannot
    select them, and [getBalance] is lower by the value of exactly those
    coins: the whole value of the inputs, the change included, which comes
    back only when its bounty is claimed. The [coins] table itself is not
    written. *)
Theorem built_transfer_reserves_coins (d d' : Database) (transferDoc : Docs.Transfer)
    (transferHash : Hash) :
  (∃ to amount bountyDoc,
     buildDirect to amount d = (inr (Some (bountyDoc, transferDoc, transferHash)), d'))
  ∨ (∃ address amount feeRate,
       buildHookout address amount feeRate d = (inr (Some (transferDoc, transferHash)), d')) →
  coins d' = coins d
  ∧ ∃ unspent,
      listUnspent d = (inr unspent, d)
      ∧ listUnspent d'
        = (inr (filter (λ coin, Docs.c_hash coin ∉ Docs.t_coinHashes transferDoc) unspent),
           d')
      ∧ getBalance d = (inr (sumCoins unspent), d)
      ∧ getBalance d'
        = (inr (sumCoins unspent
                - sumCoins (filter (λ coin, Docs.c_hash coin ∈ Docs.t_coinHashes transferDoc)
                                   unspent))%Z, d').
Proof.
  intros Hbuilt.
  assert (coins d' = coins d
          ∧ transfers d' = <[Docs.t_hash transferDoc := transferDoc]> (transfers d)
          ∧ transfers d !! Docs.t_hash transferDoc = None
          ∧ Docs.t_status transferDoc = PENDING) as (Hcoins & Htransfers & Hfresh & Hstatus).
  { destruct Hbuilt as [(to & amount & bountyDoc & H)|(address & amount & feeRate & H)].
    - apply buildDirect_run in H
        as (unspent & found & excess & outputs & owners & d1 & _ & _ & _ & Hst & _ & _ & _
            & _ & _ & _ & _ & -> & Hfresh & ->).
      destruct Hst as (Hc & _ & _ & _ & Ht & _). simpl. by rewrite Hc, Ht.
    - apply buildHookout_run in H
        as (unspent & found & excess & outputs & owners & d1 & _ & _ & Hst & _ & _ & _ & _
            & _ & _ & _ & _ & _ & -> & Hfresh & ->).
      destruct Hst as (Hc & _ & _ & _ & Ht & _). simpl. by rewrite Hc, Ht. }
  split; [done|].
  destruct (listUnspent_reserved d d' transferDoc) as (unspent & Hbefore & Hafter);
    [done|done|done|by rewrite Hstatus|].
  exists unspent. split; [done|]. split; [done|].
  split; [by apply getBalance_run|].
  rewrite (getBalance_run d' _ Hafter). f_equal. f_equal.
  rewrite (sumCoins_filter (λ coin, Docs.c_hash coin ∈ Docs.t_coinHashes transferDoc) unspent)
    at 1.
  lia.
Qed.

End Reserve.

Section Send.

Context {lib : HiLib} {world : World}.

Lemma mapM_bounties (tbl : gmap string Docs.Bounty) (outputs : list hi.Bounty) :
  (∀ b, b ∈ outputs → tbl !! Bounty_hash b = Some (Bounty_toDoc b)) →
  mapM (λ bountyHash, tbl !! bountyHash) (Bounty_hash <$> outputs)
  = Some (Bounty_toDoc <$> outputs).
Proof.
  induction outputs as [|b outputs IH]; intros Hstored; [done|].
  rewrite fmap_cons. cbn [mapM]. rewrite (Hstored b) by left.
  rewrite IH; [done|]. intros b' Hb'. apply Hstored. by right.
Qed.

Lemma Bounty_fromPOD_toDoc (outputs : list hi.Bounty) :
  Bounty_fromPOD <$> (Bounty_toDoc <$> outputs) = outputs.
Proof.
  induction outputs as [|[amount claimant nonce] outputs IH]; [done|].
  rewrite !fmap_cons, IH. reflexivity.
Qed.

Lemma Transfer_sort_elem_of {A} (hash : A → Hash) (xs : list A) (x : A) :
  x ∈ Transfer_sort hash xs ↔ x ∈ xs.
Proof. unfold Transfer_sort. by rewrite merge_sort_Permutation. Qed.

(** The transfer that [finalizeTransfer] reads back from the rows a send
    has stored is the transfer the send has signed. *)
Lemma built_fullTransfer (d1 : Database) (inputs : list hi.Coin) (outputs : list hi.Bounty)
    (hookout : option hi.Hookout) (sig : Signature) (hash : Hash) (created : Date)
    (d' : Database) :
  (∀ b, b ∈ outputs → bounties d1 !! Bounty_hash b = Some (Bounty_toDoc b)) →
  match hookout with
  | Some h => ∃ doc, hookouts d1 !! Hookout_hash h = Some doc ∧ Hookout_fromPOD doc = h
  | None => True
  end →
  bounties d' = bounties d1 → hookouts d' = hookouts d1 →
  let transfer := hi.mkFullTransfer inputs outputs hookout sig in
  fullTransferOf d' (transferDocOf hash created transfer) = Some transfer.
Proof.
  intros Hstored Hhookout Hb Hh transfer. unfold fullTransferOf.
  cbn [transferDocOf FullTransfer_prune Docs.t_bountyHashes Docs.t_hookoutHash Docs.t_inputs
       Docs.t_authorization hi.tr_bountyHashes hi.tr_hookoutHash hi.tr_inputs
       hi.tr_authorization hi.ft_inputs hi.ft_bounties hi.ft_hookout hi.ft_authorization
       transfer].
  rewrite Hb, Hh, mapM_bounties by done. cbn [mbind option_bind].
  rewrite Bounty_fromPOD_toDoc.
  destruct hookout as [h|]; [|done].
  destruct Hhookout as (doc & Hdoc & <-). cbn [fmap option_fmap option_map].
  by rewrite Hdoc.
Qed.

(** [finalizeTransfer] on a PENDING transfer whose outputs are stored leaves
    the submission in the history, whatever it does next. *)
Lemma finalizeTransfer_history (transferDoc : Docs.Transfer) (d : Database)
    (fullTransfer : hi.FullTransfer) :
  kind (Docs.t_status transferDoc) = "PENDING" →
  fullTransferOf d transferDoc = Some fullTransfer →
  (history d ++ [EvSubmitTransfer fullTransfer])
    `prefix_of` history (finalizeTransfer transferDoc d).2.
Proof.
  intros Hpending Hfull.
  destruct (finalizeTransfer_submitted transferDoc d fullTransfer Hpending Hfull)
    as (bountyDocs & _ & ->).
  set (d0 := set_history (λ h, h ++ [EvSubmitTransfer fullTransfer]) d).
  destruct (submitTransfer (history d) fullTransfer) as [e|ack].
  - rewrite bind_run. case_decide.
    + rewrite bind_run.
      destruct (reconcile_loop (Docs.t_inputs transferDoc) d0) as (d1 & -> & (Hp & _) & _).
      done.
    + done.
  - rewrite bind_run. unfold putTransfer, modify at 1. cbv beta iota. unfold unawaited.
    match goal with |- context [claimOwnBounties _ ?x] =>
      pose proof (claimOwnBounties_made bountyDocs bountyDocs x (λ y H, H)) as Hmade;
      destruct (claimOwnBounties bountyDocs x) as [r d2] end.
    simpl in Hmade. destruct Hmade as (cl & co & evs & -> & _). simpl.
    by apply prefix_app_r.
Qed.

Lemma deriveOwner_seed (claimHash : Hash) (blindingNonce : PublicKey) (d1 d2 : Database) :
  seed d2 = seed d1 →
  (deriveOwner claimHash blindingNonce d2).1 = (deriveOwner claimHash blindingNonce d1).1.
Proof.
  intros Hs. destruct (seed d1) as [s|] eqn:Hs1.
  - by rewrite (deriveOwner_loaded d1 s), (deriveOwner_loaded d2 s).
  - unfold deriveOwner. by rewrite !bind_run, !loadedSeed_locked.
Qed.

(** The keys of the inputs depend on the coins and the seed alone. *)
Lemma ownersOf_frame (inputs : list hi.Coin) (d1 d2 : Database) r :
  coins d2 = coins d1 → seed d2 = seed d1 →
  ownersOf inputs d1 = (r, d1) → ownersOf inputs d2 = (r, d2).
Proof.
  intros Hc Hs. unfold ownersOf. revert r.
  induction inputs as [|coin inputs IH]; intros r; [by intros [= <-]|].
  simpl. rewrite !bind_run. unfold get at 1 3. cbv beta iota. rewrite !bind_run, Hc.
  destruct (coins d1 !! Coin_hash coin) as [coinDoc|]; simpl; [|by intros [= <-]].
  pose proof (deriveOwner_seed (Docs.c_claimHash coinDoc) (Docs.c_blindingNonce coinDoc)
                d1 d2 Hs) as Hk.
  pose proof (deriveOwner_state (Docs.c_claimHash coinDoc) (Docs.c_blindingNonce coinDoc) d1)
    as Hst1.
  pose proof (deriveOwner_state (Docs.c_claimHash coinDoc) (Docs.c_blindingNonce coinDoc) d2)
    as Hst2.
  destruct (deriveOwner _ _ d1) as [[e|k] d1']; destruct (deriveOwner _ _ d2) as [r2 d2'];
    simpl in *; subst.
  - by intros [= <-].
  - rewrite !bind_run.
    pose proof (ownersOf_state inputs d1) as Hst. unfold ownersOf in Hst.
    destruct (forM inputs _ d1) as [[e|ks] d1'] eqn:Hrest; simpl in Hst; subst d1'.
    + rewrite (IH _ eq_refl). by intros [= <-].
    + rewrite (IH _ eq_refl). by intros [= <-].
Qed.

(** X11. What a send stores is what it submits. The rows that the
    transaction of [sendDirect] or of [sendToBitcoinAddress] has stored
    give back, in [finalizeTransfer], the very transfer that was signed: its
    inputs, its outputs in their sorted order and its hookout; the hash
    returned commits to them; and the authorization signs that hash with the
    keys [deriveOwner] gives for the stored rows of the inputs. For
    [sendDirect] one output is the bounty of the amount for the recipient
    and any other is change to an internal address of the wallet; for
    [sendToBitcoinAddress] the hookout pays the amount to the address and
    every bounty is change. [finalizeTransfer] on the stored transfer
    submits that transfer. *)
Theorem built_transfer_is_submitted (d d' : Database) (transferDoc : Docs.Transfer)
    (transferHash : Hash) :
  (∀ to amount bountyDoc,
     buildDirect to amount d = (inr (Some (bountyDoc, transferDoc, transferHash)), d') →
     ∃ fullTransfer owners excess,
       fullTransferOf d' transferDoc = Some fullTransfer
       ∧ transferHash
         = Transfer_hashOf (Coin_hash <$> hi.ft_inputs fullTransfer)
                           (Bounty_hash <$> hi.ft_bounties fullTransfer) None
       ∧ hi.ft_hookout fullTransfer = None
       ∧ ownersOf (hi.ft_inputs fullTransfer) d' = (inr owners, d')
       ∧ hi.ft_authorization fullTransfer = Signature_computeMu transferHash owners
       ∧ Docs.b_amount bountyDoc = amount ∧ Docs.b_claimant bountyDoc = to
       ∧ bounties d' !! Docs.b_hash bountyDoc = Some bountyDoc
       ∧ Bounty_fromPOD bountyDoc ∈ hi.ft_bounties fullTransfer
       ∧ (∀ b, b ∈ hi.ft_bounties fullTransfer →
            b = Bounty_fromPOD bountyDoc ∨ changeBounty d' excess b)
       ∧ (history d' ++ [EvSubmitTransfer fullTransfer])
           `prefix_of` history (finalizeTransfer transferDoc d').2)
  ∧ (∀ address amount feeRate,
       buildHookout address amount feeRate d = (inr (Some (transferDoc, transferHash)), d') →
       ∃ fullTransfer owners excess hookout,
         fullTransferOf d' transferDoc = Some fullTransfer
         ∧ transferHash
           = Transfer_hashOf (Coin_hash <$> hi.ft_inputs fullTransfer)
                             (Bounty_hash <$> hi.ft_bounties fullTransfer)
                             (Some (Hookout_hash hookout))
         ∧ hi.ft_hookout fullTransfer = Some hookout
         ∧ hi.hookout_amount hookout = amount
         ∧ hi.hookout_bitcoinAddress hookout = address
         ∧ hi.hookout_immediate hookout = true
         ∧ ownersOf (hi.ft_inputs fullTransfer) d' = (inr owners, d')
         ∧ hi.ft_authorization fullTransfer = Signature_computeMu transferHash owners
         ∧ (∀ b, b ∈ hi.ft_bounties fullTransfer → changeBounty d' excess b)
         ∧ (history d' ++ [EvSubmitTransfer fullTransfer])
             `prefix_of` history (finalizeTransfer transferDoc d').2).
Proof.
  split.
  - intros to amount bountyDoc H.
    apply buildDirect_run in H
      as (unspent & found & excess & outputs & owners & d1 & _ & _ & HbountyDoc & Hst & Hho
          & Hfirst & Hstored & Hkinds & _ & Howners & Hhash & Hdoc & _ & Hd').
    cbv zeta in Howners, Hhash, Hdoc.
    set (inputs := Transfer_sort Coin_hash (Coin_fromPOD <$> found)) in *.
    set (sorted := Transfer_sort Bounty_hash outputs) in *.
    set (transfer := hi.mkFullTransfer inputs sorted None
                       (Signature_computeMu transferHash owners)) in *.
    assert (fullTransferOf d' transferDoc = Some transfer) as Hfull.
    { rewrite Hdoc. apply (built_fullTransfer d1); [|done|by rewrite Hd'|by rewrite Hd'].
      intros b Hb. apply Hstored. by apply Transfer_sort_elem_of in Hb. }
    exists transfer, owners, excess. split; [done|]. split; [done|]. split; [done|].
    split.
    { apply (ownersOf_frame inputs d1); [by rewrite Hd'|by rewrite Hd'|done]. }
    split; [done|]. rewrite HbountyDoc. split; [done|]. split; [done|].
    assert (bounties d' = bounties d1) as Hb by (by rewrite Hd').
    assert (directAddresses d' = directAddresses d1) as Hda by (by rewrite Hd').
    split.
    { rewrite Hb. rewrite HbountyDoc in Hfirst. by apply (Hstored _ Hfirst). }
    split.
    { apply Transfer_sort_elem_of. by rewrite <- HbountyDoc. }
    split.
    { intros b Hb'%Transfer_sort_elem_of. rewrite <- HbountyDoc.
      destruct (Hkinds b Hb') as [?|Hchange]; [by left|right].
      unfold changeBounty in *. by rewrite Hda. }
    apply finalizeTransfer_history; [by rewrite Hdoc|done].
  - intros address amount feeRate H.
    apply buildHookout_run in H
      as (unspent & found & excess & outputs & owners & d1 & _ & _ & Hst & Hnone & Hho
          & Hstored & Hkinds & Hlen & _ & Howners & Hhash & _ & Hdoc & _ & Hd').
    cbv zeta in Howners, Hhash, Hdoc, Hho, Hnone.
    set (inputs := Transfer_sort Coin_hash (Coin_fromPOD <$> found)) in *.
    set (hookout := hi.mkHookout amount address true (random (history d) 32)) in *.
    set (transfer := hi.mkFullTransfer inputs outputs (Some hookout)
                       (Signature_computeMu transferHash owners)) in *.
    assert (fullTransferOf d' transferDoc = Some transfer) as Hfull.
    { rewrite Hdoc.
      apply (built_fullTransfer d1); [done| |by rewrite Hd'|by rewrite Hd'].
      eexists. rewrite Hho, lookup_insert_eq. done. }
    exists transfer, owners, excess, hookout.
    split; [done|]. split; [done|]. split; [done|]. split; [done|]. split; [done|].
    split; [done|]. split.
    { apply (ownersOf_frame inputs d1); [by rewrite Hd'|by rewrite Hd'|done]. }
    split; [done|]. split.
    { intros b Hb'. pose proof (Hkinds b Hb') as Hchange.
      unfold changeBounty in *. by rewrite Hd'. }
    apply finalizeTransfer_history; [by rewrite Hdoc|done].
Qed.


(** [sendDirect] and [sendToBitcoinAddress] past their transaction. *)
Lemma sendDirect_built (to : PublicKey) (amount : Z) (d d1 : Database)
    (bountyDoc : Docs.Bounty) (transferDoc : Docs.Transfer) (transferHash : Hash) :
  (0 < amount)%Z →
  buildDirect to amount d = (inr (Some (bountyDoc, transferDoc, transferHash)), d1) →
  sendDirect to amount d
  = match finalizeTransfer transferDoc d1 with
    | (inr _, d2) => (inr (Some transferHash), d2)
    | (inl e, d2) => (inl e, d2)
    end.
Proof.
  intros Hpos Hbuilt. unfold sendDirect. rewrite bind_run. unfold mustEqual.
  rewrite bool_decide_eq_true_2 by done. rewrite decide_True by done.
  unfold ret at 1. cbv beta iota. rewrite bind_run, Hbuilt. cbv beta iota.
  rewrite bind_run. cbn [fst snd]. by destruct (finalizeTransfer transferDoc d1) as [[e|[]] d2].
Qed.

Lemma sendToBitcoinAddress_built (address : Address) (amount feeRate : Z) (d d1 : Database)
    (transferDoc : Docs.Transfer) (transferHash : Hash) :
  buildHookout address amount feeRate d = (inr (Some (transferDoc, transferHash)), d1) →
  sendToBitcoinAddress address amount feeRate d
  = match finalizeTransfer transferDoc d1 with
    | (inr _, d2) => (inr (Some transferHash), d2)
    | (inl e, d2) => (inl e, d2)
    end.
Proof.
  intros Hbuilt. unfold sendToBitcoinAddress. rewrite bind_run, Hbuilt. cbv beta iota.
  rewrite bind_run. cbn [fst snd]. by destruct (finalizeTransfer transferDoc d1) as [[e|[]] d2].
Qed.

Lemma built_pending (d d1 : Database) (transferDoc : Docs.Transfer) (transferHash : Hash) :
  (∃ to amount bountyDoc,
     buildDirect to amount d = (inr (Some (bountyDoc, transferDoc, transferHash)), d1))
  ∨ (∃ address amount feeRate,
       buildHookout address amount feeRate d = (inr (Some (transferDoc, transferHash)), d1)) →
  kind (Docs.t_status transferDoc) = "PENDING"
  ∧ transfers d1 !! Docs.t_hash transferDoc = Some transferDoc.
Proof.
  intros [(to & amount & bountyDoc & H)|(address & amount & feeRate & H)].
  - apply buildDirect_built in H as (Hrow & _ & _ & Hstatus & _). by rewrite Hstatus.
  - apply buildHookout_built in H as (Hrow & _ & _ & Hstatus & _). by rewrite Hstatus.
Qed.

(** X12. A send that the server acknowledges. Once its transaction has
    stored the transfer, [sendDirect] (for a positive amount) and
    [sendToBitcoinAddress] submit it, and on the acknowledgement of the
    server they return the transfer hash with the row of the transfer
    stored ACKNOWLEDGED, its coins still out of [listUnspent]. *)
Theorem send_acknowledged (d d1 : Database) (transferDoc : Docs.Transfer)
    (transferHash : Hash) (fullTransfer : hi.FullTransfer) (acknowledgement : Signature) :
  fullTransferOf d1 transferDoc = Some fullTransfer →
  submitTransfer (history d1) fullTransfer = inr acknowledgement →
  let sent (run : (Exn + option Hash) * Database) :=
    run.1 = inr (Some transferHash)
    ∧ transfers run.2
      = <[Docs.t_hash transferDoc := withStatus transferDoc (ACKNOWLEDGED acknowledgement)]>
          (transfers d1)
    ∧ bounties run.2 = bounties d1 ∧ hookouts run.2 = hookouts d1
    ∧ ∀ unspent coin, listUnspent run.2 = (inr unspent, run.2) → coin ∈ unspent →
        Docs.c_hash coin ∉ Docs.t_coinHashes transferDoc in
  (∀ to amount bountyDoc, (0 < amount)%Z →
     buildDirect to amount d = (inr (Some (bountyDoc, transferDoc, transferHash)), d1) →
     sent (sendDirect to amount d))
  ∧ (∀ address amount feeRate,
       buildHookout address amount feeRate d = (inr (Some (transferDoc, transferHash)), d1) →
       sent (sendToBitcoinAddress address amount feeRate d)).
Proof.
  intros Hfull Hack sent.
  assert (∀ run,
    (∃ to amount bountyDoc,
       buildDirect to amount d = (inr (Some (bountyDoc, transferDoc, transferHash)), d1))
    ∨ (∃ address amount feeRate,
         buildHookout address amount feeRate d
         = (inr (Some (transferDoc, transferHash)), d1)) →
    run = match finalizeTransfer transferDoc d1 with
          | (inr _, d2) => (inr (Some transferHash), d2)
          | (inl e, d2) => (inl e, d2)
          end →
    sent run) as Hsent.
  { intros run Hbuilt ->. apply built_pending in Hbuilt as [Hpending _].
    destruct (finalizeTransfer_submitted transferDoc d1 fullTransfer Hpending Hfull)
      as (bountyDocs & _ & Hrun).
    rewrite Hack in Hrun. rewrite bind_run in Hrun.
    unfold putTransfer, modify at 1, unawaited in Hrun. cbv beta iota in Hrun.
    match type of Hrun with context [claimOwnBounties _ ?x] =>
      pose proof (claimOwnBounties_made bountyDocs bountyDocs x (λ y H, H)) as Hmade;
      destruct (claimOwnBounties bountyDocs x) as [r d2] end.
    rewrite Hrun. simpl in Hmade. destruct Hmade as (cl & co & evs & -> & _).
    unfold sent. cbn [fst snd]. split; [done|]. split; [done|]. split; [done|].
    split; [done|].
    intros unspent coin Hunspent Hin.
    match type of Hunspent with listUnspent ?x = _ =>
      destruct (listUnspent_run x) as (u & Hu & Hspec) end.
    rewrite Hu in Hunspent. injection Hunspent as <-. apply Hspec in Hin as [_ Hfree].
    apply (Hfree (Docs.t_hash transferDoc)
                 (withStatus transferDoc (ACKNOWLEDGED acknowledgement))); [|done].
    simpl. by rewrite lookup_insert_eq. }
  split.
  - intros to amount bountyDoc Hpos Hbuilt. apply Hsent; [left; by eauto|].
    by eapply sendDirect_built.
  - intros address amount feeRate Hbuilt. apply Hsent; [right; by eauto|].
    by eapply sendToBitcoinAddress_built.
Qed.

(** X13. A send that the server rejects with another message than
    'INPUT_SPENT' throws the error of the server, and nothing of its
    transaction is taken back: the transfer stays stored PENDING with its
    outputs, so its coins stay out of [listUnspent] until the transfer is
    discarded. *)
Theorem send_rejected_stays_pending (d d1 : Database) (transferDoc : Docs.Transfer)
    (transferHash : Hash) (fullTransfer : hi.FullTransfer) (requestError : RequestError) :
  fullTransferOf d1 transferDoc = Some fullTransfer →
  submitTransfer (history d1) fullTransfer = inl requestError →
  re_message requestError ≠ "INPUT_SPENT" →
  let d2 := set_history (λ h, h ++ [EvSubmitTransfer fullTransfer]) d1 in
  ((∀ to amount bountyDoc, (0 < amount)%Z →
      buildDirect to amount d = (inr (Some (bountyDoc, transferDoc, transferHash)), d1) →
      sendDirect to amount d = (inl (Thrown requestError), d2)
      ∧ bounties d2 !! Docs.b_hash bountyDoc = Some bountyDoc)
   ∧ (∀ address amount feeRate,
        buildHookout address amount feeRate d = (inr (Some (transferDoc, transferHash)), d1) →
        sendToBitcoinAddress address amount feeRate d = (inl (Thrown requestError), d2)))
  ∧ ((∃ to amount bountyDoc,
        buildDirect to amount d = (inr (Some (bountyDoc, transferDoc, transferHash)), d1))
     ∨ (∃ address amount feeRate,
          buildHookout address amount feeRate d
          = (inr (Some (transferDoc, transferHash)), d1)) →
     transfers d2 !! Docs.t_hash transferDoc = Some transferDoc
     ∧ Docs.t_status transferDoc = PENDING
     ∧ ∃ unspent,
         listUnspent d = (inr unspent, d)
         ∧ listUnspent d2
           = (inr (filter (λ coin, Docs.c_hash coin ∉ Docs.t_coinHashes transferDoc) unspent),
              d2)).
Proof.
  intros Hfull Hreject Hother d2.
  assert ((∃ to amount bountyDoc,
             buildDirect to amount d = (inr (Some (bountyDoc, transferDoc, transferHash)), d1))
          ∨ (∃ address amount feeRate,
               buildHookout address amount feeRate d
               = (inr (Some (transferDoc, transferHash)), d1)) →
          finalizeTransfer transferDoc d1 = (inl (Thrown requestError), d2)) as Hfinal.
  { intros [Hpending _]%built_pending.
    destruct (finalizeTransfer_submitted transferDoc d1 fullTransfer Hpending Hfull)
      as (bountyDocs & _ & ->).
    by rewrite Hreject, decide_False. }
  split; [split|].
  - intros to amount bountyDoc Hpos Hbuilt. split.
    + rewrite (sendDirect_built _ _ _ _ _ _ _ Hpos Hbuilt), Hfinal; [done|left; by eauto].
    + apply buildDirect_run in Hbuilt
        as (unspent & found & excess & outputs & owners & d0 & _ & _ & -> & _ & _
            & Hfirst & Hstored & _ & _ & _ & _ & _ & _ & ->).
      subst d2. simpl. by apply (Hstored _ Hfirst).
  - intros address amount feeRate Hbuilt.
    rewrite (sendToBitcoinAddress_built _ _ _ _ _ _ _ Hbuilt), Hfinal; [done|right; by eauto].
  - intros Hbuilt. pose proof (built_pending _ _ _ _ Hbuilt) as [Hpending Hrow].
    split; [done|]. split.
    { destruct Hbuilt as [(to & amount & bountyDoc & H)|(address & amount & feeRate & H)].
      - by apply buildDirect_built in H as (_ & _ & _ & Hstatus & _).
      - by apply buildHookout_built in H as (_ & _ & _ & Hstatus & _). }
    assert (coins d1 = coins d
            ∧ transfers d1 = <[Docs.t_hash transferDoc := transferDoc]> (transfers d)
            ∧ transfers d !! Docs.t_hash transferDoc = None) as (Hcoins & Htransfers & Hfresh).
    { destruct Hbuilt as [(to & amount & bountyDoc & H)|(address & amount & feeRate & H)].
      - apply buildDirect_run in H
          as (unspent & found & excess & outputs & owners & d0 & _ & _ & _ & Hst & _ & _ & _
              & _ & _ & _ & _ & -> & Hfresh & ->).
        destruct Hst as (Hc & _ & _ & _ & Ht & _). simpl. by rewrite Hc, Ht.
      - apply buildHookout_run in H
          as (unspent & found & excess & outputs & owners & d0 & _ & _ & Hst & _ & _ & _ & _
              & _ & _ & _ & _ & _ & -> & Hfresh & ->).
        destruct Hst as (Hc & _ & _ & _ & Ht & _). simpl. by rewrite Hc, Ht. }
    apply (listUnspent_reserved d d2 transferDoc); [done|done|done|by rewrite Hpending].
Qed.

(** X14. A send that is refused before anything is stored. [sendDirect]
    throws on an amount that is not positive, before it reads the database;
    and when the coin selector finds no coins for the amount and the fee,
    [sendDirect] and [sendToBitcoinAddress] return 'NOT_ENOUGH_FUNDS'
    having written nothing, asked nothing and recorded nothing. *)
Theorem send_refused_unwritten (d : Database) (unspent : list Docs.Coin) :
  listUnspent d = (inr unspent, d) →
  (∀ to amount, ¬ (0 < amount)%Z → sendDirect to amount d = (inl MustEqual, d))
  ∧ (∀ to amount, (0 < amount)%Z →
       findAtLeast unspent (amount + Params_basicTransferFee) = None →
       sendDirect to amount d = (inr None, d))
  ∧ (∀ address amount feeRate,
       findAtLeast unspent (amount + feeRate * Params_templateTransactionWeight) = None →
       sendToBitcoinAddress address amount feeRate d = (inr None, d)).
Proof.
  intros Hunspent. split; [|split].
  - intros to amount Hneg. unfold sendDirect. rewrite bind_run. unfold mustEqual.
    rewrite bool_decide_eq_false_2 by done. by rewrite decide_False.
  - intros to amount Hpos Hnone. unfold sendDirect. rewrite bind_run. unfold mustEqual.
    rewrite bool_decide_eq_true_2 by done. rewrite decide_True by done.
    unfold ret at 1. cbv beta iota. rewrite bind_run.
    unfold buildDirect, transaction. rewrite bind_run, Hunspent. cbv beta iota.
    by rewrite Hnone.
  - intros address amount feeRate Hnone. unfold sendToBitcoinAddress. rewrite bind_run.
    unfold buildHookout, transaction. rewrite bind_run, Hunspent. cbv beta iota.
    by rewrite Hnone.
Qed.

End Send.

Section SyncMore.

Context {lib : HiLib} {world : World}.

Lemma claimed_claims_grow (d d' : Database) (ev : Event) (r : hi.AcknowledgedClaimResponse)
    (k : string) :
  claimed d ev r d' → claims d' !! k = None → claims d !! k = None.
Proof.
  intros [-> | (co & ->)]; [done|]. simpl. intros Hnone.
  by apply lookup_insert_None in Hnone as [? _].
Qed.

(** One [claimHookin]: what it records, and that no claim record is lost. *)
Lemma claimHookin_made (P : Event → Prop) (hookinDoc : Docs.Hookin) (d : Database) :
  (claims d !! Docs.h_hash hookinDoc = None →
   ∀ claimant, P (EvMakeClaim claimant (ClaimHookin (Hookin_fromPOD hookinDoc))
                    (amountToMagnitudes
                       (Docs.h_amount hookinDoc - Params_transactionConsolidationFee)))) →
  claimsMade P d (claimHookin hookinDoc d).2
  ∧ ∀ k, claims (claimHookin hookinDoc d).2 !! k = None → claims d !! k = None.
Proof.
  intros HP.
  destruct (claimHookin_cases hookinDoc d)
    as [[_ ->]|[(e & ->)|(ba & info & Hnone & _ & _ & Hrt)]]; simpl.
  - split; [apply claimsMade_refl|done].
  - split; [apply claimsMade_refl|done].
  - cbv zeta in Hrt. destruct (makeClaim _ _ _ _ _) as [e|r].
    + rewrite Hrt. simpl. split; [|done].
      eapply (claimsMade_intro _ _ _ [_]); try done. apply Forall_singleton. by apply HP.
    + destruct Hrt as (d' & -> & Hcl). simpl. split.
      * eapply claimed_claimsMade; [|done]. by apply HP.
      * intros k. by eapply claimed_claims_grow.
Qed.

Lemma claimHookins_made (d0 : Database) (hookinDocs : list Docs.Hookin) (d : Database) :
  (∀ hookinDoc, hookinDoc ∈ hookinDocs → ∃ k, hookins d0 !! k = Some hookinDoc) →
  (∀ k, claims d !! k = None → claims d0 !! k = None) →
  claimsMade (hookinClaimEvent d0) d (forEach hookinDocs claimHookin d).2.
Proof.
  revert d. induction hookinDocs as [|hookinDoc hookinDocs IH]; intros d Hstored Hgrow.
  - apply claimsMade_refl.
  - rewrite forEach_cons.
    destruct (claimHookin_made (hookinClaimEvent d0) hookinDoc d) as [Hstep Hgrow'].
    { intros Hnone claimant. destruct (Hstored hookinDoc) as (k & Hk); [by left|].
      exists k, hookinDoc, claimant. split; [done|]. split; [by apply Hgrow|done]. }
    destruct (claimHookin hookinDoc d) as [[e|[]] d1]; simpl in *; [done|].
    eapply claimsMade_trans; [done|]. apply IH.
    + intros h Hh. apply Hstored. by right.
    + intros k Hk. by apply Hgrow, Hgrow'.
Qed.

(** X15. [syncHookins] asks the server to claim stored hookins that have no
    claim record, and no other: every event it records is the claim request
    of such a hookin, for the magnitudes of its amount less the
    consolidation fee, and beside the history it writes the tables
    [claims] and [coins] only. When every stored hookin has a claim record
    under its hash, it returns with the database as it was. *)
Theorem syncHookins_claims_unclaimed (d : Database) :
  claimsMade (hookinClaimEvent d) d (syncHookins d).2
  ∧ ((∀ k hookinDoc, hookins d !! k = Some hookinDoc →
        is_Some (claims d !! Docs.h_hash hookinDoc)) →
     syncHookins d = (inr tt, d)).
Proof.
  assert (∃ unclaimedHookins,
            syncHookins d = forEach unclaimedHookins claimHookin d
            ∧ ∀ hookinDoc, hookinDoc ∈ unclaimedHookins →
                ∃ k, hookins d !! k = Some hookinDoc) as (unclaimedHookins & -> & Hstored).
  { eexists. split; [reflexivity|].
    intros hookinDoc [_ Hin]%list_elem_of_filter.
    apply list_elem_of_fmap in Hin as ((k & h) & -> & Hin).
    exists k. by apply elem_of_map_to_list. }
  split.
  - by apply claimHookins_made.
  - intros Hall.
    induction unclaimedHookins as [|hookinDoc rest IH]; [reflexivity|].
    rewrite forEach_cons. destruct (Hstored hookinDoc) as (k & Hk); [by left|].
    rewrite claimHookin_claimed by (by eapply Hall).
    apply IH. intros h Hh. apply Hstored. by right.
Qed.


(** The first loop of the scan when no address has receipts: one probe and
    one more in the gap count for every stored address. *)
Lemma recheck_empty (addresses : list Docs.BitcoinAddress) (gapCount : Z) (d : Database) :
  (∀ h a, fetchBitcoinReceives h a = []) →
  recheck addresses gapCount d
  = (inr (gapCount + Z.of_nat (length addresses))%Z,
     set_history (λ h, h ++ (EvFetchBitcoinReceives <$> (Docs.ba_address <$> addresses))) d).
Proof.
  intros Hnone. revert gapCount d.
  induction addresses as [|address addresses IH]; intros gapCount d.
  - simpl. unfold ret. f_equal; [f_equal; lia|]. destruct d. setters. by rewrite app_nil_r.
  - cbn [recheck]. rewrite bind_run. unfold checkBitcoinAddress.
    rewrite bind_run. unfold callFetchBitcoinReceives, interact at 1. cbv beta iota.
    rewrite Hnone. cbn [addHookins forEach]. rewrite bind_run. unfold ret at 1 2.
    cbv beta iota. rewrite bool_decide_eq_false_2 by (simpl; lia).
    rewrite IH. f_equal; [f_equal; rewrite length_cons; lia|].
    destruct d. setters. rewrite !fmap_cons, <- app_assoc. done.
Qed.

(** The second loop when no address has receipts: it probes the addresses
    of the next indices until the gap count reaches the gap limit, and
    stores nothing. *)
Lemma probe_all_empty (s : Bytes) (gapLimit : Z) (probes fuel : nat)
    (checkIndex lastAddressIndex gapCount : Z) (d : Database) :
  (∀ h a, fetchBitcoinReceives h a = []) →
  (∀ i, ∃ info, bitcoinAddressAt s i = inr info) →
  seed d = Some s →
  probes = Z.to_nat (gapLimit - gapCount) → probes ≤ fuel →
  probe fuel gapLimit checkIndex lastAddressIndex gapCount d
  = (inr (Some tt),
     set_history (λ h, h ++ (EvFetchBitcoinReceives
                               <$> (addressAt s <$> seqZ checkIndex (Z.of_nat probes)))) d).
Proof.
  intros Hnone Hderive. revert fuel checkIndex gapCount d.
  induction probes as [|probes IH]; intros fuel checkIndex gapCount d Hs Hprobes Hfuel.
  - rewrite probe_done by lia. f_equal. destruct d. setters. simpl. by rewrite app_nil_r.
  - destruct fuel as [|fuel]; [lia|].
    destruct (Hderive checkIndex) as (info & Hinfo).
    rewrite (probe_empty _ _ _ _ _ _ s info); [|done|done|apply Hnone|lia].
    rewrite (IH fuel); [|done|lia|lia].
    f_equal. destruct d. setters. f_equal.
    rewrite Nat2Z.inj_succ, (seqZ_cons checkIndex) by lia. rewrite !fmap_cons, <- app_assoc.
    unfold addressAt at 2. rewrite Hinfo. simpl.
    by replace (Z.pred (Z.succ (Z.of_nat probes))) with (Z.of_nat probes) by lia.
Qed.

(** X16. The scan of a wallet without receipts. When no address has
    received anything, [syncBitcoinAddresses] first probes every stored
    address, in the order of the indices, and counts each one into the gap;
    it then probes the addresses of the indices after the last stored one
    until the gap count reaches the gap limit, and stores nothing: no
    address, no hookin. So with [k] stored addresses and gap limit [n] it
    probes [n - k] new addresses, and none at all when [n <= k]. *)
Theorem syncBitcoinAddresses_no_receipts (d : Database) (s : Bytes) (cfg : Config)
    (fuel : nat) :
  seed d = Some s → config d = Some cfg →
  (∀ h a, fetchBitcoinReceives h a = []) →
  (∀ i, ∃ info, bitcoinAddressAt s i = inr info) →
  let addresses := orderBy Docs.ba_index (bitcoinAddresses d) in
  let lastAddressIndex :=
    match last addresses with
    | Some a => Docs.ba_index a
    | None => (-1)%Z
    end in
  let probes := Z.to_nat (cfg_gapLimit cfg - Z.of_nat (length addresses)) in
  probes ≤ fuel →
  syncBitcoinAddresses fuel d
  = (inr (Some tt),
     set_history
       (λ h, h ++ (EvFetchBitcoinReceives
                     <$> ((Docs.ba_address <$> addresses)
                          ++ (addressAt s <$> seqZ (lastAddressIndex + 1) (Z.of_nat probes)))))
       d).
Proof.
  intros Hs Hcfg Hnone Hderive addresses lastAddressIndex probes Hfuel.
  unfold syncBitcoinAddresses, getConfig.
  rewrite bind_run, bind_run. unfold get at 1. cbv beta iota. rewrite Hcfg.
  unfold mustExist, ret at 1. cbv beta iota zeta. rewrite bind_run.
  unfold get at 1. cbv beta iota. fold addresses. rewrite bind_run, recheck_empty by done.
  fold lastAddressIndex.
  rewrite (probe_all_empty s _ probes); [|done|done|done|subst probes; f_equal; lia|done].
  f_equal. destruct d. setters. by rewrite fmap_app, app_assoc.
Qed.

End SyncMore.

Section Unlock.

Context {lib : HiLib} {world : World} {bip39 : Bip39}.

(** X17. [reset] clears every table but [config]: the tables are empty and
    the config, the seed (the wallet stays unlocked) and the history are as
    before; so no coin is unspent, the balance is zero and [getConfig]
    answers as before. *)
Theorem reset_keeps_config (d : Database) :
  let d' := mkDatabase ∅ (config d) ∅ ∅ ∅ ∅ ∅ ∅ ∅ (seed d) (history d) in
  reset d = (inr tt, d')
  ∧ listUnspent d' = (inr [], d')
  ∧ getBalance d' = (inr 0%Z, d')
  ∧ (getConfig d').1 = (getConfig d).1.
Proof.
  intros d'. split; [|split; [|split]].
  - subst d'. destruct d. reflexivity.
  - reflexivity.
  - reflexivity.
  - unfold getConfig. rewrite !bind_run. simpl. by destruct (config d).
Qed.

Lemma seedToBitcoinAddressGenerator_run (s : Bytes) (d : Database) :
  seedToBitcoinAddressGenerator s d
  = (match PrivateKey_fromBytes (Hash_fromMessage "bitcoinAddressGenerator" [s]) with
     | Some g => inr g
     | None => inl NotError
     end, d).
Proof. unfold seedToBitcoinAddressGenerator, notError. by destruct (PrivateKey_fromBytes _). Qed.

Lemma seedToDirectAddressGenerator_run (s : Bytes) (d : Database) :
  seedToDirectAddressGenerator s d
  = (match PrivateKey_fromBytes (Hash_fromMessage "directAddressGenerator" [s]) with
     | Some g => inr g
     | None => inl NotError
     end, d).
Proof. unfold seedToDirectAddressGenerator, notError. by destruct (PrivateKey_fromBytes _). Qed.

Lemma seedToInternalAddressGenerator_run (s : Bytes) (d : Database) :
  seedToInternalAddressGenerator s d
  = (match PrivateKey_fromBytes (Hash_fromMessage "internalAddressGenerator" [s]) with
     | Some g => inr g
     | None => inl NotError
     end, d).
Proof. unfold seedToInternalAddressGenerator, notError. by destruct (PrivateKey_fromBytes _). Qed.

(** What [unlock] does with the row of the config. *)
Lemma unlock_run (row : ConfigDoc) (password : string) (d : Database) :
  let s := mnemonicToSeed (cd_mnemonic row) password in
  unlock (Some row) password d
  = match PrivateKey_fromBytes (Hash_fromMessage "bitcoinAddressGenerator" [s]) with
    | None => (inl NotError, d)
    | Some g =>
        if decide (PrivateKey_toPublicKey g = cd_bitcoinAddressGenerator row)
        then (inr None, set_seed (λ _, Some s) d)
        else (inr (Some "INVALID_PASSWORD"), d)
    end.
Proof.
  intros s. unfold unlock. rewrite bind_run. unfold mustExist, ret at 1. cbv beta iota zeta.
  rewrite bind_run, seedToBitcoinAddressGenerator_run. fold s.
  destruct (PrivateKey_fromBytes _) as [g|]; [|done].
  destruct (decide (PrivateKey_toPublicKey g = cd_bitcoinAddressGenerator row)) as [Heq|Hne].
  - by rewrite decide_False by (intros ?; done).
  - by rewrite decide_True.
Qed.

(** X18. A wallet is restored once, and the password that restored it
    unlocks it. [restore] returns a row only on a database without config
    and for a mnemonic that validates; the row it adds holds the mnemonic,
    gap limit 10 and the public key of the bitcoin address generator of the
    seed, and the wallet it returns holds that seed while no table but
    [config] is written. [unlock] with the same password on that row then
    loads the same seed, whatever seed the wallet held. On a database that
    has a config, or for a mnemonic that does not validate, [restore]
    returns an error (or throws), and nothing is stored: the config stays
    and the wallet it leaves is locked. *)
Theorem restore_then_unlock (mnemonic password : string) (d : Database) :
  let s := mnemonicToSeed mnemonic password in
  match restore mnemonic password d with
  | (inr (inr row), d') =>
      config d = None ∧ validateMnemonic mnemonic = true
      ∧ d' = set_seed (λ _, Some s) (set_config (λ _, Some (configOf row)) d)
      ∧ cd_mnemonic row = mnemonic ∧ cd_gapLimit row = 10%Z
      ∧ (∃ g, PrivateKey_fromBytes (Hash_fromMessage "bitcoinAddressGenerator" [s]) = Some g
              ∧ cd_bitcoinAddressGenerator row = PrivateKey_toPublicKey g)
      ∧ ∀ d'', unlock (Some row) password d'' = (inr None, set_seed (λ _, Some s) d'')
  | (inr (inl error), d') =>
      d' = set_seed (λ _, None) d
      ∧ (error = "INVALID_MNEMONIC" ∧ validateMnemonic mnemonic = false
         ∨ error = "WALLET_ALREADY_INITIALIZED" ∧ is_Some (config d))
  | (inl e, d') => d' = set_seed (λ _, None) d ∧ e = NotError
  end.
Proof.
  intros s. unfold restore. rewrite bind_run. unfold modify at 1. cbv beta iota zeta.
  destruct (validateMnemonic mnemonic) eqn:Hvalid; cbn [negb].
  2:{ split; [done|]. by left. }
  fold s. rewrite bind_run, seedToBitcoinAddressGenerator_run.
  destruct (PrivateKey_fromBytes (Hash_fromMessage "bitcoinAddressGenerator" [s]))
    as [g1|] eqn:Hg1; [|done].
  rewrite bind_run, seedToDirectAddressGenerator_run.
  destruct (PrivateKey_fromBytes (Hash_fromMessage "directAddressGenerator" [s]))
    as [g2|] eqn:Hg2; [|done].
  rewrite bind_run, seedToInternalAddressGenerator_run.
  destruct (PrivateKey_fromBytes (Hash_fromMessage "internalAddressGenerator" [s]))
    as [g3|] eqn:Hg3; [|done].
  rewrite bind_run. unfold get at 1. cbv beta iota.
  change (config (set_seed (λ _, None) d)) with (config d).
  destruct (config d) as [c|] eqn:Hc.
  { split; [done|]. right. by split. }
  rewrite bind_run. unfold modify at 1. cbv beta iota. rewrite bind_run.
  unfold modify at 1. cbv beta iota. unfold ret.
  split; [done|]. split; [done|]. split; [by destruct d|]. split; [done|]. split; [done|].
  split; [by exists g1|].
  intros d''. rewrite unlock_run. cbn [cd_mnemonic cd_bitcoinAddressGenerator]. fold s.
  by rewrite Hg1, decide_True.
Qed.

(** X19. [unlock] checks the password against the config. It loads the
    seed of the mnemonic and the password exactly when the public key of
    the bitcoin address generator of that seed is the one the config
    holds; otherwise it returns 'INVALID_PASSWORD' and the wallet is as it
    was, locked or with the seed it held. Without a config row it throws.
    No table is ever written. *)
Theorem unlock_checks_password (password : string) (d : Database) :
  unlock None password d = (inl MustExist, d)
  ∧ ∀ row,
      let s := mnemonicToSeed (cd_mnemonic row) password in
      match unlock (Some row) password d with
      | (inr None, d') =>
          d' = set_seed (λ _, Some s) d
          ∧ ∃ g, PrivateKey_fromBytes (Hash_fromMessage "bitcoinAddressGenerator" [s])
                 = Some g
                 ∧ PrivateKey_toPublicKey g = cd_bitcoinAddressGenerator row
      | (inr (Some error), d') =>
          error = "INVALID_PASSWORD" ∧ d' = d
          ∧ ∃ g, PrivateKey_fromBytes (Hash_fromMessage "bitcoinAddressGenerator" [s])
                 = Some g
                 ∧ PrivateKey_toPublicKey g ≠ cd_bitcoinAddressGenerator row
      | (inl e, d') =>
          e = NotError ∧ d' = d
          ∧ PrivateKey_fromBytes (Hash_fromMessage "bitcoinAddressGenerator" [s]) = None
      end.
Proof.
  split; [done|]. intros row s. rewrite unlock_run. fold s.
  destruct (PrivateKey_fromBytes _) as [g|] eqn:Hg; [|done].
  case_decide; [split; [done|by exists g]|].
  split; [done|]. split; [done|]. by exists g.
Qed.

End Unlock.

Section CheckDirect.

Context {lib : HiLib} {world : World} {lookup : BountyLookup}.

Lemma claimBountyWithAddress_bounties (bountyDoc : Docs.Bounty)
    (address : Docs.DirectAddress) (d : Database) :
  bounties (claimBountyWithAddress bountyDoc address d).2 = bounties d.
Proof.
  destruct (claimBountyWithAddress_made (λ _, True) bountyDoc address d)
    as (cl & co & evs & -> & _); done.
Qed.

(** The loop of [checkDirectAddress] over the bounties reported. *)
Lemma checkDirectAddress_loop (address : Docs.DirectAddress) (reported : list hi.Bounty)
    (d d' : Database) :
  forEach reported (λ bounty,
    addBounty (Bounty_toDoc bounty);;
    claimBountyWithAddress (Bounty_toDoc bounty) address) d = (inr tt, d') →
  (∀ b, b ∈ reported → bounties d !! Bounty_hash b = None)
  ∧ NoDup (Bounty_hash <$> reported)
  ∧ (∀ k, bounties d' !! k
          = match list_find (λ b, Bounty_hash b = k) reported with
            | Some (_, b) => Some (Bounty_toDoc b)
            | None => bounties d !! k
            end).
Proof.
  revert d. induction reported as [|b reported IH]; intros d.
  - intros [= <-]. split; [|split; [constructor|done]].
    intros b Hb. by apply elem_of_nil in Hb.
  - rewrite forEach_cons, bind_run.
    destruct (addBounty (Bounty_toDoc b) d) as [[e|[]] d1] eqn:Hadd; [done|].
    apply addBounty_inr in Hadd as [Hnone ->]. cbn [Docs.b_hash Bounty_toDoc] in *.
    pose proof (claimBountyWithAddress_bounties (Bounty_toDoc b) address
                  (set_bounties (insert (Bounty_hash b) (Bounty_toDoc b)) d)) as Hsame.
    destruct (claimBountyWithAddress (Bounty_toDoc b) address _) as [[e|[]] d2]; [done|].
    simpl in Hsame. intros (Hnew & Hnodup & Hkeys)%IH.
    assert (∀ b', b' ∈ reported → Bounty_hash b' ≠ Bounty_hash b) as Hdistinct.
    { intros b' Hb' Heq. specialize (Hnew b' Hb').
      by rewrite Hsame, Heq, lookup_insert_eq in Hnew. }
    split; [|split].
    + intros b' [->|Hb']%elem_of_cons; [done|].
      specialize (Hnew b' Hb'). rewrite Hsame in Hnew.
      by apply lookup_insert_None in Hnew as [? _].
    + rewrite fmap_cons. constructor; [|done].
      intros (b' & Heq & Hb')%list_elem_of_fmap. by apply (Hdistinct b').
    + intros k. rewrite Hkeys. cbn [list_find]. case_decide as Hk.
      * subst k. destruct (list_find _ reported) as [[i b']|] eqn:Hfind.
        -- apply list_find_Some in Hfind as (Hi & Heq & _).
           exfalso. apply (Hdistinct b'); [|done]. by eapply list_elem_of_lookup_2.
        -- simpl. by rewrite Hsame, lookup_insert_eq.
      * destruct (list_find _ reported) as [[i b']|]; simpl; [done|].
        by rewrite Hsame, lookup_insert_ne.
Qed.

(** X20. [checkDirectAddress] adds the bounties the server reports for the
    claimant, and [add] refuses a stored key: it returns only when none of
    the reported bounties was stored before and their hashes differ, and it
    has then stored every one of them under its hash, leaving the other
    bounties as they were. So when the server reports a bounty that is
    stored already (as on a second check of the same address) it throws,
    and when that bounty is the first reported nothing is written. *)
Theorem checkDirectAddress_adds_new_bounties (address : Docs.DirectAddress) (d : Database) :
  let reported := lookupBountiesByClaimant (history d) (Docs.da_claimant address) in
  (∀ d', checkDirectAddress address d = (inr tt, d') →
     (∀ b, b ∈ reported → bounties d !! Bounty_hash b = None)
     ∧ NoDup (Bounty_hash <$> reported)
     ∧ (∀ b, b ∈ reported → bounties d' !! Bounty_hash b = Some (Bounty_toDoc b))
     ∧ (∀ k, (∀ b, b ∈ reported → Bounty_hash b ≠ k) → bounties d' !! k = bounties d !! k))
  ∧ (∀ b rest, reported = b :: rest → is_Some (bounties d !! Bounty_hash b) →
       checkDirectAddress address d = (inl ConstraintError, d)).
Proof.
  intros reported.
  assert (checkDirectAddress address d
          = forEach reported (λ bounty,
              addBounty (Bounty_toDoc bounty);;
              claimBountyWithAddress (Bounty_toDoc bounty) address) d) as -> by reflexivity.
  split.
  - intros d' (Hnew & Hnodup & Hkeys)%checkDirectAddress_loop.
    split; [done|]. split; [done|]. split.
    + intros b Hb. rewrite Hkeys.
      destruct (list_find _ reported) as [[i b']|] eqn:Hfind.
      * apply list_find_Some in Hfind as (Hi & Heq & _).
        apply list_elem_of_lookup in Hb as (j & Hj).
        assert (i = j) as ->.
        { eapply (NoDup_lookup (Bounty_hash <$> reported)); [done| |].
          - by rewrite list_lookup_fmap, Hi.
          - rewrite list_lookup_fmap, Hj. simpl. by rewrite Heq. }
        by simplify_eq.
      * apply list_find_None in Hfind. rewrite Forall_forall in Hfind.
        by specialize (Hfind b Hb).
    + intros k Hk. rewrite Hkeys.
      destruct (list_find _ reported) as [[i b']|] eqn:Hfind; [|done].
      apply list_find_Some in Hfind as (Hi & Heq & _). exfalso.
      apply (Hk b'); [|done]. by eapply list_elem_of_lookup_2.
  - intros b rest Hreported [doc Hdoc]. rewrite Hreported, forEach_cons. cbv beta zeta.
    rewrite bind_run. unfold addBounty, add. rewrite bind_run. unfold get at 1.
    cbv beta iota. change (Docs.b_hash (Bounty_toDoc b)) with (Bounty_hash b).
    by rewrite Hdoc.
Qed.

End CheckDirect.

Section Contiguous.

Context {lib : HiLib} {world : World}.











End Contiguous.

Section Edges.

Context {lib : HiLib} {world : World}.

Lemma thrown {A} (r : (Exn + A) * Database) (e : Exn) : r.1 = inl e → r = (inl e, r.2).
Proof. destruct r as [[e'|a] d]; simpl; intros H; by inversion H. Qed.

(** When [addHookins] throws, the hookin whose claim failed is stored and
    has no claim record. *)
Lemma addHookins_failed (bitcoinAddressDoc : Docs.BitcoinAddress)
    (receives : list BitcoinReceiveInfo) (d d' : Database) (e : Exn) :
  addHookins bitcoinAddressDoc receives d = (inl e, d') →
  ∃ receive created,
    receive ∈ receives
    ∧ hookins d' !! Docs.h_hash (hookinDocOf bitcoinAddressDoc receive created)
      = Some (hookinDocOf bitcoinAddressDoc receive created)
    ∧ claims d' !! Docs.h_hash (hookinDocOf bitcoinAddressDoc receive created) = None.
Proof.
  unfold addHookins. revert d. induction receives as [|receive receives IH]; intros d Hrun.
  - done.
  - rewrite forEach_cons, bind_run in Hrun. unfold interact at 1 in Hrun.
    cbv beta iota in Hrun. rewrite bind_run in Hrun. unfold modify at 1 in Hrun.
    cbv beta iota in Hrun.
    set (created := now (history d)) in Hrun.
    set (doc := hookinDocOf bitcoinAddressDoc receive created) in Hrun.
    set (d1 := set_hookins (insert (Docs.h_hash doc) doc)
                 (set_history (λ h, h ++ [EvDate]) d)) in Hrun.
    destruct (claimHookin doc d1) as [[e1|[]] d2] eqn:Hclaim.
    + injection Hrun as <- <-. exists receive, created. split; [by left|]. fold doc.
      destruct (claims d1 !! Docs.h_hash doc) as [claim|] eqn:Hnone.
      { by rewrite claimHookin_claimed in Hclaim by done. }
      destruct (claimHookin_cases doc d1)
        as [[_ Hr]|[(e2 & Hr)|(ba & info & _ & _ & _ & Hr)]].
      * by rewrite Hr in Hclaim.
      * rewrite Hr in Hclaim. injection Hclaim as _ <-. split; [|done].
        subst d1. simpl. by rewrite lookup_insert_eq.
      * cbv zeta in Hr. destruct (makeClaim _ _ _ _ _) as [e2|r].
        -- rewrite Hr in Hclaim. injection Hclaim as _ <-. split; [|done].
           subst d1. simpl. by rewrite lookup_insert_eq.
        -- destruct Hr as (d3 & Hr & _). by rewrite Hr in Hclaim.
    + destruct (IH d2 Hrun) as (r & c & Hr & Hrow). exists r, c. split; [by right|done].
Qed.

(** X24. A receipt is recorded before its claim is requested. When
    [checkBitcoinAddress] throws, one of the receipts the server reported
    for the address is stored as a hookin of that address and has no claim
    record: the failed claim loses nothing, and the hookin is left for
    [syncHookins] to claim. *)
Theorem checkBitcoinAddress_failed_claim_keeps_hookin
    (bitcoinAddressDoc : Docs.BitcoinAddress) (d d' : Database) (e : Exn) :
  checkBitcoinAddress bitcoinAddressDoc d = (inl e, d') →
  ∃ receive created,
    receive ∈ fetchBitcoinReceives (history d) (Docs.ba_address bitcoinAddressDoc)
    ∧ let hookinDoc := hookinDocOf bitcoinAddressDoc receive created in
      hookins d' !! Docs.h_hash hookinDoc = Some hookinDoc
      ∧ Docs.h_bitcoinAddress hookinDoc = Docs.ba_address bitcoinAddressDoc
      ∧ claims d' !! Docs.h_hash hookinDoc = None.
Proof.
  unfold checkBitcoinAddress. rewrite bind_run.
  unfold callFetchBitcoinReceives, interact at 1. cbv beta iota. rewrite bind_run.
  intros Hrun.
  match type of Hrun with context [addHookins ?doc ?rs ?d1] =>
    destruct (addHookins doc rs d1) as [[e1|[]] d2] eqn:Hadd end; [|done].
  injection Hrun as <- <-.
  destruct (addHookins_failed _ _ _ _ _ Hadd) as (receive & created & Hin & Hrow & Hnone).
  exists receive, created. split; [done|]. cbv zeta. split; [done|]. split; [done|done].
Qed.

(** X25. A locked wallet requests no claim. Without a seed, claiming a
    hookin on a stored address, or a bounty, that has no claim record
    throws 'wallet is locked' before anything is sent to the server or
    written: the database, history included, is as it was. *)
Theorem locked_wallet_requests_no_claim (d : Database) :
  seed d = None →
  (∀ hookinDoc,
     claims d !! Docs.h_hash hookinDoc = None →
     is_Some (bitcoinAddresses d !! Docs.h_bitcoinAddress hookinDoc) →
     claimHookin hookinDoc d = (inl WalletLocked, d))
  ∧ (∀ bountyDoc address,
       claims d !! Docs.b_hash bountyDoc = None →
       claimBountyWithAddress bountyDoc address d = (inl WalletLocked, d))
  ∧ (∀ bountyDoc,
       claims d !! Docs.b_hash bountyDoc = None →
       is_Some (directAddresses d !! Docs.b_claimant bountyDoc) →
       claimBounty bountyDoc d = (inl WalletLocked, d)).
Proof.
  intros Hs. split; [|split].
  - intros hookinDoc Hnone [ba Hba]. unfold claimHookin. rewrite bind_run. simpl.
    rewrite Hnone, bind_run, Hba. simpl.
    by rewrite bind_run, deriveBitcoinAddressIndex_locked.
  - intros bountyDoc address Hnone. unfold claimBountyWithAddress. rewrite bind_run. simpl.
    by rewrite Hnone, bind_run, deriveClaimantIndex_locked.
  - intros bountyDoc Hnone [address Ha]. unfold claimBounty. rewrite bind_run. simpl.
    rewrite bind_run, Ha. simpl.
    unfold claimBountyWithAddress. rewrite bind_run. simpl.
    by rewrite Hnone, bind_run, deriveClaimantIndex_locked.
Qed.

(** X26. A locked wallet makes no address. Without a seed,
    [newBitcoinAddress], [newDirectAddress] and [newInternalBounty] throw
    'wallet is locked' and leave the database as it was, and so does
    [getUnusedBitcoinAddress] unless the last stored address has no hookin,
    in which case it returns that address. *)
Theorem locked_wallet_makes_no_address (d : Database) :
  seed d = None →
  newBitcoinAddress d = (inl WalletLocked, d)
  ∧ newDirectAddress d = (inl WalletLocked, d)
  ∧ (∀ amount, newInternalBounty amount d = (inl WalletLocked, d))
  ∧ match last (orderBy Docs.ba_index (bitcoinAddresses d)) with
    | Some a =>
        if decide (0 < hookinCount d (Docs.ba_address a))
        then getUnusedBitcoinAddress d = (inl WalletLocked, d)
        else getUnusedBitcoinAddress d = (inr a, d)
    | None => getUnusedBitcoinAddress d = (inl WalletLocked, d)
    end.
Proof.
  intros Hs.
  assert (rollback d d = d) as Hback by (by destruct d).
  assert (∀ i, addBitcoinAddress i d = (inl WalletLocked, d)) as Hadd.
  { intros i. unfold addBitcoinAddress.
    by rewrite bind_run, deriveBitcoinAddressIndex_locked. }
  assert (∀ i b, addDirectAddress i b d = (inl WalletLocked, d)) as Hdirect.
  { intros i b. unfold addDirectAddress.
    by rewrite bind_run, deriveClaimantIndex_locked. }
  split; [|split; [|split]].
  - unfold newBitcoinAddress, transaction. rewrite bind_run. unfold get at 1.
    cbv beta iota zeta. by rewrite Hadd, Hback.
  - unfold newDirectAddress, transaction. rewrite bind_run. unfold get at 1.
    cbv beta iota zeta. by rewrite Hdirect, Hback.
  - intros amount. unfold newInternalBounty. rewrite bind_run. unfold get at 1.
    cbv beta iota zeta. by rewrite bind_run, Hdirect.
  - assert (getUnusedBitcoinAddress d
            = match (match head (reverse (orderBy Docs.ba_index (bitcoinAddresses d))) with
                     | Some a =>
                         if decide (0 < hookinCount d (Docs.ba_address a))
                         then addBitcoinAddress (Docs.ba_index a + 1)
                         else ret a
                     | None => addBitcoinAddress 0
                     end) d with
              | (inr a, d') => (inr a, d')
              | (inl e, d') => (inl e, rollback d d')
              end) as -> by reflexivity.
    rewrite head_reverse.
    destruct (last (orderBy Docs.ba_index (bitcoinAddresses d))) as [a|].
    + destruct (decide (0 < hookinCount d (Docs.ba_address a))).
      * by rewrite Hadd, Hback.
      * done.
    + by rewrite Hadd, Hback.
Qed.

End Edges.

(** * The theorems at work in the small world *)

(** C3, the counterexample. A fresh wallet with gap limit 3 and receipts on
    the addresses of the indices 0 and 4 alone: the scan returns having
    probed the indices 0 to 3, with the one address of index 0 stored (not
    the indices 0 to 7) and the one hookin of index 0 (none for index 4). *)
Lemma syncBitcoinAddresses_stops_before_index_4 :
  let run := @syncBitcoinAddresses Toy.lib Scenario.gapWorld 20 Scenario.fresh in
  cfg_gapLimit <$> config Scenario.fresh = Some 3%Z
  ∧ bitcoinAddresses Scenario.fresh = ∅
  ∧ (Scenario.receives <$> (Scenario.addressOf <$> [0; 1; 2; 3; 4; 5; 6; 7]%Z))
    = [[mkBitcoinReceiveInfo "tx0" 0 100]; []; []; [];
       [mkBitcoinReceiveInfo "tx4" 1 50]; []; []; []]
  ∧ run.1 = inr (Some tt)
  ∧ Docs.ba_index <$> (map_to_list (bitcoinAddresses run.2)).*2 = [0%Z]
  ∧ Docs.h_txid <$> (map_to_list (hookins run.2)).*2 = ["tx0"]
  ∧ fetches (history run.2) = Scenario.addressOf <$> [0; 1; 2; 3]%Z.
Proof. by vm_compute. Qed.

(** The amended C3 on the fresh wallet of the scenario. *)
Lemma syncBitcoinAddresses_gap_limit_3_witness :
  ∃ d', @syncBitcoinAddresses Toy.lib Scenario.gapWorld 20 Scenario.fresh = (inr (Some tt), d')
  ∧ bitcoinAddresses d'
    = {[Scenario.addressOf 0 := Docs.mkBitcoinAddress (Scenario.addressOf 0)
                         (@PrivateKey_toPublicKey Toy.lib (Scenario.keyOf 0)) 0]}
  ∧ fetches (history d') = Scenario.addressOf <$> [0; 1; 2; 3]%Z.
Proof.
  destruct (@syncBitcoinAddresses_gap_limit_3 Toy.lib Scenario.gapWorld Scenario.fresh Scenario.theSeed
              (mkConfig "mnemonic" 3) 20 Scenario.keyOf Scenario.addressOf)
    as (d' & Hrun & Haddresses & Hfetches & _).
  - reflexivity.
  - reflexivity.
  - reflexivity.
  - reflexivity.
  - intros i Hi. reflexivity.
  - intros h i Hi.
    assert (i = 0 ∨ i = 1 ∨ i = 2 ∨ i = 3 ∨ i = 4)%Z as Hcases by lia.
    destruct Hcases as [->|[->|[->|[->| ->]]]]; vm_compute; split;
      first [ by intros; try (by left); try (by right)
            | by intros [H|H]; discriminate H
            | intros H; by destruct H ].
  - intros h sd k c ms. eexists. reflexivity.
  - lia.
  - exists d'. split; [exact Hrun|]. split; [exact Haddresses|]. exact Hfetches.
Defined.

(** C7 on the fresh and the funded wallet, which differ in their tables. *)
Lemma derive_owner_secret_deterministic_witness :
  (@deriveOwner Toy.lib "hookin:tx0:0" "nonce:0" Scenario.fresh).1
  = (@deriveOwner Toy.lib "hookin:tx0:0" "nonce:0" Scenario.funded).1
  ∧ (@deriveBlindingSecret Toy.lib "hookin:tx0:0" "nonce:0" Scenario.fresh).1
    = (@deriveBlindingSecret Toy.lib "hookin:tx0:0" "nonce:0" Scenario.funded).1
  ∧ size (coins Scenario.fresh) = 0 ∧ size (coins Scenario.funded) = 4.
Proof.
  destruct (@derive_owner_secret_deterministic Toy.lib Scenario.theSeed "hookin:tx0:0" "nonce:0"
              Scenario.fresh Scenario.funded) as (Howner & Hsecret & _).
  - reflexivity.
  - vm_compute. reflexivity.
  - split; [exact Howner|]. split; [exact Hsecret|]. split; vm_compute; reflexivity.
Defined.

(** C10 on the fresh wallet: the internal lineage derives from the
    generator labelled for the direct one, and the generators differ. *)
Lemma deriveClaimant_generators_witness :
  (@deriveClaimant Toy.lib "0" true Scenario.fresh).1 = inr "seed#directAddressGenerator/0"
  ∧ (@deriveClaimant Toy.lib "0" false Scenario.fresh).1 = inr "seed#internalAddressGenerator/0"
  ∧ ∀ g1 g2, @seedToDirectAddressGenerator Toy.lib Scenario.theSeed Scenario.fresh = (inr g1, Scenario.fresh) →
             @seedToInternalAddressGenerator Toy.lib Scenario.theSeed Scenario.fresh = (inr g2, Scenario.fresh) →
             g1 ≠ g2.
Proof.
  destruct (@deriveClaimant_generators Toy.lib Scenario.fresh Scenario.theSeed "0")
    as (Htrue & Hfalse & _ & _ & _ & Hdistinct).
  - reflexivity.
  - split; [by rewrite Htrue|]. split; [by rewrite Hfalse|].
    apply Hdistinct.
    + intros l1 l2 H. by injection H.
    + intros b1 b2 k H1 H2. injection H1 as ->. by injection H2 as ->.
Defined.


(** The build of the scenario returns a transfer. *)
Lemma builtRun_returns :
  Scenario.builtRun
  = (inr (Some (Scenario.builtBounty, Scenario.builtDoc, Scenario.builtHash)),
     Scenario.builtRun.2).
Proof.
  apply returned_some. vm_compute. reflexivity.
Qed.

(** C6 on the transfer built in the funded wallet. *)
Lemma built_transfer_commits_witness :
  Scenario.builtRun = (inr (Some (Scenario.builtBounty, Scenario.builtDoc, Scenario.builtHash)), Scenario.builtRun.2)
  ∧ transfers Scenario.builtRun.2 !! Docs.t_hash Scenario.builtDoc = Some Scenario.builtDoc
  ∧ @Transfer_hashOf Toy.lib (Docs.t_coinHashes Scenario.builtDoc) (Docs.t_bountyHashes Scenario.builtDoc)
      (Docs.t_hookoutHash Scenario.builtDoc)
    = Docs.t_hash Scenario.builtDoc
  ∧ Docs.t_hash Scenario.builtDoc = Scenario.builtHash.
Proof.
  destruct (@built_transfer_commits Toy.lib Scenario.gapWorld Scenario.funded Scenario.builtRun.2 Scenario.builtDoc Scenario.builtHash)
    as (Hstored & Hcommits & Hhash & _).
  - left. exists "pub:bob", 10%Z, Scenario.builtBounty. exact builtRun_returns.
  - split; [exact builtRun_returns|]. split; [exact Hstored|].
    split; [exact Hcommits|exact Hhash].
Defined.

(** C1 and C5 around the pending transfer of the scenario: its coin is
    reserved while the transfer is PENDING, free again once the transfer is
    discarded, and spent for good once the server has acknowledged it; a
    transfer that is no longer PENDING can be neither discarded nor
    finalized. *)
Example listUnspent_around_pending :
  let discarded := (discardTransfer Scenario.localDoc Scenario.pending).2 in
  let acknowledged :=
    (@finalizeTransfer Toy.lib Scenario.gapWorld Scenario.localDoc Scenario.pending).2 in
  (listUnspent Scenario.pending).1 = inr []
  ∧ (listUnspent discarded).1 = inr [Scenario.aCoinDoc]
  ∧ (listUnspent acknowledged).1 = inr []
  ∧ Docs.t_status <$> transfers acknowledged !! Docs.t_hash Scenario.localDoc
    = Some (ACKNOWLEDGED "ack")
  ∧ (discardTransfer (withStatus Scenario.localDoc CONFLICTED) discarded).1
    = inl TransferMustBePending
  ∧ (@finalizeTransfer Toy.lib Scenario.gapWorld
       (withStatus Scenario.localDoc (ACKNOWLEDGED "ack")) acknowledged).1
    = inl TransferMustBePending.
Proof. vm_compute. by repeat split. Qed.

(** C2 and C9 on the hookin of index 0, worth 100: the first claim asks for
    the magnitudes of 99 (99 = 1 + 2 + 32 + 64) and stores one claim and four
    coins, the second asks for nothing and stores nothing. *)
Example claimHookin_twice :
  let w := Scenario.gapWorld in
  let stored := (@addBitcoinAddress Toy.lib 0 Scenario.fresh).2 in
  let address :=
    Docs.mkBitcoinAddress (Scenario.addressOf 0)
      (@PrivateKey_toPublicKey Toy.lib (Scenario.keyOf 0)) 0 in
  let hookinDoc := @hookinDocOf Toy.lib address (mkBitcoinReceiveInfo "tx0" 0 100) 0 in
  let once := (@claimHookin Toy.lib w hookinDoc stored).2 in
  let twice := (@claimHookin Toy.lib w hookinDoc once).2 in
  history once
  = [EvMakeClaim (Scenario.keyOf 0) (ClaimHookin (Hookin_fromPOD hookinDoc)) [0; 1; 5; 6]]
  ∧ valueOf [0; 1; 5; 6] = 99%Z
  ∧ size (claims once) = 1 ∧ size (coins once) = 4
  ∧ length (history twice) = 1
  ∧ size (claims twice) = 1 ∧ size (coins twice) = 4.
Proof. vm_compute. by repeat split. Qed.

(** X1 on the pending transfer of the scenario, which the server of the
    gap scenario acknowledges. *)
Lemma finalizeTransfer_acknowledged_witness :
  ∃ d', @finalizeTransfer Toy.lib Scenario.gapWorld Scenario.localDoc Scenario.pending
        = (inr tt, d')
  ∧ Docs.t_status <$> transfers d' !! Docs.t_hash Scenario.localDoc
    = Some (ACKNOWLEDGED "ack").
Proof.
  destruct (@finalizeTransfer_acknowledged Toy.lib Scenario.gapWorld Scenario.localDoc
              Scenario.pending Scenario.localTransfer "ack")
    as (d' & bountyDocs & evs & Hrun & Htransfers & _).
  - reflexivity.
  - reflexivity.
  - reflexivity.
  - exists d'. split; [exact Hrun|]. rewrite Htransfers, lookup_insert_eq. reflexivity.
Defined.

(** X2 on the same transfer and a server that refuses it. *)
Lemma finalizeTransfer_fails_unwritten_witness :
  @finalizeTransfer Toy.lib Cases.refusingWorld Scenario.localDoc Scenario.pending
  = (inl (Thrown Cases.refusal),
     set_history (λ h, h ++ [EvSubmitTransfer Scenario.localTransfer]) Scenario.pending).
Proof.
  apply (@finalizeTransfer_fails_unwritten Toy.lib Cases.refusingWorld Scenario.localDoc
           Scenario.pending).
  - reflexivity.
  - reflexivity.
  - reflexivity.
  - intros H. discriminate H.
Defined.

(** X3 on a hookin whose address the fresh wallet does not hold. *)
Lemma failed_claim_stores_nothing_witness :
  @claimHookin Toy.lib Scenario.gapWorld Cases.strayHookin Scenario.fresh
  = (inl MustExist, Scenario.fresh)
  ∧ (Scenario.fresh = Scenario.fresh
     ∨ ∃ claimant c magnitudes requestError,
         @makeClaim Scenario.gapWorld (history Scenario.fresh) (seed Scenario.fresh)
                    claimant c magnitudes = inl requestError
         ∧ MustExist = Thrown requestError
         ∧ Scenario.fresh
           = set_history (λ h, h ++ [EvMakeClaim claimant c magnitudes]) Scenario.fresh).
Proof.
  split; [reflexivity|].
  apply (@failed_claim_stores_nothing Toy.lib Scenario.gapWorld Scenario.fresh Scenario.fresh
           MustExist).
  left. exists Cases.strayHookin. reflexivity.
Defined.

(** X7 on the fresh wallet: the first address is stored by the first call
    and returned again by the second. *)
Lemma getUnusedBitcoinAddress_stable_witness :
  (@getUnusedBitcoinAddress Toy.lib Scenario.fresh).1 = inr Cases.firstBitcoinAddress
  ∧ @getUnusedBitcoinAddress Toy.lib (@getUnusedBitcoinAddress Toy.lib Scenario.fresh).2
    = (inr Cases.firstBitcoinAddress, (@getUnusedBitcoinAddress Toy.lib Scenario.fresh).2).
Proof.
  assert ((@getUnusedBitcoinAddress Toy.lib Scenario.fresh).1 = inr Cases.firstBitcoinAddress)
    as Hfirst by (vm_compute; reflexivity).
  split; [exact Hfirst|].
  destruct (@getUnusedBitcoinAddress_stable Toy.lib Scenario.fresh
              (@getUnusedBitcoinAddress Toy.lib Scenario.fresh).2 Cases.firstBitcoinAddress)
    as (_ & _ & Hagain).
  - apply returned. exact Hfirst.
  - apply Hagain. reflexivity.
Defined.

(** X8 on the fresh wallet. *)
Lemma getUnusedDirectAddress_stable_witness :
  (@getUnusedDirectAddress Toy.lib Scenario.fresh).1 = inr Cases.firstDirectAddress
  ∧ @getUnusedDirectAddress Toy.lib (@getUnusedDirectAddress Toy.lib Scenario.fresh).2
    = (inr Cases.firstDirectAddress, (@getUnusedDirectAddress Toy.lib Scenario.fresh).2).
Proof.
  assert ((@getUnusedDirectAddress Toy.lib Scenario.fresh).1 = inr Cases.firstDirectAddress)
    as Hfirst by (vm_compute; reflexivity).
  split; [exact Hfirst|].
  destruct (@getUnusedDirectAddress_stable Toy.lib Scenario.fresh
              (@getUnusedDirectAddress Toy.lib Scenario.fresh).2 Cases.firstDirectAddress)
    as (_ & _ & Hagain).
  - apply returned. exact Hfirst.
  - apply Hagain. reflexivity.
Defined.

(** X9 on a change of 5 in the fresh wallet: the bounty goes to the first
    internal address, and [claimBounty] asks with the key of that address. *)
Lemma change_bounty_is_claimable_witness :
  Cases.changeRun.1 = inr (Cases.change, @Bounty_toDoc Toy.lib Cases.change)
  ∧ ∃ address claimant,
      directAddresses Cases.changeRun.2 !! hi.bounty_claimant Cases.change = Some address
      ∧ Docs.da_isInternal address = true
      ∧ @PrivateKey_toPublicKey Toy.lib claimant = hi.bounty_claimant Cases.change.
Proof.
  assert (Cases.changeRun.1 = inr (Cases.change, @Bounty_toDoc Toy.lib Cases.change))
    as Hrun by (vm_compute; reflexivity).
  split; [exact Hrun|].
  destruct (@change_bounty_is_claimable Toy.lib Scenario.gapWorld 5 Scenario.fresh
              Cases.changeRun.2 Cases.change (@Bounty_toDoc Toy.lib Cases.change))
    as (_ & _ & _ & address & claimant & Haddress & Hinternal & _ & _ & Hkey & _).
  - apply returned. exact Hrun.
  - exists address, claimant. split; [exact Haddress|]. split; [exact Hinternal|exact Hkey].
Defined.

(** X10 on the transfer built in the funded wallet, whose balance of 99
    drops by the 35 of its three inputs. *)
Lemma built_transfer_reserves_coins_witness :
  coins Scenario.builtRun.2 = coins Scenario.funded
  ∧ (getBalance Scenario.funded).1 = inr 99%Z
  ∧ (getBalance Scenario.builtRun.2).1 = inr 64%Z.
Proof.
  destruct (@built_transfer_reserves_coins Toy.lib Scenario.gapWorld Scenario.funded
              Scenario.builtRun.2 Scenario.builtDoc Scenario.builtHash)
    as (Hcoins & _).
  - left. exists "pub:bob", 10%Z, Scenario.builtBounty. exact builtRun_returns.
  - split; [exact Hcoins|]. split; vm_compute; reflexivity.
Defined.

(** The stored transfer of the scenario reads back in full. *)
Lemma builtTransfer_stored :
  fullTransferOf Scenario.builtRun.2 Scenario.builtDoc = Some Cases.builtTransfer.
Proof. vm_compute. reflexivity. Qed.

(** X12 on the send of 10 to "pub:bob" from the funded wallet. *)
Lemma send_acknowledged_witness :
  (@sendDirect Toy.lib Scenario.gapWorld "pub:bob" 10 Scenario.funded).1
  = inr (Some Scenario.builtHash).
Proof.
  destruct (@send_acknowledged Toy.lib Scenario.gapWorld Scenario.funded Scenario.builtRun.2
              Scenario.builtDoc Scenario.builtHash Cases.builtTransfer "ack")
    as (Hdirect & _).
  - exact builtTransfer_stored.
  - reflexivity.
  - destruct (Hdirect "pub:bob" 10%Z Scenario.builtBounty) as (Hsent & _).
    + reflexivity.
    + exact builtRun_returns.
    + exact Hsent.
Defined.

(** The same send builds the same transfer whatever the server. *)
Lemma refusedRun_returns :
  Cases.refusedRun
  = (inr (Some (Scenario.builtBounty, Scenario.builtDoc, Scenario.builtHash)),
     Cases.refusedRun.2).
Proof. apply returned_some. vm_compute. reflexivity. Qed.

Lemma refusedTransfer_stored :
  fullTransferOf Cases.refusedRun.2 Scenario.builtDoc = Some Cases.builtTransfer.
Proof. vm_compute. reflexivity. Qed.

(** X13 on the same send against the refusing server: the error is thrown
    and the transfer stays stored. *)
Lemma send_rejected_stays_pending_witness :
  (@sendDirect Toy.lib Cases.refusingWorld "pub:bob" 10 Scenario.funded).1
  = inl (Thrown Cases.refusal)
  ∧ transfers (@sendDirect Toy.lib Cases.refusingWorld "pub:bob" 10 Scenario.funded).2
    !! Docs.t_hash Scenario.builtDoc = Some Scenario.builtDoc.
Proof.
  destruct (@send_rejected_stays_pending Toy.lib Cases.refusingWorld Scenario.funded
              Cases.refusedRun.2 Scenario.builtDoc Scenario.builtHash Cases.builtTransfer
              Cases.refusal)
    as ((Hdirect & _) & Hstays).
  - exact refusedTransfer_stored.
  - reflexivity.
  - intros H. discriminate H.
  - destruct (Hdirect "pub:bob" 10%Z Scenario.builtBounty) as (Hrun & _).
    + reflexivity.
    + exact refusedRun_returns.
    + destruct Hstays as (Hrow & _).
      * left. exists "pub:bob", 10%Z, Scenario.builtBounty. exact refusedRun_returns.
      * rewrite Hrun. split; [reflexivity|exact Hrow].
Defined.

(** X14 on the fresh wallet, which holds no coin. *)
Lemma send_refused_unwritten_witness :
  @sendDirect Toy.lib Scenario.gapWorld "pub:bob" 0 Scenario.fresh
  = (inl MustEqual, Scenario.fresh)
  ∧ @sendDirect Toy.lib Scenario.gapWorld "pub:bob" 10 Scenario.fresh
    = (inr None, Scenario.fresh)
  ∧ @sendToBitcoinAddress Toy.lib Scenario.gapWorld "addr:carol" 10 1 Scenario.fresh
    = (inr None, Scenario.fresh).
Proof.
  destruct (@send_refused_unwritten Toy.lib Scenario.gapWorld Scenario.fresh [])
    as (Hamount & Hdirect & Hhookout).
  - reflexivity.
  - split; [apply Hamount; lia|]. split.
    + apply Hdirect; [lia|reflexivity].
    + apply Hhookout. reflexivity.
Defined.

(** X16 on the fresh wallet with gap limit 3 and a world without receipts:
    three probes, nothing stored. *)
Lemma syncBitcoinAddresses_no_receipts_witness :
  @syncBitcoinAddresses Toy.lib Cases.refusingWorld 3 Scenario.fresh
  = (inr (Some tt),
     set_history
       (λ h, h ++ (EvFetchBitcoinReceives <$> (Scenario.addressOf <$> [0; 1; 2]%Z)))
       Scenario.fresh).
Proof.
  apply (@syncBitcoinAddresses_no_receipts Toy.lib Cases.refusingWorld Scenario.fresh
           Scenario.theSeed (mkConfig "mnemonic" 3) 3).
  - reflexivity.
  - reflexivity.
  - intros h a. reflexivity.
  - intros i. eexists. reflexivity.
  - vm_compute. lia.
Defined.

(** X18 with the stand-in for bip39: a blank database is restored, and the
    password unlocks the row. *)
Lemma restore_then_unlock_witness :
  ∃ row d',
    @restore Toy.lib Cases.bip39 "abandon ability able" "secret" Cases.blank
    = (inr (inr row), d')
    ∧ seed d' = Some "abandon ability able:secret"
    ∧ ∀ d'', @unlock Toy.lib Cases.bip39 (Some row) "secret" d''
             = (inr None, set_seed (λ _, Some "abandon ability able:secret") d'').
Proof.
  pose proof (@restore_then_unlock Toy.lib Cases.bip39 "abandon ability able" "secret"
                Cases.blank) as H.
  cbv zeta in H.
  destruct (@restore Toy.lib Cases.bip39 "abandon ability able" "secret" Cases.blank)
    as [[e|[error|row]] d'] eqn:Hrun.
  - vm_compute in Hrun. discriminate Hrun.
  - vm_compute in Hrun. discriminate Hrun.
  - destruct H as (_ & _ & Hd' & _ & _ & _ & Hunlock).
    exists row, d'. split; [reflexivity|]. split; [by rewrite Hd'|exact Hunlock].
Defined.








(** X24 on the fresh wallet of the gap scenario, asked to check its first
    address before that address is stored: the claim of the receipt fails,
    and its hookin is stored. *)
Lemma checkBitcoinAddress_failed_claim_keeps_hookin_witness :
  ∃ receive created,
    receive ∈ @fetchBitcoinReceives Scenario.gapWorld (history Scenario.fresh)
                (Docs.ba_address Cases.firstBitcoinAddress)
    ∧ let d' := (@checkBitcoinAddress Toy.lib Scenario.gapWorld Cases.firstBitcoinAddress
                   Scenario.fresh).2 in
      let hookinDoc := @hookinDocOf Toy.lib Cases.firstBitcoinAddress receive created in
      hookins d' !! Docs.h_hash hookinDoc = Some hookinDoc
      ∧ Docs.h_bitcoinAddress hookinDoc = Docs.ba_address Cases.firstBitcoinAddress
      ∧ claims d' !! Docs.h_hash hookinDoc = None.
Proof.
  apply (@checkBitcoinAddress_failed_claim_keeps_hookin Toy.lib Scenario.gapWorld
           Cases.firstBitcoinAddress Scenario.fresh _ MustExist).
  apply thrown. vm_compute. reflexivity.
Defined.

(** X25 and X26 on the wallet of the scenarios without its seed. *)
Lemma locked_wallet_requests_no_claim_witness :
  @claimBountyWithAddress Toy.lib Scenario.gapWorld
     (Docs.mkBounty "bounty" 5 "pub:claimant" "nonce") Cases.firstDirectAddress Cases.locked
  = (inl WalletLocked, Cases.locked).
Proof.
  destruct (@locked_wallet_requests_no_claim Toy.lib Scenario.gapWorld Cases.locked)
    as (_ & Hbounty & _).
  - reflexivity.
  - apply Hbounty. reflexivity.
Defined.

Lemma locked_wallet_makes_no_address_witness :
  @newBitcoinAddress Toy.lib Cases.locked = (inl WalletLocked, Cases.locked)
  ∧ @newDirectAddress Toy.lib Cases.locked = (inl WalletLocked, Cases.locked).
Proof.
  destruct (@locked_wallet_makes_no_address Toy.lib Scenario.gapWorld Cases.locked)
    as (Hnew & Hdirect & _).
  - reflexivity.
  - split; [exact Hnew|exact Hdirect].
Defined.
